(** * PocketIDClient reconciler: a shallow embedding and its properties

    The development follows the operator's capability file (the watch
    handler, [reconcile], [handleDeletion] and their helpers) and the
    types of [crd/pocketidclient].

    Conventions of the embedding.
    - A JavaScript number that is a counter or a generation is a [Z].
      A duration is the rational [Q] that a binary64 number denotes,
      and every operation on durations rounds as binary64 does (module
      [Binary64]).
    - An instant ([Date.now()], an ISO-8601 timestamp string) is the
      number of milliseconds it denotes, a [Z]; the sum of an instant
      and a duration is rounded, and a [Date] keeps its whole
      milliseconds.
    - A string is a [string] whose characters are its code units; only
      code units below 256 are represented.
    - An optional field is an [option]; [None] is [undefined].
    - Asynchronous calls are sequenced: every [await] is a bind of the
      monad [M] below. Logging is omitted, and with it the handler for
      deleted resources, which only logs. *)

From Stdlib Require Import ZArith QArith Qminmax Qround Qpower Lia Lqa Ascii String.
From stdpp Require Import base option list strings gmap pretty.

Open Scope string_scope.
Open Scope Z_scope.

(** ** Binary64 numbers

    A JavaScript number is the rational it denotes. [binary64 x] is the
    result of an arithmetic operation whose exact value is [x]: the
    binary64 number nearest to [x], ties to the even significand, with
    gradual underflow. The binary64 numbers are multiples of
    [2^-1074]; a value is counted in these units, and the numbers
    around a count with bit length [l + 1] are [2^(l - 52)] units
    apart (one unit apart for the subnormal ones).

    A value of magnitude [2^53] and more stands for itself: overflow to
    [Infinity] is not represented. The time values of ECMAScript lie
    within [8.64e15 < 2^53], and a delay of that magnitude only meets
    [Math.min] with the ceiling, which returns the ceiling for a large
    number as for [Infinity]. *)

Module Binary64.

(** The nearest integer, ties to even. *)
Definition roundHalfEven (q : Q) : Z :=
  let f := Qfloor q in
  match (q - inject_Z f ?= 1 # 2)%Q with
  | Lt => f
  | Gt => f + 1
  | Eq => if Z.even f then f else f + 1
  end.

Definition units : Z := 2 ^ 1074.

(** The distance, in units, of the binary64 numbers around the count
    [X >= 0]. *)
Definition spacing (X : Q) : Z := 2 ^ Z.max (Z.log2 (Qfloor X) - 52) 0.

Definition nearestUnits (X : Q) : Z :=
  roundHalfEven (X / inject_Z (spacing X))%Q * spacing X.

(** The binary64 number nearest to [x >= 0]. *)
Definition nearest (x : Q) : Q :=
  (inject_Z (nearestUnits (x * inject_Z units)) / inject_Z units)%Q.

Definition binary64 (x : Q) : Q :=
  if Qle_bool 0 x then
    if Qle_bool (inject_Z (2 ^ 53)) x then x else nearest x
  else
    if Qle_bool x (inject_Z (- 2 ^ 53)) then x else (- nearest (- x))%Q.

(** [ToIntegerOrInfinity]: the fraction is dropped. *)
Definition truncate (x : Q) : Z :=
  if Qle_bool 0 x then Qfloor x else Qceiling x.

End Binary64.

(** ** Retry configuration and the backoff policy *)

Module Backoff.
Import Binary64.

Record RetryConfig := {
  baseDelayMs : Z;
  maxDelayMs : Z;
  maxRetries : Z
}.

Definition RETRY_CONFIG : RetryConfig :=
  {| baseDelayMs := 5000; maxDelayMs := 300000; maxRetries := 10 |}.

(** [calculateBackoffDelay retryAttempt random]: [random] is the value
    that the call of [Math.random()] returns. [Math.pow], the product
    and the sums are binary64 operations. *)
Definition calculateBackoffDelay (retryAttempt : Z) (random : Q) : Q :=
  let exponentialDelay :=
    binary64 (inject_Z (baseDelayMs RETRY_CONFIG)
              * binary64 (2 ^ (retryAttempt - 1)))%Q in
  let jitter := binary64 (random * 1000)%Q in
  Qmin (binary64 (exponentialDelay + jitter)%Q) (inject_Z (maxDelayMs RETRY_CONFIG)).

(** The exponential envelope [base * 2^(n-1)], in milliseconds. *)
Definition envelope (n : Z) : Q :=
  (inject_Z (baseDelayMs RETRY_CONFIG) * 2 ^ (n - 1))%Q.

End Backoff.

(** ** The template renderer *)

Module Template.

Record TemplateContext := {
  ClientID : string;
  ClientSecret : string;
  ClientName : string;
  Namespace : string;
  ResourceName : string
}.

Definition fields : list string :=
  ["ClientID"; "ClientSecret"; "ClientName"; "Namespace"; "ResourceName"].

(** The class [\s] of the regular expressions, on code units below 256:
    tab, line feed, vertical tab, form feed, carriage return, space and
    the no-break space. *)
Definition isWhiteSpace (c : ascii) : bool :=
  let n := N_of_ascii c in
  ((9 <=? n)%N && (n <=? 13)%N) || (n =? 32)%N || (n =? 160)%N.

(** [literal p s]: the rest of [s] after the literal text [p]. *)
Fixpoint literal (p s : string) : option string :=
  match p with
  | EmptyString => Some s
  | String a p' =>
      match s with
      | String b s' => if Ascii.eqb a b then literal p' s' else None
      | EmptyString => None
      end
  end.

(** [\s*] is greedy, and what follows it in the patterns never starts
    with white space, so it consumes the whole run. *)
Fixpoint spaces (s : string) : string :=
  match s with
  | String c s' => if isWhiteSpace c then spaces s' else s
  | EmptyString => EmptyString
  end.

(** A match of [/\{\{\s*\.Field\s*\}\}/] at the start of [s]: the text
    that follows the match. *)
Definition placeholder (field s : string) : option string :=
  s1 ← literal "{{" s;
  s2 ← literal (String "." field) (spaces s1);
  literal "}}" (spaces s2).

(** The replacement patterns of [String.prototype.replace] for a regular
    expression without capture groups: [$$], [$&], [$`] and [$']. *)
Fixpoint getSubstitution (matched before after replacement : string) : string :=
  match replacement with
  | EmptyString => EmptyString
  | String c r =>
      if Ascii.eqb c "$" then
        match r with
        | String d r' =>
            if Ascii.eqb d "$" then
              String "$" (getSubstitution matched before after r')
            else if Ascii.eqb d "&" then
              matched ++ getSubstitution matched before after r'
            else if Ascii.eqb d "`" then
              before ++ getSubstitution matched before after r'
            else if Ascii.eqb d "'" then
              after ++ getSubstitution matched before after r'
            else String c (getSubstitution matched before after r)
        | EmptyString => String c EmptyString
        end
      else String c (getSubstitution matched before after r)
  end.

(** [s.replace(/\{\{\s*\.Field\s*\}\}/g, replacement)], scanning [s] from
    the left: [before] is the text already scanned, [skip] the number of
    code units of the current match still to pass over. *)
Fixpoint replace_from (field replacement : string) (skip : nat)
    (before s : string) : string :=
  match s with
  | EmptyString => EmptyString
  | String c s' =>
      match skip with
      | S k => replace_from field replacement k (before ++ String c "") s'
      | O =>
          match placeholder field (String c s') with
          | Some after =>
              let len := (String.length (String c s') - String.length after)%nat in
              getSubstitution (substring 0 len (String c s')) before after replacement
              ++ replace_from field replacement (len - 1) (before ++ String c "") s'
          | None =>
              String c (replace_from field replacement 0 (before ++ String c "") s')
          end
      end
  end.

(** Does the pattern for [field] match somewhere in [s]? *)
Fixpoint occurs (field s : string) : bool :=
  match s with
  | EmptyString => false
  | String c s' =>
      match placeholder field (String c s') with
      | Some _ => true
      | None => occurs field s'
      end
  end.

Definition replace (field replacement s : string) : string :=
  replace_from field replacement 0 "" s.

Definition renderTemplate (template : string) (context : TemplateContext) : string :=
  replace "ResourceName" (ResourceName context)
    (replace "Namespace" (Namespace context)
      (replace "ClientName" (ClientName context)
        (replace "ClientSecret" (ClientSecret context)
          (replace "ClientID" (ClientID context) template)))).

End Template.

(** ** The resource, its status and the calls the operator issues *)

Module Operator.
Import Backoff Template.

Inductive Phase := Pending | Ready | Failed | Retrying | Removing | RemovalFailed.

#[global] Instance Phase_eq_dec : EqDecision Phase.
Proof. solve_decision. Defined.

(** The condition status strings ["True"], ["False"] and ["Unknown"]. *)
Inductive ConditionStatus := CondTrue | CondFalse | CondUnknown.

#[global] Instance ConditionStatus_eq_dec : EqDecision ConditionStatus.
Proof. solve_decision. Defined.

Record Condition := {
  cond_type : string;
  cond_status : ConditionStatus;
  cond_observedGeneration : option Z;
  cond_lastTransitionTime : Z;
  cond_reason : string;
  cond_message : string
}.

Record SecretTemplate := {
  tmpl_name : option string;
  tmpl_data : option (list (string * string))
}.

Record PocketIDClientStatus := {
  st_observedGeneration : option Z;
  st_conditions : option (list Condition);
  st_phase : option Phase;
  st_retryAttempt : option Z;
  st_nextRetryTime : option Z;
  st_clientId : option string;
  st_secretName : option string
}.

(** [Partial<PocketIDClientStatus>]: a key is absent ([None]) or present
    with a value that may be [undefined] ([Some None]). *)
Record PartialStatus := {
  p_observedGeneration : option (option Z);
  p_conditions : option (option (list Condition));
  p_phase : option (option Phase);
  p_retryAttempt : option (option Z);
  p_nextRetryTime : option (option Z);
  p_clientId : option (option string);
  p_secretName : option (option string)
}.

(** The fields of the create DTO of the external service that the
    operator reads, with the secret template the CRD adds. *)
Record PocketIDClientSpec := {
  spec_id : option string;
  spec_name : option string;
  callbackURLs : option (list string);
  logoutCallbackURLs : option (list string);
  isPublic : option bool;
  pkceEnabled : option bool;
  isGroupRestricted : option bool;
  launchURL : option string;
  requiresReauthentication : option bool;
  secretTemplate : option SecretTemplate
}.

Record ObjectMeta := {
  namespace : string;
  name : string;
  uid : option string;
  generation : option Z;
  deletionTimestamp : option Z;
  finalizers : option (list string)
}.

Record PocketIDClient := {
  metadata : ObjectMeta;
  spec : option PocketIDClientSpec;
  status : option PocketIDClientStatus
}.

(** The body sent to the external service on create ([dto_id] set) and
    on update ([dto_id] absent). *)
Record OidcClientDto := {
  dto_id : option string;
  dto_name : string;
  dto_callbackURLs : option (list string);
  dto_logoutCallbackURLs : option (list string);
  dto_isPublic : option bool;
  dto_pkceEnabled : option bool;
  dto_isGroupRestricted : option bool;
  dto_launchURL : option string;
  dto_requiresReauthentication : option bool
}.

Record OwnerReference := {
  owner_apiVersion : string;
  owner_kind : string;
  owner_name : string;
  owner_uid : option string;
  owner_controller : bool;
  owner_blockOwnerDeletion : bool
}.

Record Secret := {
  secret_name : string;
  secret_namespace : string;
  secret_ownerReferences : list OwnerReference;
  secret_type : string;
  stringData : list (string * string)
}.

(** The remote calls: the first four go to the cluster API, the last
    five to the external service ([OidcService]). *)
Inductive Call :=
| PatchStatus (ns nm : string) (body : PocketIDClientStatus)
| ApplyClient (ns nm : string) (fins : list string)
| ApplySecret (secret : Secret)
| DeleteSecret (ns secretName : string)
| getApiOidcClients1 (id : string)
| putApiOidcClients (id : string) (dto : OidcClientDto)
| postApiOidcClients (dto : OidcClientDto)
| postApiOidcClientsSecret (id : string)
| deleteApiOidcClients (id : string).

(** A thrown value: its [message], and its [status] when it is the
    error of an HTTP response. *)
Record Error := {
  err_message : string;
  err_status : option Z
}.

(** What a call comes back with: a value (the secret, for
    [postApiOidcClientsSecret]; ignored otherwise) or a rejection. *)
Inductive Response := Done (value : string) | Raise (e : Error).

(** The world of one invocation: [script k] answers the call issued
    after [k] earlier ones, [clock k] and [random k] are what
    [Date.now()] and [Math.random()] return at that point. *)
Record Env := {
  script : nat -> Response;
  clock : nat -> Z;
  random : nat -> Q
}.

(** The mutable state: the resource object that every helper receives
    by reference, the dedup ledger, and the calls issued so far with
    their answers. *)
Record State := {
  client : PocketIDClient;
  lastGenByUid : gmap string Z;
  trace : list (Call * Response)
}.

Inductive Outcome (A : Type) := Returned (a : A) | Thrown (e : Error).
Arguments Returned {A} a.
Arguments Thrown {A} e.

Definition M (A : Type) : Type := Env -> State -> Outcome A * State.

Definition ret {A} (a : A) : M A := fun _ s => (Returned a, s).

Definition bind {A B} (m : M A) (k : A -> M B) : M B :=
  fun env s =>
    match m env s with
    | (Returned a, s') => k a env s'
    | (Thrown e, s') => (Thrown e, s')
    end.

Definition throw {A} (e : Error) : M A := fun _ s => (Thrown e, s).

Definition try_catch {A} (body : M A) (handler : Error -> M A) : M A :=
  fun env s =>
    match body env s with
    | (Returned a, s') => (Returned a, s')
    | (Thrown e, s') => handler e env s'
    end.

#[global] Instance M_ret : MRet M := @ret.
#[global] Instance M_bind : MBind M := fun A B k m => bind m k.

Definition get_client : M PocketIDClient :=
  fun _ s => (Returned (client s), s).

Definition get_lastGenByUid : M (gmap string Z) :=
  fun _ s => (Returned (lastGenByUid s), s).

Definition set_lastGenByUid (ledger : gmap string Z) : M unit :=
  fun _ s =>
    (Returned tt,
     {| client := client s; lastGenByUid := ledger; trace := trace s |}).

(** The answer to the next call, and the state once it is recorded. *)
Definition next (env : Env) (s : State) : Response :=
  script env (length (trace s)).

Definition push (s : State) (call : Call) (r : Response) : State :=
  {| client := client s; lastGenByUid := lastGenByUid s;
     trace := trace s ++ [(call, r)] |}.

Definition outcome_of (r : Response) : Outcome string :=
  match r with
  | Done v => Returned v
  | Raise e => Thrown e
  end.

Definition request (call : Call) : M string :=
  fun env s => let r := next env s in (outcome_of r, push s call r).

Definition Date_now : M Z :=
  fun env s => (Returned (clock env (length (trace s))), s).

Definition Math_random : M Q :=
  fun env s => (Returned (random env (length (trace s))), s).

Definition isDone (r : Response) : bool :=
  match r with
  | Done _ => true
  | Raise _ => false
  end.

(** ** Helpers of the capability *)

Definition FINALIZER : string := "pocketidclient.jeffrescignano.io/finalizer".

(** [a || b] where [a] is an optional string: [undefined] and the empty
    string are falsy. *)
Definition or_else (a : option string) (b : string) : string :=
  match a with
  | Some s => if String.eqb s "" then b else s
  | None => b
  end.

Definition truthy (a : option string) : bool :=
  match a with
  | Some s => negb (String.eqb s "")
  | None => false
  end.

(** [client.status?.field] *)
Definition status_field {A} (f : PocketIDClientStatus -> option A)
    (c : PocketIDClient) : option A :=
  status c ≫= f.

(** [Array.prototype.findIndex]: the first index whose element passes
    the test, [-1] when there is none. *)
Fixpoint findIndex {A} (p : A -> bool) (l : list A) : Z :=
  match l with
  | [] => -1
  | x :: l' =>
      if p x then 0
      else let i := findIndex p l' in if i <? 0 then -1 else i + 1
  end.

Definition configureApiClient : M unit := mret tt.

(** [shouldSkipDueToBackoff(client)] *)
Definition shouldSkipDueToBackoff : M bool :=
  c ← get_client;
  match status_field st_nextRetryTime c with
  | None => mret false
  | Some nextRetry =>
      if bool_decide (status_field st_phase c = Some Ready) then mret false
      else
        now ← Date_now;
        if now <? nextRetry then mret true else mret false
  end.

Definition createCondition (type : string) (st : ConditionStatus)
    (reason message : string) (gen : option Z) : M Condition :=
  now ← Date_now;
  mret {| cond_type := type; cond_status := st; cond_reason := reason;
          cond_message := message; cond_lastTransitionTime := now;
          cond_observedGeneration := gen |}.

(** One key of the object spread [{...currentStatus, ...status}]. *)
Definition spread {A} (current : option A) (key : option (option A)) : option A :=
  match key with
  | Some v => v
  | None => current
  end.

Definition emptyStatus : PocketIDClientStatus :=
  {| st_observedGeneration := None; st_conditions := None; st_phase := None;
     st_retryAttempt := None; st_nextRetryTime := None; st_clientId := None;
     st_secretName := None |}.

Definition noKeys : PartialStatus :=
  {| p_observedGeneration := None; p_conditions := None; p_phase := None;
     p_retryAttempt := None; p_nextRetryTime := None; p_clientId := None;
     p_secretName := None |}.

(** The [newStatus] object that [updateStatus] builds. *)
Definition newStatus (c : PocketIDClient) (upd : PartialStatus) : PocketIDClientStatus :=
  let currentStatus := default emptyStatus (status c) in
  {| st_conditions := spread (st_conditions currentStatus) (p_conditions upd);
     st_phase := spread (st_phase currentStatus) (p_phase upd);
     st_retryAttempt := spread (st_retryAttempt currentStatus) (p_retryAttempt upd);
     st_nextRetryTime := spread (st_nextRetryTime currentStatus) (p_nextRetryTime upd);
     st_clientId := spread (st_clientId currentStatus) (p_clientId upd);
     st_secretName := spread (st_secretName currentStatus) (p_secretName upd);
     st_observedGeneration := generation (metadata c) |}.

Definition updateStatus (upd : PartialStatus) : M unit :=
  c ← get_client;
  try_catch
    (_ ← request (PatchStatus (namespace (metadata c)) (name (metadata c))
                    (newStatus c upd));
     mret tt)
    (fun err => mret tt).

(** The list that [addCondition] leaves in [conditions]: the entry of
    the first condition of the same type is overwritten, and without
    one the condition is pushed. *)
Definition upsertCondition (conditions : list Condition) (condition : Condition)
    : list Condition :=
  let idx :=
    findIndex (fun c => String.eqb (cond_type c) (cond_type condition)) conditions in
  if 0 <=? idx then <[Z.to_nat idx := condition]> conditions
  else conditions ++ [condition].

(** The array is [client.status.conditions] itself when it exists, and
    the write is then visible to every later reader of [client]; it is
    a fresh array otherwise, and [client] stays as it was. *)
Definition with_conditions (conditions : list Condition) (c : PocketIDClient)
    : PocketIDClient :=
  match status c with
  | Some st =>
      match st_conditions st with
      | Some _ =>
          {| metadata := metadata c; spec := spec c;
             status := Some
               {| st_conditions := Some conditions;
                  st_observedGeneration := st_observedGeneration st;
                  st_phase := st_phase st;
                  st_retryAttempt := st_retryAttempt st;
                  st_nextRetryTime := st_nextRetryTime st;
                  st_clientId := st_clientId st;
                  st_secretName := st_secretName st |} |}
      | None => c
      end
  | None => c
  end.

Definition stored (conditions : list Condition) (s : State) : State :=
  {| client := with_conditions conditions (client s);
     lastGenByUid := lastGenByUid s; trace := trace s |}.

Definition store_conditions (conditions : list Condition) : M unit :=
  fun _ s => (Returned tt, stored conditions s).

Definition conditionsOnly (conditions : list Condition) : PocketIDClientStatus :=
  {| st_conditions := Some conditions; st_observedGeneration := None;
     st_phase := None; st_retryAttempt := None; st_nextRetryTime := None;
     st_clientId := None; st_secretName := None |}.

Definition addCondition (condition : Condition) : M unit :=
  c ← get_client;
  let conditions := default [] (status_field st_conditions c) in
  let conditions' := upsertCondition conditions condition in
  _ ← store_conditions conditions';
  _ ← request (PatchStatus (namespace (metadata c)) (name (metadata c))
                 (conditionsOnly conditions'));
  mret tt.

(** [o[key] = value] on an object with string values, as the list of
    its entries: the value of an own key is overwritten in its place, a
    new key is added at the end. *)
Fixpoint assign (o : list (string * string)) (key value : string)
    : list (string * string) :=
  match o with
  | [] => [(key, value)]
  | (k, v) :: o' =>
      if String.eqb k key then (k, value) :: o'
      else (k, v) :: assign o' key value
  end.

(** On an object created by [{}] the key [__proto__] is the accessor of
    [Object.prototype]: its setter ignores a string, and no own key is
    created. *)
Definition setProperty (o : list (string * string)) (key value : string)
    : list (string * string) :=
  if String.eqb key "__proto__" then o else assign o key value.

Definition upsertSecret (ns secretName clientId clientSecret : string)
    (ownerName : string) (ownerUid : option string)
    (tmpl : option SecretTemplate) (clientName : option string) : M unit :=
  let context :=
    {| ClientID := clientId; ClientSecret := clientSecret;
       ClientName := or_else clientName ""; Namespace := ns;
       ResourceName := ownerName |} in
  let data :=
    match tmpl ≫= tmpl_data with
    | Some entries =>
        fold_left
          (fun o kv => setProperty o (fst kv) (renderTemplate (snd kv) context))
          entries []
    | None => [("CLIENT_ID", clientId); ("CLIENT_SECRET", clientSecret)]
    end in
  let secret :=
    {| secret_name := secretName; secret_namespace := ns;
       secret_ownerReferences :=
         [{| owner_apiVersion := "jeffrescignano.io/v1alpha1";
             owner_kind := "PocketIDClient"; owner_name := ownerName;
             owner_uid := ownerUid; owner_controller := true;
             owner_blockOwnerDeletion := true |}];
       secret_type := "Opaque"; stringData := data |} in
  _ ← request (ApplySecret secret);
  mret tt.

Definition deleteSecret (ns secretName : string) : M unit :=
  try_catch
    (_ ← request (DeleteSecret ns secretName); mret tt)
    (fun err =>
       if bool_decide (err_status err = Some 404) then mret tt else throw err).

(** The answers to the delete of a secret that [deleteSecret] takes as
    a success: a value, or a rejection with status 404. *)
Definition tolerated (r : Response) : bool :=
  match r with
  | Done _ => true
  | Raise e => bool_decide (err_status e = Some 404)
  end.

Definition addFinalizer : M unit :=
  c ← get_client;
  let fins := default [] (finalizers (metadata c)) in
  if bool_decide (FINALIZER ∈ fins) then mret tt
  else
    _ ← request (ApplyClient (namespace (metadata c)) (name (metadata c))
                   (fins ++ [FINALIZER]));
    mret tt.

Definition removeFinalizer : M unit :=
  c ← get_client;
  let fins := default [] (finalizers (metadata c)) in
  if bool_decide (FINALIZER ∈ fins) then
    _ ← request (ApplyClient (namespace (metadata c)) (name (metadata c))
                   (filter (fun f => f ≠ FINALIZER) fins));
    mret tt
  else mret tt.

Definition clientExists (clientId : string) : M bool :=
  try_catch
    (_ ← request (getApiOidcClients1 clientId); mret true)
    (fun _ => mret false).

(** ** Names resolved from the resource *)

(** [client.status?.clientId || client.spec?.id || name] *)
Definition deletionClientId (c : PocketIDClient) : string :=
  or_else (status_field st_clientId c)
    (or_else (spec c ≫= spec_id) (name (metadata c))).

(** [client.status?.secretName || `${name}-credentials`] *)
Definition deletionSecretName (c : PocketIDClient) : string :=
  or_else (status_field st_secretName c) (name (metadata c) ++ "-credentials").

(** [spec.id || name] *)
Definition reconcileClientId (c : PocketIDClient) : string :=
  or_else (spec c ≫= spec_id) (name (metadata c)).

(** [spec.secretTemplate?.name || `${name}-credentials`] *)
Definition reconcileSecretName (c : PocketIDClient) : string :=
  or_else ((spec c ≫= secretTemplate) ≫= tmpl_name)
    (name (metadata c) ++ "-credentials").

(** ** The deletion path *)

(** The object literal [{ phase }]. *)
Definition phaseOnly (ph : Phase) : PartialStatus :=
  {| p_phase := Some (Some ph); p_observedGeneration := None;
     p_conditions := None; p_retryAttempt := None;
     p_nextRetryTime := None; p_clientId := None; p_secretName := None |}.

Definition deletionFailed (err : Error) : M unit :=
  c ← get_client;
  let errorMessage := err_message err in
  _ ← updateStatus (phaseOnly RemovalFailed);
  condition ← createCondition "Ready" CondFalse "DeletionFailed"
                ("Deletion failed: " ++ errorMessage) (generation (metadata c));
  addCondition condition.

Definition handleDeletion : M unit :=
  c ← get_client;
  let ns := namespace (metadata c) in
  let nm := name (metadata c) in
  _ ← updateStatus (phaseOnly Removing);
  try_catch
    (_ ← configureApiClient;
     let clientId := deletionClientId c in
     exists_ ← clientExists clientId;
     _ ← (if exists_ : bool then
            _ ← request (deleteApiOidcClients clientId); mret tt
          else mret tt);
     let secretName := deletionSecretName c in
     _ ← deleteSecret ns secretName;
     removeFinalizer)
    deletionFailed.

(** ** The upsert path *)

Definition updateDto (sp : PocketIDClientSpec) (specName : string) : OidcClientDto :=
  {| dto_id := None; dto_name := specName;
     dto_callbackURLs := callbackURLs sp;
     dto_logoutCallbackURLs := logoutCallbackURLs sp;
     dto_isPublic := isPublic sp; dto_pkceEnabled := pkceEnabled sp;
     dto_isGroupRestricted := isGroupRestricted sp;
     dto_launchURL := launchURL sp;
     dto_requiresReauthentication := requiresReauthentication sp |}.

Definition createDto (clientId : string) (sp : PocketIDClientSpec)
    (specName : string) : OidcClientDto :=
  {| dto_id := Some clientId; dto_name := specName;
     dto_callbackURLs := callbackURLs sp;
     dto_logoutCallbackURLs := logoutCallbackURLs sp;
     dto_isPublic := isPublic sp; dto_pkceEnabled := pkceEnabled sp;
     dto_isGroupRestricted := isGroupRestricted sp;
     dto_launchURL := launchURL sp;
     dto_requiresReauthentication := requiresReauthentication sp |}.

(** The [try] block of [reconcile]. Past the check of [spec.name] the
    spec is present, so [reconcileClientId] and [reconcileSecretName]
    are [spec.id || name] and [spec.secretTemplate?.name || ...]. *)
Definition reconcileAttempt : M unit :=
  c ← get_client;
  let ns := namespace (metadata c) in
  let nm := name (metadata c) in
  let gen := generation (metadata c) in
  match spec c with
  | None => throw {| err_message := "spec.name is required"; err_status := None |}
  | Some sp =>
      if negb (truthy (spec_name sp)) then
        throw {| err_message := "spec.name is required"; err_status := None |}
      else
        let specName := or_else (spec_name sp) "" in
        let clientId := reconcileClientId c in
        let secretName := reconcileSecretName c in
        exists_ ← clientExists clientId;
        clientSecret ←
          (if exists_ : bool then
             _ ← request (putApiOidcClients clientId (updateDto sp specName));
             clientSecret ← request (postApiOidcClientsSecret clientId);
             condition ← createCondition "ClientUpdated" CondTrue "UpdateSucceeded"
                           ("OIDC client " ++ clientId ++ " updated successfully") gen;
             _ ← addCondition condition;
             mret clientSecret
           else
             _ ← request (postApiOidcClients (createDto clientId sp specName));
             clientSecret ← request (postApiOidcClientsSecret clientId);
             condition ← createCondition "ClientCreated" CondTrue "CreateSucceeded"
                           ("OIDC client " ++ clientId ++ " created successfully") gen;
             _ ← addCondition condition;
             mret clientSecret);
        _ ← upsertSecret ns secretName clientId clientSecret nm (uid (metadata c))
              (secretTemplate sp) (spec_name sp);
        condition ← createCondition "SecretCreated" CondTrue "SecretReady"
                      ("Secret " ++ secretName ++ " created/updated") gen;
        _ ← addCondition condition;
        _ ← updateStatus
              {| p_phase := Some (Some Ready); p_clientId := Some (Some clientId);
                 p_secretName := Some (Some secretName);
                 p_retryAttempt := Some (Some 0); p_nextRetryTime := Some None;
                 p_observedGeneration := None; p_conditions := None |};
        condition ← createCondition "Ready" CondTrue "ReconcileSucceeded"
                      "Reconciliation completed successfully" gen;
        addCondition condition
  end.

(** The [catch] block of [reconcile]. [Date.now() + backoffDelay] is
    a binary64 sum, and the [Date] built from it keeps its whole
    milliseconds. *)
Definition reconcileFailed (err : Error) : M unit :=
  c ← get_client;
  let errorMessage := err_message err in
  let retryAttempt := default 0 (status_field st_retryAttempt c) + 1 in
  r ← Math_random;
  let backoffDelay := calculateBackoffDelay retryAttempt r in
  now ← Date_now;
  let nextRetryTime :=
    Binary64.truncate (Binary64.binary64 (inject_Z now + backoffDelay)) in
  _ ← updateStatus
        {| p_phase := Some (Some Failed); p_retryAttempt := Some (Some retryAttempt);
           p_nextRetryTime := Some (Some nextRetryTime);
           p_observedGeneration := None; p_conditions := None;
           p_clientId := None; p_secretName := None |};
  condition ← createCondition "Ready" CondFalse "ReconcileFailed"
                ("Reconciliation failed: " ++ errorMessage ++ ". Retry "
                 ++ pretty retryAttempt ++ "/" ++ pretty (maxRetries RETRY_CONFIG)
                 ++ " scheduled.")
                (generation (metadata c));
  addCondition condition.

Definition reconcile : M unit :=
  c ← get_client;
  let gen := generation (metadata c) in
  _ ← configureApiClient;
  if bool_decide (is_Some (deletionTimestamp (metadata c))) then handleDeletion
  else if bool_decide (status_field st_observedGeneration c = gen)
          && bool_decide (status_field st_phase c = Some Ready) then mret tt
  else
    skip ← shouldSkipDueToBackoff;
    if skip && bool_decide (status_field st_observedGeneration c = gen) then mret tt
    else
      let currentRetry := default 0 (status_field st_retryAttempt c) in
      if maxRetries RETRY_CONFIG <=? currentRetry then
        condition ← createCondition "Ready" CondFalse "MaxRetriesExceeded"
                      ("Gave up after " ++ pretty currentRetry
                       ++ " failed attempts. Manual intervention required.") gen;
        addCondition condition
      else
        _ ← addFinalizer;
        let newPhase := if 0 <? currentRetry then Retrying else Pending in
        _ ← updateStatus
              {| p_phase := Some (Some newPhase); p_nextRetryTime := Some None;
                 p_observedGeneration := None; p_conditions := None;
                 p_retryAttempt := None; p_clientId := None; p_secretName := None |};
        condition ← createCondition "Reconciling" CondTrue
                      (if 0 <? currentRetry then "RetryStarted" else "ReconcileStarted")
                      (if 0 <? currentRetry then
                         "Retry attempt " ++ pretty (currentRetry + 1) ++ "/"
                         ++ pretty (maxRetries RETRY_CONFIG)
                       else "Starting reconciliation")
                      gen;
        _ ← addCondition condition;
        try_catch reconcileAttempt reconcileFailed.

(** ** The watch handler for created or updated resources

    The delivered resource is the [client] of the state. *)
Definition dedupGate : M bool :=
  c ← get_client;
  match uid (metadata c), generation (metadata c) with
  | Some u, Some g =>
      if String.eqb u "" then mret false
      else
        ledger ← get_lastGenByUid;
        if bool_decide (ledger !! u = Some g) then mret false
        else _ ← set_lastGenByUid (<[u := g]> ledger); mret true
  | _, _ => mret false
  end.

Definition onCreatedOrUpdated : M unit :=
  c ← get_client;
  proceed ←
    (if bool_decide (is_Some (deletionTimestamp (metadata c))) then mret true
     else dedupGate);
  if proceed : bool then reconcile else mret tt.

(** The state in which the handler is entered. *)
Definition delivered (c : PocketIDClient) (ledger : gmap string Z) : State :=
  {| client := c; lastGenByUid := ledger; trace := [] |}.

Definition calls (s : State) : list Call := (trace s).*1.

(** The calls that go to the external service. *)
Definition isExternalServiceCall (call : Call) : bool :=
  match call with
  | getApiOidcClients1 _ | putApiOidcClients _ _ | postApiOidcClients _
  | postApiOidcClientsSecret _ | deleteApiOidcClients _ => true
  | _ => false
  end.

(** ** Vocabulary of the statements *)

(** Is the call a status write that sets the phase [ph]? *)
Definition writesPhase (ph : Phase) (call : Call) : bool :=
  match call with
  | PatchStatus _ _ body => bool_decide (st_phase body = Some ph)
  | _ => false
  end.

(** Is the call the apply of a secret? *)
Definition isApplySecret (call : Call) : bool :=
  match call with
  | ApplySecret _ => true
  | _ => false
  end.

(** Is the call a status write whose conditions hold one of the given
    type, status and reason? *)
Definition writesCondition (type : string) (st : ConditionStatus) (reason : string)
    (call : Call) : bool :=
  match call with
  | PatchStatus _ _ body =>
      existsb
        (fun c =>
           String.eqb (cond_type c) type
           && bool_decide (cond_status c = st)
           && String.eqb (cond_reason c) reason)
        (default [] (st_conditions body))
  | _ => false
  end.

(** The outcome of a call whose value is dropped. *)
Definition void (r : Response) : Outcome unit :=
  match r with
  | Done _ => Returned tt
  | Raise e => Thrown e
  end.

(** The calls of [addFinalizer] and of [removeFinalizer] for a resource. *)
Definition ensure (c : PocketIDClient) : list Call :=
  let fins := default [] (finalizers (metadata c)) in
  if bool_decide (FINALIZER ∈ fins) then []
  else [ApplyClient (namespace (metadata c)) (name (metadata c)) (fins ++ [FINALIZER])].

Definition release (c : PocketIDClient) : list Call :=
  let fins := default [] (finalizers (metadata c)) in
  if bool_decide (FINALIZER ∈ fins) then
    [ApplyClient (namespace (metadata c)) (name (metadata c))
       (filter (fun f => f ≠ FINALIZER) fins)]
  else [].

(** What [shouldSkipDueToBackoff] answers when [Date.now()] is [now]. *)
Definition backoffPending (c : PocketIDClient) (now : Z) : bool :=
  match status_field st_nextRetryTime c with
  | None => false
  | Some nextRetry =>
      if bool_decide (status_field st_phase c = Some Ready) then false
      else now <? nextRetry
  end.

(** The condition that the max-retry gate of [reconcile] creates. *)
Definition maxRetriesCondition (c : PocketIDClient) (now : Z) : Condition :=
  {| cond_type := "Ready"; cond_status := CondFalse;
     cond_reason := "MaxRetriesExceeded";
     cond_message :=
       "Gave up after " ++ pretty (default 0 (status_field st_retryAttempt c))
       ++ " failed attempts. Manual intervention required.";
     cond_lastTransitionTime := now;
     cond_observedGeneration := generation (metadata c) |}.

(** The condition that the deletion path creates for the error [err]. *)
Definition deletionFailedCondition (c : PocketIDClient) (err : Error) (now : Z)
    : Condition :=
  {| cond_type := "Ready"; cond_status := CondFalse;
     cond_reason := "DeletionFailed";
     cond_message := "Deletion failed: " ++ err_message err;
     cond_lastTransitionTime := now;
     cond_observedGeneration := generation (metadata c) |}.

(** The resource with another [spec.secretTemplate]. *)
Definition with_secretTemplate (tmpl : option SecretTemplate) (c : PocketIDClient)
    : PocketIDClient :=
  {| metadata := metadata c; status := status c;
     spec :=
       sp ← spec c;
       Some {| spec_id := spec_id sp; spec_name := spec_name sp;
               callbackURLs := callbackURLs sp;
               logoutCallbackURLs := logoutCallbackURLs sp;
               isPublic := isPublic sp; pkceEnabled := pkceEnabled sp;
               isGroupRestricted := isGroupRestricted sp;
               launchURL := launchURL sp;
               requiresReauthentication := requiresReauthentication sp;
               secretTemplate := tmpl |} |}.

(** [related c0 c]: [c] is the object [c0] after some writes to its
    conditions array. *)
Definition related (c0 c : PocketIDClient) : Prop :=
  c = c0 \/ exists conditions, c = with_conditions conditions c0.

(** The calls that an invocation for the resource [c0] can issue. *)
Inductive issued (c0 : PocketIDClient) : Call -> Prop :=
| issued_status c upd :
    related c0 c ->
    issued c0 (PatchStatus (namespace (metadata c0)) (name (metadata c0))
                 (newStatus c upd))
| issued_conditions conditions :
    issued c0 (PatchStatus (namespace (metadata c0)) (name (metadata c0))
                 (conditionsOnly conditions))
| issued_finalizers fins :
    issued c0 (ApplyClient (namespace (metadata c0)) (name (metadata c0)) fins)
| issued_secret secret :
    secret_name secret = reconcileSecretName c0 ->
    secret_namespace secret = namespace (metadata c0) ->
    issued c0 (ApplySecret secret)
| issued_deleteSecret :
    issued c0 (DeleteSecret (namespace (metadata c0)) (deletionSecretName c0))
| issued_external call :
    isExternalServiceCall call = true -> issued c0 call.

(** The invariant of an invocation for [c0]. *)
Definition inv (c0 : PocketIDClient) (s : State) : Prop :=
  related c0 (client s) /\ Forall (issued c0) (calls s).

(** [keeps c0 m]: the computation [m] preserves the invariant. *)
Definition keeps (c0 : PocketIDClient) {A} (m : M A) : Prop :=
  forall env s, inv c0 s -> inv c0 (m env s).2.

End Operator.

(** ** Sample resources and worlds *)

Module Samples.
Import Operator.

Definition sampleSpec (tmpl : option SecretTemplate) : PocketIDClientSpec :=
  {| spec_id := None; spec_name := Some "My App";
     callbackURLs := Some ["https://app.example/callback"];
     logoutCallbackURLs := None; isPublic := Some false;
     pkceEnabled := Some true; isGroupRestricted := None;
     launchURL := None; requiresReauthentication := None;
     secretTemplate := tmpl |}.

(** A resource that was just created. *)
Definition freshClient : PocketIDClient :=
  {| metadata :=
       {| namespace := "apps"; name := "my-app"; uid := Some "uid-1";
          generation := Some 1; deletionTimestamp := None; finalizers := None |};
     spec := Some (sampleSpec None);
     status := None |}.

Definition failedCondition : Condition :=
  {| cond_type := "Ready"; cond_status := CondFalse;
     cond_observedGeneration := Some 3; cond_lastTransitionTime := 900;
     cond_reason := "ReconcileFailed";
     cond_message := "Reconciliation failed: unreachable. Retry 10/10 scheduled." |}.

Definition startedCondition : Condition :=
  {| cond_type := "Reconciling"; cond_status := CondTrue;
     cond_observedGeneration := Some 3; cond_lastTransitionTime := 800;
     cond_reason := "ReconcileStarted"; cond_message := "Starting reconciliation" |}.

Definition readyCondition : Condition :=
  {| cond_type := "Ready"; cond_status := CondTrue;
     cond_observedGeneration := Some 3; cond_lastTransitionTime := 950;
     cond_reason := "ReconcileSucceeded";
     cond_message := "Reconciliation completed successfully" |}.

(** A resource after ten failed attempts at generation 3, seen at
    generation [gen], with its next retry due at [nextRetry]. *)
Definition exhaustedClient (gen : Z) (nextRetry : option Z) : PocketIDClient :=
  {| metadata :=
       {| namespace := "apps"; name := "my-app"; uid := Some "uid-1";
          generation := Some gen; deletionTimestamp := None;
          finalizers := Some [FINALIZER] |};
     spec := Some (sampleSpec None);
     status := Some
       {| st_observedGeneration := Some 3;
          st_conditions := Some [failedCondition];
          st_phase := Some Failed; st_retryAttempt := Some 10;
          st_nextRetryTime := nextRetry; st_clientId := None;
          st_secretName := None |} |}.

(** A resource in phase [Ready] at its generation. *)
Definition readyClient : PocketIDClient :=
  {| metadata :=
       {| namespace := "apps"; name := "my-app"; uid := Some "uid-1";
          generation := Some 2; deletionTimestamp := None;
          finalizers := Some [FINALIZER] |};
     spec := Some (sampleSpec None);
     status := Some
       {| st_observedGeneration := Some 2; st_conditions := None;
          st_phase := Some Ready; st_retryAttempt := Some 0;
          st_nextRetryTime := None; st_clientId := Some "my-app";
          st_secretName := Some "my-app-credentials" |} |}.

(** A resource under deletion whose template names the secret
    ["custom"] and whose status never recorded a secret name. *)
Definition deletingClient : PocketIDClient :=
  {| metadata :=
       {| namespace := "apps"; name := "my-app"; uid := Some "uid-1";
          generation := Some 2; deletionTimestamp := Some 7000;
          finalizers := Some [FINALIZER] |};
     spec := Some (sampleSpec (Some {| tmpl_name := Some "custom"; tmpl_data := None |}));
     status := Some
       {| st_observedGeneration := Some 2; st_conditions := None;
          st_phase := Some Failed; st_retryAttempt := Some 1;
          st_nextRetryTime := None; st_clientId := Some "my-app";
          st_secretName := None |} |}.

(** A resource without UID. *)
Definition anonymousClient : PocketIDClient :=
  {| metadata :=
       {| namespace := "apps"; name := "my-app"; uid := None;
          generation := Some 1; deletionTimestamp := None; finalizers := None |};
     spec := Some (sampleSpec None);
     status := None |}.

Definition boom : Error := {| err_message := "conflict"; err_status := Some 409 |}.

(** Every call succeeds; the clock shows 1000 ms plus one per call. *)
Definition allDone : Env :=
  {| script := fun _ => Done "s3cr3t";
     clock := fun k => 1000 + Z.of_nat k;
     random := fun _ => (1 # 2)%Q |}.

(** Every call succeeds but the one at position [k]. *)
Definition failingAt (k : nat) (e : Error) : Env :=
  {| script := fun i => if Nat.eqb i k then Raise e else Done "s3cr3t";
     clock := fun k => 1000 + Z.of_nat k;
     random := fun _ => (1 # 2)%Q |}.

End Samples.

(** ** Further vocabulary: strings, configuration *)

Module Text.
Import Template.

(** [plain v]: the replacement [v] holds no [$]. *)
Fixpoint plain (v : string) : bool :=
  match v with
  | EmptyString => true
  | String c v' => negb (Ascii.eqb c "$") && plain v'
  end.

(** [braceFree v]: [v] holds no opening brace. *)
Fixpoint braceFree (v : string) : bool :=
  match v with
  | EmptyString => true
  | String c v' => negb (Ascii.eqb c "{") && braceFree v'
  end.

(** [blank ws]: every code unit of [ws] is white space. *)
Fixpoint blank (ws : string) : bool :=
  match ws with
  | EmptyString => true
  | String c ws' => isWhiteSpace c && blank ws'
  end.

(** The value of a field of the context, by the name of its placeholder. *)
Definition fieldValue (field : string) (context : TemplateContext) : string :=
  if String.eqb field "ClientID" then ClientID context
  else if String.eqb field "ClientSecret" then ClientSecret context
  else if String.eqb field "ClientName" then ClientName context
  else if String.eqb field "Namespace" then Namespace context
  else ResourceName context.

(** [String.prototype.trim]: white space is stripped at both ends. *)
Fixpoint trimEnd (s : string) : string :=
  match s with
  | EmptyString => EmptyString
  | String c s' =>
      match trimEnd s' with
      | EmptyString => if isWhiteSpace c then EmptyString else String c EmptyString
      | r => String c r
      end
  end.

Definition trim (s : string) : string := trimEnd (spaces s).

End Text.

Module Configuration.
Import Template Text Operator.

(** What [configureApiClient] assigns to [OpenAPI.BASE] and
    [OpenAPI.HEADERS], from the two environment variables
    [POCKETID_API_URL] and [POCKETID_API_TOKEN]. *)
Record ApiConfiguration := {
  BASE : string;
  HEADERS : list (string * string)
}.

Definition apiConfiguration (POCKETID_API_URL POCKETID_API_TOKEN : option string)
    : ApiConfiguration :=
  {| BASE := or_else POCKETID_API_URL "http://pocket-id.pocket-id.svc";
     HEADERS :=
       match POCKETID_API_TOKEN with
       | Some apiKey =>
           if String.eqb apiKey "" then [] else [("X-API-KEY", trim apiKey)]
       | None => []
       end |}.

End Configuration.

(** ** Further vocabulary: the calls of an invocation *)

Module Vocabulary.
Import Backoff Template Text Operator.

(** The resource with another list of finalizers. *)
Definition with_finalizers (fins : list string) (c : PocketIDClient) : PocketIDClient :=
  {| metadata :=
       {| namespace := namespace (metadata c); name := name (metadata c);
          uid := uid (metadata c); generation := generation (metadata c);
          deletionTimestamp := deletionTimestamp (metadata c);
          finalizers := Some fins |};
     spec := spec c; status := status c |}.

(** The [secret] object that [upsertSecret] builds from its arguments. *)
Definition buildSecret (ns secretName clientId clientSecret : string)
    (ownerName : string) (ownerUid : option string)
    (tmpl : option SecretTemplate) (clientName : option string) : Secret :=
  let context :=
    {| ClientID := clientId; ClientSecret := clientSecret;
       ClientName := or_else clientName ""; Namespace := ns;
       ResourceName := ownerName |} in
  {| secret_name := secretName; secret_namespace := ns;
     secret_ownerReferences :=
       [{| owner_apiVersion := "jeffrescignano.io/v1alpha1";
           owner_kind := "PocketIDClient"; owner_name := ownerName;
           owner_uid := ownerUid; owner_controller := true;
           owner_blockOwnerDeletion := true |}];
     secret_type := "Opaque";
     stringData :=
       match tmpl ≫= tmpl_data with
       | Some entries =>
           fold_left
             (fun o kv => setProperty o (fst kv) (renderTemplate (snd kv) context))
             entries []
       | None => [("CLIENT_ID", clientId); ("CLIENT_SECRET", clientSecret)]
       end |}.

(** The secret of the upsert path of the resource [c] for a client
    secret. *)
Definition secretOf (c : PocketIDClient) (clientSecret : string) : Secret :=
  buildSecret (namespace (metadata c)) (reconcileSecretName c) (reconcileClientId c)
    clientSecret (name (metadata c)) (uid (metadata c))
    (spec c ≫= secretTemplate) (spec c ≫= spec_name).

(** The phase of the begin-attempt write. *)
Definition beginPhase (c : PocketIDClient) : Phase :=
  if 0 <? default 0 (status_field st_retryAttempt c) then Retrying else Pending.

(** The two status writes. *)
Definition isStatusWrite (call : Call) : bool :=
  match call with
  | PatchStatus _ _ _ => true
  | _ => false
  end.

(** The calls that are not status writes. *)
Definition effects (s : State) : list Call :=
  List.filter (fun call => negb (isStatusWrite call)) (calls s).

(** The phases that the status writes set, in their order. *)
Definition phases (s : State) : list Phase :=
  omap (fun call =>
          match call with
          | PatchStatus _ _ body => st_phase body
          | _ => None
          end) (calls s).

(** The value that a call came back with. *)
Definition valueOf (r : Response) : string :=
  match r with
  | Done v => v
  | Raise _ => ""
  end.

(** The two gates of [reconcile] that drop an upsert invocation: the
    generation was observed, and the phase is [Ready] or a backoff is
    pending at the instant [now]. *)
Definition gated (c : PocketIDClient) (now : Z) : bool :=
  bool_decide (status_field st_observedGeneration c = generation (metadata c))
  && (bool_decide (status_field st_phase c = Some Ready) || backoffPending c now).

(** The update of the begin-attempt status write. *)
Definition beginUpdate (c : PocketIDClient) : PartialStatus :=
  {| p_phase := Some (Some (beginPhase c)); p_nextRetryTime := Some None;
     p_observedGeneration := None; p_conditions := None;
     p_retryAttempt := None; p_clientId := None; p_secretName := None |}.

(** [grows m]: [m] only adds calls to the trace. *)
Definition grows {A} (m : M A) : Prop :=
  forall env s, exists tr, trace (m env s).2 = (trace s ++ tr)%list.

(** The condition that the catch block of [reconcile] creates. *)
Definition reconcileFailedCondition (c : PocketIDClient) (err : Error) (now : Z)
    : Condition :=
  {| cond_type := "Ready"; cond_status := CondFalse;
     cond_reason := "ReconcileFailed";
     cond_message :=
       "Reconciliation failed: " ++ err_message err ++ ". Retry "
       ++ pretty (default 0 (status_field st_retryAttempt c) + 1) ++ "/"
       ++ pretty (maxRetries RETRY_CONFIG) ++ " scheduled.";
     cond_lastTransitionTime := now;
     cond_observedGeneration := generation (metadata c) |}.

(** The update of the status write of the catch block, for the draw
    [r] and the instant [now]. *)
Definition failedUpdate (c : PocketIDClient) (r : Q) (now : Z) : PartialStatus :=
  let retryAttempt := default 0 (status_field st_retryAttempt c) + 1 in
  {| p_phase := Some (Some Failed); p_retryAttempt := Some (Some retryAttempt);
     p_nextRetryTime :=
       Some (Some (Binary64.truncate
                     (Binary64.binary64
                        (inject_Z now + calculateBackoffDelay retryAttempt r))));
     p_observedGeneration := None; p_conditions := None;
     p_clientId := None; p_secretName := None |}.


(** The condition that opens an attempt. *)
Definition startCondition (c : PocketIDClient) (now : Z) : Condition :=
  let currentRetry := default 0 (status_field st_retryAttempt c) in
  {| cond_type := "Reconciling"; cond_status := CondTrue;
     cond_reason := if 0 <? currentRetry then "RetryStarted" else "ReconcileStarted";
     cond_message :=
       if 0 <? currentRetry then
         "Retry attempt " ++ pretty (currentRetry + 1) ++ "/"
         ++ pretty (maxRetries RETRY_CONFIG)
       else "Starting reconciliation";
     cond_lastTransitionTime := now;
     cond_observedGeneration := generation (metadata c) |}.

(** The state in which the [try] block of [reconcile] is entered for the
    resource [c]: the finalizer was ensured, the phase of the attempt
    and the [Reconciling] condition were written. *)
Definition begun (env : Env) (c : PocketIDClient) (L : gmap string Z) : State :=
  let ns := namespace (metadata c) in
  let nm := name (metadata c) in
  let k := length (ensure c) in
  let s0 :=
    {| client := c; lastGenByUid := L;
       trace := (fun call => (call, script env 0%nat)) <$> ensure c |} in
  let s1 := push s0 (PatchStatus ns nm (newStatus c (beginUpdate c))) (script env k) in
  let conditions :=
    upsertCondition (default [] (status_field st_conditions c))
      (startCondition c (clock env (S k))) in
  push (stored conditions s1) (PatchStatus ns nm (conditionsOnly conditions))
    (script env (S k)).

(** The update of the status write that ends a successful attempt. *)
Definition readyUpdate (c : PocketIDClient) : PartialStatus :=
  {| p_phase := Some (Some Ready); p_clientId := Some (Some (reconcileClientId c));
     p_secretName := Some (Some (reconcileSecretName c));
     p_retryAttempt := Some (Some 0); p_nextRetryTime := Some None;
     p_observedGeneration := None; p_conditions := None |}.

(** The resource with another status. *)
Definition with_status (st : PocketIDClientStatus) (c : PocketIDClient)
    : PocketIDClient :=
  {| metadata := metadata c; spec := spec c; status := Some st |}.

(** The external-service calls of an attempt for [c] whose existence
    check was answered by [r]. *)
Definition upsertCalls (c : PocketIDClient) (sp : PocketIDClientSpec) (r : Response)
    : list Call :=
  let id := reconcileClientId c in
  let specName := or_else (spec_name sp) "" in
  [getApiOidcClients1 id;
   if isDone r then putApiOidcClients id (updateDto sp specName)
   else postApiOidcClients (createDto id sp specName);
   postApiOidcClientsSecret id].

(** [reached s s' n eff ph]: the state [s'] is the state [s] after [n]
    more calls, whose calls other than status writes are [eff] and
    whose status writes set the phases [ph]; the object is the one of
    [s] up to its conditions array. *)
Definition reached (s s' : State) (n : nat) (eff : list Call) (ph : list Phase) : Prop :=
  length (trace s') = (n + length (trace s))%nat
  /\ effects s' = (effects s ++ eff)%list
  /\ phases s' = (phases s ++ ph)%list
  /\ related (client s) (client s')
  /\ lastGenByUid s' = lastGenByUid s.


(** An apply of a secret was answered. *)
Definition secretApplied (s : State) : Prop :=
  exists secret v, (ApplySecret secret, Done v) ∈ trace s.

(** [logged ph applied s]: the status writes of [s] set the phases
    [ph], and an apply of a secret was answered when [applied] holds. *)
Definition logged (ph : list Phase) (applied : bool) (s : State) : Prop :=
  phases s = ph /\ (applied = true -> secretApplied s).

(** [triple P m Q R]: from a state that satisfies [P], the computation
    [m] returns in a state that satisfies [Q], or throws in a state
    that satisfies [R]. *)
Definition triple {A} (P : State -> Prop) (m : M A) (Q : A -> State -> Prop)
    (R : Error -> State -> Prop) : Prop :=
  forall env s,
    P s ->
    match m env s with
    | (Returned a, s') => Q a s'
    | (Thrown e, s') => R e s'
    end.

(** The phases that the status writes of one upsert invocation can
    set, for the phase [b] of the attempt. *)
Definition upsertLogs (b : Phase) : list (list Phase) :=
  [[]; [b]; [b; Failed]; [b; Ready]; [b; Ready; Failed]].

(** What one upsert invocation leaves in the log, and what a write of
    the phase [Ready] stands for. *)
Definition upsertProtocol (b : Phase) (s : State) : Prop :=
  phases s ∈ upsertLogs b /\ (Ready ∈ phases s -> secretApplied s).

(** A resource that was just created, whose secret template has data
    with a key [__proto__]. *)
Definition templatedClient : PocketIDClient :=
  {| metadata :=
       {| namespace := "apps"; name := "my-app"; uid := Some "uid-1";
          generation := Some 1; deletionTimestamp := None; finalizers := None |};
     spec :=
       Some
         (Samples.sampleSpec
            (Some {| tmpl_name := Some "custom";
                     tmpl_data :=
                       Some [("__proto__", "x"); ("id", "{{ .ClientID }}");
                             ("secret", "{{ .ClientSecret }}")] |}));
     status := None |}.

(** The invariant of an invocation for the resource [c0] entered with
    the ledger [L]: the object is [c0] up to its conditions array, the
    ledger is [L], and every call issued so far satisfies [P]. *)
Definition within (c0 : PocketIDClient) (L : gmap string Z) (P : Call -> Prop)
    (s : State) : Prop :=
  related c0 (client s) /\ lastGenByUid s = L /\ Forall P (calls s).

Definition sustains (c0 : PocketIDClient) (L : gmap string Z) (P : Call -> Prop)
    {A} (m : M A) : Prop :=
  forall env s, within c0 L P s -> within c0 L P (m env s).2.

(** What [P] has to allow for the two status writes, ... *)
Definition allowsStatus (c0 : PocketIDClient) (P : Call -> Prop) : Prop :=
  (forall c upd, related c0 c -> p_conditions upd = None ->
     P (PatchStatus (namespace (metadata c0)) (name (metadata c0)) (newStatus c upd)))
  /\ (forall c condition, related c0 c ->
        P (PatchStatus (namespace (metadata c0)) (name (metadata c0))
             (conditionsOnly
                (upsertCondition (default [] (status_field st_conditions c))
                   condition)))).

(** ... for the calls of the deletion path, ... *)
Definition allowsDeletion (c0 : PocketIDClient) (P : Call -> Prop) : Prop :=
  allowsStatus c0 P
  /\ P (getApiOidcClients1 (deletionClientId c0))
  /\ P (deleteApiOidcClients (deletionClientId c0))
  /\ P (DeleteSecret (namespace (metadata c0)) (deletionSecretName c0))
  /\ Forall P (release c0).

(** ... and for the calls of the upsert path. *)
Definition allowsUpsert (c0 : PocketIDClient) (P : Call -> Prop) : Prop :=
  allowsStatus c0 P
  /\ Forall P (ensure c0)
  /\ P (getApiOidcClients1 (reconcileClientId c0))
  /\ (forall sp, spec c0 = Some sp ->
        P (putApiOidcClients (reconcileClientId c0)
             (updateDto sp (or_else (spec_name sp) ""))))
  /\ (forall sp, spec c0 = Some sp ->
        P (postApiOidcClients
             (createDto (reconcileClientId c0) sp (or_else (spec_name sp) ""))))
  /\ P (postApiOidcClientsSecret (reconcileClientId c0))
  /\ (forall clientSecret, P (ApplySecret (secretOf c0 clientSecret))).

(** [escapes Q m]: when [m] throws, the thrown value is the rejection
    of the last call issued, and that call satisfies [Q]. *)
Definition escapes (Q : Call -> Prop) {A} (m : M A) : Prop :=
  forall env s,
    match m env s with
    | (Thrown e, s') => exists tr call, trace s' = (tr ++ [(call, Raise e)])%list /\ Q call
    | (Returned _, _) => True
    end.

(** The calls whose rejection leaves [reconcile]: a write of
    conditions, and the apply that adds the finalizer. *)
Definition unguarded (call : Call) : Prop :=
  (exists ns nm conditions, call = PatchStatus ns nm (conditionsOnly conditions))
  \/ (exists ns nm fins, call = ApplyClient ns nm (fins ++ [FINALIZER])%list).

(** The calls of the upsert path of [c0]: nothing is deleted, the
    finalizer is only ever added, and the external service is asked
    about the client of [c0] alone. *)
Definition upsertCall (c0 : PocketIDClient) (call : Call) : Prop :=
  match call with
  | PatchStatus ns nm _ => ns = namespace (metadata c0) /\ nm = name (metadata c0)
  | ApplyClient ns nm fins =>
      ns = namespace (metadata c0) /\ nm = name (metadata c0) /\ FINALIZER ∈ fins
  | ApplySecret secret => exists clientSecret, secret = secretOf c0 clientSecret
  | DeleteSecret _ _ => False
  | getApiOidcClients1 id => id = reconcileClientId c0
  | putApiOidcClients id _ => id = reconcileClientId c0
  | postApiOidcClients dto => dto_id dto = Some (reconcileClientId c0)
  | postApiOidcClientsSecret id => id = reconcileClientId c0
  | deleteApiOidcClients _ => False
  end.

(** The calls of the deletion path of [c0]: nothing is created, updated
    or applied but the list of finalizers without the operator's. *)
Definition deletionCall (c0 : PocketIDClient) (call : Call) : Prop :=
  match call with
  | PatchStatus ns nm _ => ns = namespace (metadata c0) /\ nm = name (metadata c0)
  | ApplyClient ns nm fins =>
      ns = namespace (metadata c0) /\ nm = name (metadata c0) /\ FINALIZER ∉ fins
  | ApplySecret _ => False
  | DeleteSecret ns secretName =>
      ns = namespace (metadata c0) /\ secretName = deletionSecretName c0
  | getApiOidcClients1 id => id = deletionClientId c0
  | putApiOidcClients _ _ => False
  | postApiOidcClients _ => False
  | postApiOidcClientsSecret _ => False
  | deleteApiOidcClients id => id = deletionClientId c0
  end.

(** A write of conditions carries one condition. *)
Definition singleCondition (call : Call) : Prop :=
  match call with
  | PatchStatus _ _ body =>
      match st_conditions body with
      | Some conditions => length conditions = 1%nat
      | None => True
      end
  | _ => True
  end.

End Vocabulary.
(** ** Properties of the rounding *)

Module Binary64Facts.
Import Binary64.

Lemma roundHalfEven_bounds (q : Q) :
  (Qfloor q <= roundHalfEven q <= Qfloor q + 1)%Z.
Proof.
  unfold roundHalfEven. cbv zeta.
  destruct (q - inject_Z (Qfloor q) ?= 1 # 2)%Q; [destruct (Z.even _) | |]; lia.
Qed.

Lemma roundHalfEven_le_Z (q : Q) (m : Z) :
  (q <= inject_Z m)%Q -> (roundHalfEven q <= m)%Z.
Proof.
  intros H. pose proof (roundHalfEven_bounds q) as Hb.
  pose proof (Qfloor_resp_le _ _ H) as Hf. rewrite Qfloor_Z in Hf.
  destruct (Z.eq_dec (Qfloor q) m) as [E | E]; [| lia].
  unfold roundHalfEven. cbv zeta. rewrite E.
  pose proof (Qfloor_le q) as Hle. rewrite E in Hle.
  destruct (Qcompare_spec (q - inject_Z m) (1 # 2)) as [H1 | H1 | H1];
    [exfalso; lra | lia | exfalso; lra].
Qed.

Lemma roundHalfEven_ge_Z (q : Q) (m : Z) :
  (inject_Z m <= q)%Q -> (m <= roundHalfEven q)%Z.
Proof.
  intros H. pose proof (roundHalfEven_bounds q) as Hb.
  pose proof (Qfloor_resp_le _ _ H) as Hf. rewrite Qfloor_Z in Hf. lia.
Qed.

Lemma roundHalfEven_mono (q q' : Q) :
  (q <= q')%Q -> (roundHalfEven q <= roundHalfEven q')%Z.
Proof.
  intros H. pose proof (roundHalfEven_bounds q) as Hb.
  pose proof (roundHalfEven_bounds q') as Hb'.
  pose proof (Qfloor_resp_le _ _ H) as Hf.
  destruct (Z.eq_dec (Qfloor q) (Qfloor q')) as [E | E]; [| lia].
  unfold roundHalfEven. cbv zeta. rewrite <- E.
  destruct (Qcompare_spec (q - inject_Z (Qfloor q)) (1 # 2)) as [H1 | H1 | H1];
    destruct (Qcompare_spec (q' - inject_Z (Qfloor q)) (1 # 2)) as [H2 | H2 | H2];
    try destruct (Z.even _); try lia; exfalso; lra.
Qed.

Lemma spacing_pos (X : Q) : (0 < spacing X)%Z.
Proof. unfold spacing. apply Z.pow_pos_nonneg; lia. Qed.

Lemma pow2_divide (a b : Z) : (0 <= a <= b)%Z -> (2 ^ a | 2 ^ b)%Z.
Proof.
  intros H. exists (2 ^ (b - a))%Z. rewrite <- Z.pow_add_r by lia. f_equal. lia.
Qed.

Lemma nearestUnits_le (X : Q) (M : Z) :
  (spacing X | M)%Z -> (X <= inject_Z M)%Q -> (nearestUnits X <= M)%Z.
Proof.
  intros [k ->] H. unfold nearestUnits. pose proof (spacing_pos X) as HS.
  apply Z.mul_le_mono_nonneg_r; [lia |].
  apply roundHalfEven_le_Z. apply Qle_shift_div_r.
  - change 0%Q with (inject_Z 0). rewrite <- Zlt_Qlt. exact HS.
  - by rewrite <- inject_Z_mult.
Qed.

Lemma nearestUnits_ge (X : Q) (M : Z) :
  (spacing X | M)%Z -> (inject_Z M <= X)%Q -> (M <= nearestUnits X)%Z.
Proof.
  intros [k ->] H. unfold nearestUnits. pose proof (spacing_pos X) as HS.
  apply Z.mul_le_mono_nonneg_r; [lia |].
  apply roundHalfEven_ge_Z. apply Qle_shift_div_l.
  - change 0%Q with (inject_Z 0). rewrite <- Zlt_Qlt. exact HS.
  - by rewrite <- inject_Z_mult.
Qed.

Lemma nearestUnits_mono (X Y : Q) :
  (0 <= X)%Q -> (X <= Y)%Q -> (nearestUnits X <= nearestUnits Y)%Z.
Proof.
  intros H0 H.
  assert (HfX : (0 <= Qfloor X)%Z).
  { rewrite <- (Qfloor_Z 0). by apply Qfloor_resp_le. }
  pose proof (Qfloor_resp_le _ _ H) as Hf.
  pose proof (Z.log2_le_mono _ _ Hf) as Hl.
  pose proof (Z.log2_nonneg (Qfloor X)) as HlX.
  destruct (Z.eq_dec (Z.max (Z.log2 (Qfloor X) - 52) 0)
              (Z.max (Z.log2 (Qfloor Y) - 52) 0)) as [E | E].
  - assert (ES : spacing Y = spacing X) by (unfold spacing; by rewrite E).
    unfold nearestUnits. rewrite ES. pose proof (spacing_pos X) as HS.
    apply Z.mul_le_mono_nonneg_r; [lia |]. apply roundHalfEven_mono.
    apply Qmult_le_compat_r; [exact H |]. apply Qinv_le_0_compat.
    change 0%Q with (inject_Z 0). rewrite <- Zle_Qle. lia.
  - set (l := Z.log2 (Qfloor Y)) in *.
    assert (Hl53 : (53 <= l)%Z) by lia.
    assert (HlX' : (Z.log2 (Qfloor X) < l)%Z) by lia.
    assert (HfY : (0 < Qfloor Y)%Z).
    { destruct (Z.le_gt_cases (Qfloor Y) 0) as [Hn | Hp]; [| exact Hp].
      pose proof (Z.log2_nonpos _ Hn). lia. }
    assert (HBY : (inject_Z (2 ^ l) <= Y)%Q).
    { apply Qle_trans with (inject_Z (Qfloor Y)); [| apply Qfloor_le].
      rewrite <- Zle_Qle. apply (Z.log2_spec _ HfY). }
    assert (HXB : (X <= inject_Z (2 ^ l))%Q).
    { apply Qle_trans with (inject_Z (Qfloor X + 1)); [apply Qlt_le_weak, Qlt_floor |].
      rewrite <- Zle_Qle.
      assert (Qfloor X < 2 ^ l)%Z; [| lia].
      destruct (Z.eq_dec (Qfloor X) 0) as [-> | Hne];
        [apply Z.pow_pos_nonneg; lia |].
      apply Z.log2_lt_pow2; lia. }
    apply Z.le_trans with (2 ^ l)%Z.
    + apply nearestUnits_le; [| exact HXB]. apply pow2_divide. lia.
    + apply nearestUnits_ge; [| exact HBY]. apply pow2_divide. fold l. lia.
Qed.

Lemma units_pos : (0 < inject_Z units)%Q.
Proof. reflexivity. Qed.

(** Below [2^53] the binary64 numbers are at most one apart. *)
Lemma spacing_small (x : Q) :
  (0 <= x)%Q -> (x < inject_Z (2 ^ 53))%Q ->
  (spacing (x * inject_Z units)%Q | units)%Z.
Proof.
  intros H0 H. unfold spacing, units.
  set (X := (x * inject_Z (2 ^ 1074))%Q).
  assert (HX : (X < inject_Z (2 ^ 1127))%Q).
  { unfold X. change (2 ^ 1127)%Z with (2 ^ 53 * 2 ^ 1074)%Z.
    rewrite inject_Z_mult. apply Qmult_lt_compat_r; [reflexivity | exact H]. }
  assert (Hf : (Qfloor X < 2 ^ 1127)%Z).
  { rewrite Zlt_Qlt. apply Qle_lt_trans with X; [apply Qfloor_le | exact HX]. }
  assert (Hl : (Z.log2 (Qfloor X) < 1127)%Z).
  { destruct (Z.le_gt_cases (Qfloor X) 0) as [Hn | Hp].
    - rewrite (Z.log2_nonpos _ Hn). lia.
    - by apply Z.log2_lt_pow2. }
  apply pow2_divide. lia.
Qed.

Lemma nearest_le_Z (x : Q) (m : Z) :
  (0 <= x)%Q -> (x < inject_Z (2 ^ 53))%Q -> (x <= inject_Z m)%Q ->
  (nearest x <= inject_Z m)%Q.
Proof.
  intros H0 H53 H. unfold nearest. apply Qle_shift_div_r; [apply units_pos |].
  rewrite <- inject_Z_mult, <- Zle_Qle. apply nearestUnits_le.
  - destruct (spacing_small x H0 H53) as [k Hk]. exists (m * k)%Z.
    rewrite Hk at 1. ring.
  - rewrite inject_Z_mult. apply Qmult_le_compat_r; [exact H |].
    apply Qlt_le_weak, units_pos.
Qed.

Lemma nearest_ge_Z (x : Q) (m : Z) :
  (0 <= x)%Q -> (x < inject_Z (2 ^ 53))%Q -> (inject_Z m <= x)%Q ->
  (inject_Z m <= nearest x)%Q.
Proof.
  intros H0 H53 H. unfold nearest. apply Qle_shift_div_l; [apply units_pos |].
  rewrite <- inject_Z_mult, <- Zle_Qle. apply nearestUnits_ge.
  - destruct (spacing_small x H0 H53) as [k Hk]. exists (m * k)%Z.
    rewrite Hk at 1. ring.
  - rewrite inject_Z_mult. apply Qmult_le_compat_r; [exact H |].
    apply Qlt_le_weak, units_pos.
Qed.

Lemma nearest_mono (x y : Q) :
  (0 <= x)%Q -> (x <= y)%Q -> (nearest x <= nearest y)%Q.
Proof.
  intros H0 H. unfold nearest. apply Qmult_le_compat_r.
  - rewrite <- Zle_Qle. apply nearestUnits_mono.
    + apply Qmult_le_0_compat; [exact H0 | apply Qlt_le_weak, units_pos].
    + apply Qmult_le_compat_r; [exact H | apply Qlt_le_weak, units_pos].
  - apply Qinv_le_0_compat, Qlt_le_weak, units_pos.
Qed.

Lemma Qle_bool_false (x y : Q) : Qle_bool x y = false <-> (y < x)%Q.
Proof.
  split.
  - intros H. apply Qnot_le_lt. intros Hle. apply Qle_bool_iff in Hle. congruence.
  - intros H. destruct (Qle_bool x y) eqn:E; [| reflexivity].
    apply Qle_bool_iff in E. lra.
Qed.

Ltac sign_cases x :=
  unfold binary64;
  destruct (Qle_bool 0 x) eqn:?Hs;
    [ destruct (Qle_bool (inject_Z (2 ^ 53)) x) eqn:?Hb
    | destruct (Qle_bool x (inject_Z (- 2 ^ 53))) eqn:?Hb ];
  repeat match goal with
         | H : Qle_bool _ _ = true |- _ => apply Qle_bool_iff in H
         | H : Qle_bool _ _ = false |- _ => apply Qle_bool_false in H
         end.

(** Rounding never crosses an integer. *)
Lemma binary64_le_Z (x : Q) (m : Z) :
  (x <= inject_Z m)%Q -> (binary64 x <= inject_Z m)%Q.
Proof.
  intros H. sign_cases x; try exact H.
  - by apply nearest_le_Z.
  - assert (Hx : (0 <= - x)%Q) by lra.
    assert (H53 : (- x < inject_Z (2 ^ 53))%Q).
    { change (inject_Z (- 2 ^ 53)) with (- inject_Z (2 ^ 53))%Q in Hb. lra. }
    destruct (Z.le_gt_cases 0 m) as [Hm | Hm].
    + pose proof (nearest_ge_Z (- x) 0 Hx H53 Hx) as Hn.
      rewrite Zle_Qle in Hm. change (inject_Z 0) with 0%Q in *. lra.
    + assert (Hm' : (inject_Z (- m) <= - x)%Q) by (rewrite inject_Z_opp; lra).
      pose proof (nearest_ge_Z (- x) (- m) Hx H53 Hm') as Hn.
      rewrite inject_Z_opp in Hn. lra.
Qed.

Lemma binary64_ge_Z (x : Q) (m : Z) :
  (inject_Z m <= x)%Q -> (inject_Z m <= binary64 x)%Q.
Proof.
  intros H. sign_cases x; try exact H.
  - by apply nearest_ge_Z.
  - assert (Hx : (0 <= - x)%Q) by lra.
    assert (H53 : (- x < inject_Z (2 ^ 53))%Q).
    { change (inject_Z (- 2 ^ 53)) with (- inject_Z (2 ^ 53))%Q in Hb. lra. }
    assert (Hm' : (- x <= inject_Z (- m))%Q) by (rewrite inject_Z_opp; lra).
    pose proof (nearest_le_Z (- x) (- m) Hx H53 Hm') as Hn.
    rewrite inject_Z_opp in Hn. lra.
Qed.

(** An integer is a binary64 number, or stands for itself. *)
Lemma binary64_Z (x : Q) (m : Z) : (x == inject_Z m)%Q -> (binary64 x == inject_Z m)%Q.
Proof.
  intros H. apply Qle_antisym.
  - apply binary64_le_Z. lra.
  - apply binary64_ge_Z. lra.
Qed.

Lemma binary64_big_pos (x : Q) : (inject_Z (2 ^ 53) <= x)%Q -> binary64 x = x.
Proof.
  intros H. unfold binary64.
  assert (H0 : (0 <= x)%Q).
  { apply Qle_trans with (inject_Z (2 ^ 53)); [discriminate | exact H]. }
  by rewrite (proj2 (Qle_bool_iff 0 x) H0), (proj2 (Qle_bool_iff _ x) H).
Qed.

Lemma binary64_big_neg (x : Q) : (x <= inject_Z (- 2 ^ 53))%Q -> binary64 x = x.
Proof.
  intros H. unfold binary64.
  assert (H0 : (x < 0)%Q).
  { apply Qle_lt_trans with (inject_Z (- 2 ^ 53)); [exact H | reflexivity]. }
  by rewrite (proj2 (Qle_bool_false 0 x) H0), (proj2 (Qle_bool_iff x _) H).
Qed.

Lemma binary64_small_pos (x : Q) :
  (0 <= x)%Q -> (x < inject_Z (2 ^ 53))%Q -> binary64 x = nearest x.
Proof.
  intros H0 H. unfold binary64.
  by rewrite (proj2 (Qle_bool_iff 0 x) H0), (proj2 (Qle_bool_false _ x) H).
Qed.

Lemma binary64_small_neg (x : Q) :
  (x < 0)%Q -> (inject_Z (- 2 ^ 53) < x)%Q -> binary64 x = (- nearest (- x))%Q.
Proof.
  intros H0 H. unfold binary64.
  by rewrite (proj2 (Qle_bool_false 0 x) H0), (proj2 (Qle_bool_false x _) H).
Qed.

(** Rounding is monotone. *)
Lemma binary64_mono (x y : Q) : (x <= y)%Q -> (binary64 x <= binary64 y)%Q.
Proof.
  intros H.
  destruct (Qlt_le_dec (inject_Z (- 2 ^ 53)) x) as [Hx1 | Hx1];
    [| destruct (Qlt_le_dec (inject_Z (- 2 ^ 53)) y) as [Hy1 | Hy1]].
  - (* x above the lower threshold *)
    destruct (Qlt_le_dec y (inject_Z (2 ^ 53))) as [Hy2 | Hy2];
      [| destruct (Qlt_le_dec x (inject_Z (2 ^ 53))) as [Hx2 | Hx2]].
    + (* both within the thresholds *)
      destruct (Qlt_le_dec x 0) as [Hx | Hx]; destruct (Qlt_le_dec y 0) as [Hy | Hy].
      * rewrite (binary64_small_neg x), (binary64_small_neg y) by lra.
        apply Qopp_le_compat. apply nearest_mono; lra.
      * apply Qle_trans with (inject_Z 0).
        -- apply binary64_le_Z. change (inject_Z 0) with 0%Q. lra.
        -- apply binary64_ge_Z. exact Hy.
      * exfalso. lra.
      * rewrite (binary64_small_pos x), (binary64_small_pos y) by lra.
        by apply nearest_mono.
    + apply Qle_trans with (inject_Z (2 ^ 53)).
      * apply binary64_le_Z. lra.
      * by apply binary64_ge_Z.
    + by rewrite (binary64_big_pos x), (binary64_big_pos y).
  - apply Qle_trans with (inject_Z (- 2 ^ 53)).
    + by apply binary64_le_Z.
    + apply binary64_ge_Z. lra.
  - by rewrite (binary64_big_neg x), (binary64_big_neg y).
Qed.

Lemma truncate_le_Z (x : Q) (m : Z) : (x <= inject_Z m)%Q -> (truncate x <= m)%Z.
Proof.
  intros H. unfold truncate. destruct (Qle_bool 0 x).
  - rewrite <- (Qfloor_Z m). by apply Qfloor_resp_le.
  - rewrite <- (Qceiling_Z m). by apply Qceiling_resp_le.
Qed.

Lemma truncate_ge_Z (x : Q) (m : Z) : (inject_Z m <= x)%Q -> (m <= truncate x)%Z.
Proof.
  intros H. unfold truncate. destruct (Qle_bool 0 x).
  - rewrite <- (Qfloor_Z m). by apply Qfloor_resp_le.
  - rewrite <- (Qceiling_Z m). by apply Qceiling_resp_le.
Qed.

End Binary64Facts.

(** ** Properties of the backoff policy *)

Module BackoffFacts.
Import Binary64 Backoff Binary64Facts.

Lemma envelope_small (n : Z) :
  1 <= n <= 6 -> (5000 <= envelope n /\ envelope n <= 160000)%Q.
Proof.
  intros Hn. unfold envelope. simpl baseDelayMs.
  assert (H1 : (2 ^ 0 <= 2 ^ (n - 1))%Q)
    by (apply Qpower_le_compat_l; [lia | discriminate]).
  assert (H2 : (2 ^ (n - 1) <= 2 ^ 5)%Q)
    by (apply Qpower_le_compat_l; [lia | discriminate]).
  change (2 ^ 0)%Q with 1%Q in H1.
  assert (E5 : (2 ^ 5 == 32)%Q) by reflexivity.
  rewrite E5 in H2.
  set (p := (2 ^ (n - 1))%Q) in *.
  change (inject_Z 5000) with (5000 # 1)%Q.
  split; lra.
Qed.

Lemma envelope_large (n : Z) : 7 <= n -> (320000 <= envelope n)%Q.
Proof.
  intros Hn. unfold envelope. simpl baseDelayMs.
  assert (H1 : (2 ^ 6 <= 2 ^ (n - 1))%Q)
    by (apply Qpower_le_compat_l; [lia | discriminate]).
  assert (E6 : (2 ^ 6 == 64)%Q) by reflexivity.
  rewrite E6 in H1.
  set (p := (2 ^ (n - 1))%Q) in *.
  change (inject_Z 5000) with (5000 # 1)%Q.
  lra.
Qed.

(** From the first attempt on the envelope is an integer, and the
    product that computes it is exact. *)
Lemma envelope_Z (n : Z) :
  1 <= n -> (envelope n == inject_Z (5000 * 2 ^ (n - 1)))%Q.
Proof.
  intros Hn. unfold envelope. simpl baseDelayMs.
  rewrite inject_Z_mult, Zpower_Qpower by lia. reflexivity.
Qed.

Lemma exponentialDelay_exact (n : Z) :
  1 <= n ->
  (binary64 (inject_Z (baseDelayMs RETRY_CONFIG) * binary64 (2 ^ (n - 1)))
   == envelope n)%Q.
Proof.
  intros Hn. rewrite (envelope_Z n Hn). apply binary64_Z.
  assert (Hp : (binary64 (2 ^ (n - 1)) == inject_Z (2 ^ (n - 1)))%Q).
  { apply binary64_Z. rewrite Zpower_Qpower by lia. reflexivity. }
  rewrite Hp, inject_Z_mult. reflexivity.
Qed.

Lemma jitter_range (random : Q) :
  (0 <= random)%Q -> (random <= 1)%Q ->
  (0 <= binary64 (random * 1000) <= 1000)%Q.
Proof.
  intros H0 H1. split.
  - apply (binary64_ge_Z _ 0). change (inject_Z 0) with 0%Q. lra.
  - apply (binary64_le_Z _ 1000). change (inject_Z 1000) with 1000%Q. lra.
Qed.

(** The sum of the envelope and the jitter, from the first attempt on:
    it lies between the envelope and the envelope plus one second, the
    bounds included. *)
Lemma delay_sum_range (n : Z) (random : Q) :
  1 <= n -> (0 <= random)%Q -> (random <= 1)%Q ->
  let sum :=
    binary64
      (binary64 (inject_Z (baseDelayMs RETRY_CONFIG) * binary64 (2 ^ (n - 1)))
       + binary64 (random * 1000))%Q in
  (envelope n <= sum <= envelope n + 1000)%Q.
Proof.
  intros Hn H0 H1 sum. subst sum.
  pose proof (exponentialDelay_exact n Hn) as HE.
  destruct (jitter_range random H0 H1) as [HJ0 HJ1].
  pose proof (envelope_Z n Hn) as HZ.
  set (E := binary64 (inject_Z (baseDelayMs RETRY_CONFIG) * binary64 (2 ^ (n - 1)))%Q)
    in *.
  set (J := binary64 (random * 1000)%Q) in *.
  split.
  - rewrite HZ. apply binary64_ge_Z. rewrite <- HZ. lra.
  - assert (HZ' : (envelope n + 1000 == inject_Z (5000 * 2 ^ (n - 1) + 1000))%Q).
    { rewrite inject_Z_plus, <- HZ. reflexivity. }
    rewrite HZ'. apply binary64_le_Z. rewrite <- HZ'. lra.
Qed.

(** C3, as the specification states it, fails at the seventh attempt:
    the envelope [5000 * 2^6 = 320000 ms] lies above the ceiling, so
    the delay is the ceiling and below the claimed lower bound. *)
Lemma backoff_lower_bound_fails_at_7 :
  ~ (forall (n : Z) (random : Q),
        1 <= n -> (0 <= random < 1)%Q ->
        (envelope n <= calculateBackoffDelay n random
         /\ calculateBackoffDelay n random < envelope n + 1000
         /\ calculateBackoffDelay n random <= 300000)%Q).
Proof.
  intros H. destruct (H 7 0%Q) as [Hlow _]; [lia | split; lra |].
  vm_compute in Hlow. apply Hlow. reflexivity.
Qed.

(** The strict upper bound of the specification fails as well, by
    rounding: at the first attempt the draw [1 - 2^-52], a binary64
    number below one, gives a jitter that the sum rounds up, and the
    delay is the envelope plus one second. *)
Lemma backoff_strict_bound_fails_at_1 :
  (0 <= 1 - (1 # 2 ^ 52) < 1)%Q
  /\ (calculateBackoffDelay 1 (1 - (1 # 2 ^ 52)) == envelope 1 + 1000)%Q.
Proof. split; [split |]; vm_compute; reflexivity || discriminate. Qed.

(** C3, amended: for every attempt [n >= 1] and every draw in [0, 1)
    the delay is at most the 300 s ceiling and at most
    [base * 2^(n-1) + 1s]; the lower bound [base * 2^(n-1)] holds for
    the attempts 1 to 6, and from the seventh attempt on the delay is
    the ceiling itself. *)
Theorem backoff_delay_bounds (n : Z) (random : Q) :
  1 <= n -> (0 <= random < 1)%Q ->
  (calculateBackoffDelay n random <= 300000)%Q
  /\ (calculateBackoffDelay n random <= envelope n + 1000)%Q
  /\ (n <= 6 -> (envelope n <= calculateBackoffDelay n random)%Q)
  /\ (7 <= n -> (calculateBackoffDelay n random == 300000)%Q).
Proof.
  intros Hn [Hr0 Hr1].
  destruct (delay_sum_range n random Hn Hr0 (Qlt_le_weak _ _ Hr1)) as [Hlo Hhi].
  unfold calculateBackoffDelay. cbv zeta in *.
  change (inject_Z (maxDelayMs RETRY_CONFIG)) with 300000%Q.
  split; [apply Q.le_min_r |].
  split.
  { eapply Qle_trans; [apply Q.le_min_l | exact Hhi]. }
  split.
  - intros H6. destruct (envelope_small n) as [_ Hsmall]; [lia |].
    apply Q.min_glb; [exact Hlo | lra].
  - intros H7. pose proof (envelope_large n H7) as Hbig.
    apply Q.min_r. lra.
Qed.

Lemma backoff_delay_bounds_witness :
  (calculateBackoffDelay 3 (1 # 2) <= 300000)%Q
  /\ (calculateBackoffDelay 3 (1 # 2) <= envelope 3 + 1000)%Q
  /\ (3 <= 6 -> (envelope 3 <= calculateBackoffDelay 3 (1 # 2))%Q)
  /\ (7 <= 3 -> (calculateBackoffDelay 3 (1 # 2) == 300000)%Q).
Proof.
  apply (backoff_delay_bounds 3 (1 # 2)); [lia | split; lra].
Defined.

End BackoffFacts.

(** ** Properties of the template renderer *)

Module TemplateFacts.
Import Template.

#[local] Arguments placeholder : simpl never.

Lemma replace_from_without_match (field replacement : string) (s before : string) :
  occurs field s = false -> replace_from field replacement 0 before s = s.
Proof.
  revert before. induction s as [| c s IH]; intros before Hocc; [reflexivity |].
  simpl in Hocc |- *.
  destruct (placeholder field (String c s)); [discriminate |].
  f_equal. apply IH. exact Hocc.
Qed.

Lemma replace_without_match (field replacement s : string) :
  occurs field s = false -> replace field replacement s = s.
Proof. apply replace_from_without_match. Qed.

(** A template in which none of the five patterns matches is returned
    as it is, whatever the context: unrecognized placeholders pass
    through, and rendering such a text again changes nothing. *)
Lemma renderTemplate_without_placeholder (template : string) (context : TemplateContext) :
  Forall (fun field => occurs field template = false) fields ->
  renderTemplate template context = template.
Proof.
  intros H. unfold fields in H.
  repeat (apply Forall_cons_iff in H; destruct H as [? H]).
  unfold renderTemplate.
  rewrite (replace_without_match "ClientID") by assumption.
  rewrite (replace_without_match "ClientSecret") by assumption.
  rewrite (replace_without_match "ClientName") by assumption.
  rewrite (replace_without_match "Namespace") by assumption.
  apply replace_without_match. assumption.
Qed.

Example renderTemplate_unrecognized (context : TemplateContext) :
  renderTemplate "{{ .Foo }}" context = "{{ .Foo }}".
Proof.
  apply renderTemplate_without_placeholder.
  repeat constructor.
Qed.

Example renderTemplate_ClientID :
  renderTemplate "{{ .ClientID }}"
    {| ClientID := "abc"; ClientSecret := "s"; ClientName := "n";
       Namespace := "ns"; ResourceName := "r" |} = "abc".
Proof. reflexivity. Qed.

(** C4 at two inputs the operator can receive. A display name that is
    itself placeholder text is interpreted by the later replacement, and
    a [$$] in a value is a replacement pattern: in both the output is
    not the context value. *)
Theorem renderTemplate_interprets_values :
  renderTemplate "{{ .ClientName }}"
    {| ClientID := "app"; ClientSecret := "s3cr3t";
       ClientName := "{{ .Namespace }}"; Namespace := "prod";
       ResourceName := "app" |} = "prod"
  /\ renderTemplate "{{ .ClientName }}"
       {| ClientID := "app"; ClientSecret := "s3cr3t";
          ClientName := "Cash $$ App"; Namespace := "prod";
          ResourceName := "app" |} = "Cash $ App".
Proof. split; reflexivity. Qed.

End TemplateFacts.

(** ** Properties of the condition ledger *)

Module LedgerFacts.
Import Operator Samples.

Lemma findIndex_spec {A} (p : A -> bool) (l : list A) :
  (findIndex p l = -1 /\ Forall (fun x => p x = false) l)
  \/ (exists (i : nat) (x : A),
        findIndex p l = Z.of_nat i /\ l !! i = Some x /\ p x = true).
Proof.
  induction l as [| y l IH]; [left; split; [reflexivity | constructor] |].
  cbn [findIndex]. destruct (p y) eqn:Hy.
  - right. exists 0%nat, y. repeat split. exact Hy.
  - destruct IH as [[Hnone Hall] | (i & x & Hi & Hx & Hp)].
    + left. rewrite Hnone. split; [reflexivity | by constructor].
    + right. exists (S i), x. rewrite Hi.
      destruct (Z.ltb_spec (Z.of_nat i) 0); [lia |].
      repeat split; [lia | exact Hx | exact Hp].
Qed.

Lemma sameType_spec (c d : Condition) :
  String.eqb (cond_type c) (cond_type d) = true <-> cond_type c = cond_type d.
Proof. apply String.eqb_eq. Qed.

(** The two cases of [upsertCondition]. *)
Lemma upsertCondition_cases (conditions : list Condition) (condition : Condition) :
((cond_type condition ∉ (cond_type <$> conditions))
   /\ upsertCondition conditions condition = (conditions ++ [condition])%list)
  \/ (exists (i : nat) (old : Condition),
        conditions !! i = Some old /\ cond_type old = cond_type condition
        /\ upsertCondition conditions condition = <[i := condition]> conditions).
Proof.
  unfold upsertCondition.
  destruct (findIndex_spec
              (fun c => String.eqb (cond_type c) (cond_type condition)) conditions)
    as [[Hnone Hall] | (i & old & Hi & Hold & Hp)].
  - left. rewrite Hnone. split; [| reflexivity].
    intros Hin. apply list_elem_of_fmap in Hin as (d & Hd & Hin).
    rewrite Forall_forall in Hall. specialize (Hall d Hin). cbn in Hall.
    symmetry in Hd. apply sameType_spec in Hd. congruence.
  - right. exists i, old. rewrite Hi.
    destruct (Z.leb_spec 0 (Z.of_nat i)); [| lia].
    rewrite Nat2Z.id. apply sameType_spec in Hp. done.
Qed.

(** C6. On a list with at most one condition per type, the upsert
    keeps the types distinct. A condition whose type is in the list
    overwrites the entry of that type: the length and every other
    position are unchanged. A condition of a new type is appended. *)
Theorem upsertCondition_ledger (conditions : list Condition) (condition : Condition) :
  NoDup (cond_type <$> conditions) ->
  NoDup (cond_type <$> upsertCondition conditions condition)
  /\ (cond_type condition ∈ (cond_type <$> conditions) ->
      exists (i : nat) (old : Condition),
        conditions !! i = Some old /\ cond_type old = cond_type condition
        /\ upsertCondition conditions condition !! i = Some condition
        /\ length (upsertCondition conditions condition) = length conditions
        /\ forall j, j ≠ i ->
             upsertCondition conditions condition !! j = conditions !! j)
  /\ (cond_type condition ∉ (cond_type <$> conditions) ->
      upsertCondition conditions condition = (conditions ++ [condition])%list).
Proof.
  intros Hnodup.
  destruct (upsertCondition_cases conditions condition)
    as [[Hnew Happ] | (i & old & Hi & Hold & Hset)].
  - rewrite Happ. split; [| split].
    + rewrite fmap_app. apply NoDup_app. split; [exact Hnodup |].
      split; [| apply NoDup_singleton].
      intros ty Hty Hin. apply list_elem_of_singleton in Hin. by subst.
    + intros Hin. contradiction.
    + reflexivity.
  - rewrite Hset. split; [| split].
    + rewrite list_fmap_insert, <- Hold.
      rewrite list_insert_id; [exact Hnodup |].
      by rewrite list_lookup_fmap, Hi.
    + intros _. exists i, old. split; [exact Hi |]. split; [exact Hold |].
      split; [| split].
      * apply list_lookup_insert_eq. by apply lookup_lt_Some in Hi.
      * apply length_insert.
      * intros j Hj. by apply list_lookup_insert_ne.
    + intros Hnew. exfalso. apply Hnew.
      apply list_elem_of_fmap. exists old. split; [done |].
      by apply list_elem_of_lookup_2 in Hi.
Qed.

Lemma upsertCondition_ledger_witness :
  NoDup (cond_type <$> [startedCondition; failedCondition])
  /\ NoDup (cond_type <$> upsertCondition [startedCondition; failedCondition] readyCondition).
Proof.
  assert (H : NoDup (cond_type <$> [startedCondition; failedCondition]))
    by (apply (bool_decide_unpack _); vm_compute; exact I).
  split; [exact H |].
  apply (upsertCondition_ledger [startedCondition; failedCondition] readyCondition H).
Defined.

(** The example of the specification: [Ready=True] over [Ready=False]. *)
Example upsert_ready_over_failed :
  upsertCondition [startedCondition; failedCondition] readyCondition
  = [startedCondition; readyCondition].
Proof. reflexivity. Qed.

Example upsert_new_type :
  upsertCondition [failedCondition] startedCondition
  = [failedCondition; startedCondition].
Proof. reflexivity. Qed.

(** What [addCondition] sends is the upserted list, and the array of
    the resource holds it afterwards when the resource has one. *)
Lemma addCondition_sends_upsert (condition : Condition) (env : Env) (s : State) :
  let conditions' :=
    upsertCondition (default [] (status_field st_conditions (client s))) condition in
  calls (addCondition condition env s).2
  = (calls s
     ++ [PatchStatus (namespace (metadata (client s))) (name (metadata (client s)))
           (conditionsOnly conditions')])%list
  /\ client (addCondition condition env s).2
     = with_conditions conditions' (client s).
Proof.
  unfold addCondition, mbind, M_bind, bind, get_client, store_conditions,
    request, mret, M_ret, ret, calls.
  cbn. destruct (next env _); cbn; rewrite fmap_app; done.
Qed.

End LedgerFacts.

(** ** Properties of the reconciler *)

Module ReconcilerFacts.
Import Backoff Template Operator Samples.

(** Unfolding of the monad, and evaluation of the answer at a known
    position of the script. *)
Ltac unfold_monad :=
  unfold mbind, M_bind, mret, M_ret, bind, ret, throw, try_catch,
    get_client, get_lastGenByUid, set_lastGenByUid, Date_now, Math_random,
    configureApiClient, request, store_conditions.

Ltac unfold_bind :=
  unfold configureApiClient;
  unfold mbind, M_bind, mret, M_ret, bind, ret, throw, try_catch,
    get_client, get_lastGenByUid, set_lastGenByUid, Date_now, Math_random;
  cbv beta iota zeta.

Ltac settle :=
  cbn [trace client lastGenByUid push stored delivered length app
       isDone outcome_of void tolerated fst snd];
  cbv beta iota zeta.

Ltac at_index H :=
  unfold next; settle; rewrite H; settle.

(** *** How each helper runs *)

Lemma updateStatus_run (upd : PartialStatus) (env : Env) (s : State) :
  updateStatus upd env s
  = (Returned tt,
     push s (PatchStatus (namespace (metadata (client s))) (name (metadata (client s)))
               (newStatus (client s) upd))
       (next env s)).
Proof.
  unfold updateStatus. unfold_monad. cbn.
  destruct (next env s); reflexivity.
Qed.

Lemma createCondition_run type st reason message gen (env : Env) (s : State) :
  createCondition type st reason message gen env s
  = (Returned {| cond_type := type; cond_status := st; cond_reason := reason;
                 cond_message := message;
                 cond_lastTransitionTime := clock env (length (trace s));
                 cond_observedGeneration := gen |}, s).
Proof. reflexivity. Qed.

Lemma addCondition_run (condition : Condition) (env : Env) (s : State) :
  addCondition condition env s
  = let conditions' :=
      upsertCondition (default [] (status_field st_conditions (client s))) condition in
    (void (next env s),
     push (stored conditions' s)
       (PatchStatus (namespace (metadata (client s))) (name (metadata (client s)))
          (conditionsOnly conditions'))
       (next env s)).
Proof.
  unfold addCondition. unfold_monad. cbn.
  change (next env (stored _ s)) with (next env s).
  destruct (next env s); reflexivity.
Qed.

Lemma clientExists_run (clientId : string) (env : Env) (s : State) :
  clientExists clientId env s
  = (Returned (isDone (next env s)),
     push s (getApiOidcClients1 clientId) (next env s)).
Proof.
  unfold clientExists. unfold_monad. cbn.
  destruct (next env s); reflexivity.
Qed.

Lemma deleteSecret_run (ns secretName : string) (env : Env) (s : State) :
  deleteSecret ns secretName env s
  = ((if tolerated (next env s) then Returned tt else void (next env s)),
     push s (DeleteSecret ns secretName) (next env s)).
Proof.
  unfold deleteSecret. unfold_monad. cbn.
  destruct (next env s) as [v | e]; cbn; [reflexivity |].
  destruct (bool_decide (err_status e = Some 404)); reflexivity.
Qed.

Lemma removeFinalizer_run (env : Env) (s : State) :
  removeFinalizer env s
  = match release (client s) with
    | call :: _ => (void (next env s), push s call (next env s))
    | [] => (Returned tt, s)
    end.
Proof.
  unfold removeFinalizer, release. unfold_monad. cbn.
  destruct (bool_decide _); [| reflexivity].
  destruct (next env s); reflexivity.
Qed.

Lemma addFinalizer_run (env : Env) (s : State) :
  addFinalizer env s
  = match ensure (client s) with
    | call :: _ => (void (next env s), push s call (next env s))
    | [] => (Returned tt, s)
    end.
Proof.
  unfold addFinalizer, ensure. unfold_monad. cbn.
  destruct (bool_decide _); [reflexivity |].
  destruct (next env s); reflexivity.
Qed.


Lemma shouldSkipDueToBackoff_run (env : Env) (s : State) :
  shouldSkipDueToBackoff env s
  = (Returned (backoffPending (client s) (clock env (length (trace s)))), s).
Proof.
  unfold shouldSkipDueToBackoff, backoffPending. unfold_bind.
  destruct (status_field st_nextRetryTime (client s)) as [t |]; [| reflexivity].
  destruct (bool_decide _); [reflexivity |].
  cbv beta iota zeta. destruct (_ <? t); reflexivity.
Qed.

(** *** The gates of [reconcile] *)

Lemma not_deleted (c : PocketIDClient) :
  deletionTimestamp (metadata c) = None ->
  bool_decide (is_Some (deletionTimestamp (metadata c))) = false.
Proof.
  intros H. apply bool_decide_eq_false. rewrite H. intros [x Hx]. discriminate.
Qed.

(** C7. A resource without deletion marker whose phase is [Ready] and
    whose [status.observedGeneration] is [metadata.generation] is left
    alone by [reconcile]: the invocation returns in the state it was
    entered in, so no call is issued (none to the external service, no
    status write) and nothing is mutated. *)
Theorem reconcile_steady_state (env : Env) (s : State) :
  deletionTimestamp (metadata (client s)) = None ->
  status_field st_phase (client s) = Some Ready ->
  status_field st_observedGeneration (client s) = generation (metadata (client s)) ->
  reconcile env s = (Returned tt, s).
Proof.
  intros Hd Hp Hg. unfold reconcile. unfold_bind.
  rewrite (not_deleted _ Hd), Hp, Hg.
  rewrite !bool_decide_eq_true_2 by reflexivity. reflexivity.
Qed.

(** The dedup gate of the handler. *)
Lemma dedupGate_run (env : Env) (s : State) :
  dedupGate env s
  = match uid (metadata (client s)), generation (metadata (client s)) with
    | Some u, Some g =>
        if String.eqb u "" then (Returned false, s)
        else if bool_decide (lastGenByUid s !! u = Some g) then (Returned false, s)
        else (Returned true,
              {| client := client s; lastGenByUid := <[u := g]> (lastGenByUid s);
                 trace := trace s |})
    | _, _ => (Returned false, s)
    end.
Proof.
  unfold dedupGate. unfold_bind.
  destruct (uid (metadata (client s))) as [u |]; [| reflexivity].
  destruct (generation (metadata (client s))) as [g |]; [| reflexivity].
  destruct (String.eqb u ""); [reflexivity |].
  cbv beta iota zeta. destruct (bool_decide _); reflexivity.
Qed.

Lemma onCreatedOrUpdated_upsert (env : Env) (s : State) :
  deletionTimestamp (metadata (client s)) = None ->
  onCreatedOrUpdated env s
  = match dedupGate env s with
    | (Returned true, s') => reconcile env s'
    | (Returned false, s') => (Returned tt, s')
    | (Thrown e, s') => (Thrown e, s')
    end.
Proof.
  intros Hd. unfold onCreatedOrUpdated. unfold_bind.
  rewrite (not_deleted _ Hd).
  destruct (dedupGate env s) as [[[] |] s']; reflexivity.
Qed.

(** C10. An upsert event whose resource has no UID (absent or empty)
    or no generation leaves the handler in the state it was entered in:
    the ledger is not written and no call is issued. A generation of 0
    is a generation: with a UID whose last recorded generation is not 0
    the ledger records 0 and [reconcile] runs. *)
Theorem handler_drops_unidentified (env : Env) (c : PocketIDClient)
    (ledger : gmap string Z) :
  deletionTimestamp (metadata c) = None ->
  (truthy (uid (metadata c)) = false \/ generation (metadata c) = None ->
   onCreatedOrUpdated env (delivered c ledger) = (Returned tt, delivered c ledger))
  /\ (forall u, uid (metadata c) = Some u -> u ≠ "" ->
      generation (metadata c) = Some 0 -> ledger !! u ≠ Some 0 ->
      onCreatedOrUpdated env (delivered c ledger)
      = reconcile env (delivered c (<[u := 0]> ledger))).
Proof.
  intros Hd. split.
  - intros Hmissing.
    rewrite onCreatedOrUpdated_upsert by exact Hd. rewrite dedupGate_run.
    settle. unfold truthy in Hmissing.
    destruct (uid (metadata c)) as [u |]; [| reflexivity].
    destruct (generation (metadata c)) as [g |].
    + destruct Hmissing as [Hu | Hg]; [| discriminate].
      apply negb_false_iff in Hu. rewrite Hu. reflexivity.
    + reflexivity.
  - intros u Hu Hne Hg Hlast.
    rewrite onCreatedOrUpdated_upsert by exact Hd. rewrite dedupGate_run.
    settle. rewrite Hu, Hg.
    destruct (String.eqb_spec u ""); [contradiction |].
    rewrite bool_decide_eq_false_2 by exact Hlast. reflexivity.
Qed.

(** What [reconcile] does once [retryAttempt] has reached the maximum:
    the two earlier gates apply as for any resource, and past them the
    only step is the [MaxRetriesExceeded] condition, whatever the
    generation. *)
Lemma reconcile_max_retries (env : Env) (s : State) :
  let c := client s in
  let now := clock env (length (trace s)) in
  deletionTimestamp (metadata c) = None ->
  maxRetries RETRY_CONFIG <= default 0 (status_field st_retryAttempt c) ->
  reconcile env s
  = if bool_decide (status_field st_observedGeneration c = generation (metadata c))
       && (bool_decide (status_field st_phase c = Some Ready) || backoffPending c now)
    then (Returned tt, s)
    else addCondition (maxRetriesCondition c now) env s.
Proof.
  intros c now Hd Hmax. unfold reconcile. unfold_bind.
  fold c. rewrite (not_deleted _ Hd).
  apply Z.leb_le in Hmax.
  destruct (bool_decide (status_field st_observedGeneration c = _));
    destruct (bool_decide (status_field st_phase c = Some Ready));
    cbn [andb orb]; try reflexivity;
    rewrite shouldSkipDueToBackoff_run; fold c now; cbv beta iota zeta;
    destruct (backoffPending c now); cbn [andb]; try reflexivity;
    rewrite Hmax; rewrite createCondition_run; reflexivity.
Qed.


(** *** The deletion path *)

Lemma onCreatedOrUpdated_deleted (env : Env) (s : State) :
  is_Some (deletionTimestamp (metadata (client s))) ->
  onCreatedOrUpdated env s = handleDeletion env s.
Proof.
  intros Hd. unfold onCreatedOrUpdated, reconcile. unfold_bind.
  rewrite !bool_decide_eq_true_2 by exact Hd. reflexivity.
Qed.

Lemma deletionFailed_run (err : Error) (env : Env) (s : State) :
  deletionFailed err env s
  = let c := client s in
    let s1 :=
      push s (PatchStatus (namespace (metadata c)) (name (metadata c))
                (newStatus c (phaseOnly RemovalFailed)))
        (next env s) in
    addCondition (deletionFailedCondition c err (clock env (length (trace s1))))
      env s1.
Proof.
  unfold deletionFailed. unfold_bind. rewrite updateStatus_run.
  cbv beta iota zeta. rewrite createCondition_run. reflexivity.
Qed.


(** *** The shape of the calls of an invocation *)

Section Shape.
Variable c0 : PocketIDClient.

Lemma with_conditions_frame (conditions : list Condition) (c : PocketIDClient) :
  metadata (with_conditions conditions c) = metadata c
  /\ spec (with_conditions conditions c) = spec c
  /\ status_field st_clientId (with_conditions conditions c) = status_field st_clientId c
  /\ status_field st_secretName (with_conditions conditions c) = status_field st_secretName c.
Proof.
  unfold with_conditions, status_field.
  destruct (status c) as [st |] eqn:E; [| by rewrite E].
  destruct (st_conditions st); [| by rewrite E].
  repeat split.
Qed.

Lemma with_conditions_twice (conditions conditions' : list Condition) (c : PocketIDClient) :
  with_conditions conditions' (with_conditions conditions c)
  = with_conditions conditions' c.
Proof.
  unfold with_conditions.
  destruct (status c) as [st |] eqn:E; [| by rewrite E].
  destruct (st_conditions st) eqn:E'; cbn; [done |]. by rewrite E, E'.
Qed.

Lemma related_frame (c : PocketIDClient) :
  related c0 c ->
  metadata c = metadata c0 /\ spec c = spec c0
  /\ deletionClientId c = deletionClientId c0
  /\ deletionSecretName c = deletionSecretName c0
  /\ reconcileClientId c = reconcileClientId c0
  /\ reconcileSecretName c = reconcileSecretName c0.
Proof.
  intros [-> | [conditions ->]]; [done |].
  destruct (with_conditions_frame conditions c0) as (Hm & Hs & Hid & Hsn).
  unfold deletionClientId, deletionSecretName, reconcileClientId, reconcileSecretName.
  by rewrite Hm, Hs, Hid, Hsn.
Qed.

Lemma related_with_conditions (conditions : list Condition) (c : PocketIDClient) :
  related c0 c -> related c0 (with_conditions conditions c).
Proof.
  intros [-> | [conditions' ->]]; right.
  - by exists conditions.
  - exists conditions. apply with_conditions_twice.
Qed.

Lemma inv_push (s : State) (call : Call) (r : Response) :
  inv c0 s -> issued c0 call -> inv c0 (push s call r).
Proof.
  intros [Hrel Hcalls] Hcall. split; [exact Hrel |].
  unfold calls, push. cbn. rewrite fmap_app. apply Forall_app. split; [exact Hcalls |].
  by constructor.
Qed.

Lemma keeps_ret {A} (a : A) : keeps c0 (mret a).
Proof. by intros env s H. Qed.

Lemma keeps_throw {A} (e : Error) : keeps c0 (@throw A e).
Proof. by intros env s H. Qed.

Lemma keeps_bind {A B} (m : M A) (k : A -> M B) :
  keeps c0 m -> (forall a, keeps c0 (k a)) -> keeps c0 (m ≫= k).
Proof.
  intros Hm Hk env s H. unfold mbind, M_bind, bind.
  specialize (Hm env s H). destruct (m env s) as [[a | e] s1]; [| exact Hm].
  by apply Hk.
Qed.

Lemma keeps_try_catch {A} (body : M A) (handler : Error -> M A) :
  keeps c0 body -> (forall e, keeps c0 (handler e)) -> keeps c0 (try_catch body handler).
Proof.
  intros Hm Hk env s H. unfold try_catch.
  specialize (Hm env s H). destruct (body env s) as [[a | e] s1]; [exact Hm |].
  by apply Hk.
Qed.

Lemma keeps_get_client {B} (k : PocketIDClient -> M B) :
  (forall c, related c0 c -> keeps c0 (k c)) -> keeps c0 (get_client ≫= k).
Proof.
  intros Hk env s H. unfold mbind, M_bind, bind, get_client.
  apply Hk; [apply H | exact H].
Qed.

Lemma keeps_request (call : Call) : issued c0 call -> keeps c0 (request call).
Proof. intros Hcall env s H. by apply inv_push. Qed.

Lemma keeps_Date_now : keeps c0 Date_now.
Proof. by intros env s H. Qed.

Lemma keeps_Math_random : keeps c0 Math_random.
Proof. by intros env s H. Qed.

Lemma keeps_store_conditions (conditions : list Condition) :
  keeps c0 (store_conditions conditions).
Proof.
  intros env s [Hrel Hcalls]. split; [| exact Hcalls].
  by apply related_with_conditions.
Qed.

Lemma keeps_ledger {B} (k : gmap string Z -> M B) :
  (forall ledger, keeps c0 (k ledger)) -> keeps c0 (get_lastGenByUid ≫= k).
Proof.
  intros Hk env s H. unfold mbind, M_bind, bind, get_lastGenByUid. by apply Hk.
Qed.

Lemma keeps_set_lastGenByUid (ledger : gmap string Z) :
  keeps c0 (set_lastGenByUid ledger).
Proof. by intros env s H. Qed.

Create HintDb keeps discriminated.

Ltac keeps_step :=
  first
    [ solve [auto with keeps]
    | apply keeps_get_client; intros ? ?
    | apply keeps_ledger; intros ?
    | apply keeps_bind; [| intros ?]
    | apply keeps_try_catch; [| intros ?]
    | apply keeps_ret
    | apply keeps_throw
    | apply keeps_Date_now
    | apply keeps_Math_random
    | apply keeps_store_conditions
    | apply keeps_set_lastGenByUid
    | apply keeps_request
    | match goal with
      | |- keeps _ (if ?b then _ else _) => destruct b
      | |- keeps _ (match ?o with Some _ => _ | None => _ end) => destruct o
      end ].

Ltac on_c0 :=
  match goal with
  | H : related _ ?c |- _ =>
      let Hm := fresh in
      destruct (related_frame c H) as (Hm & _); rewrite ?Hm; clear Hm
  end.

Lemma keeps_configureApiClient : keeps c0 configureApiClient.
Proof. apply keeps_ret. Qed.

Lemma keeps_updateStatus (upd : PartialStatus) : keeps c0 (updateStatus upd).
Proof. unfold updateStatus. repeat keeps_step. on_c0. by apply issued_status. Qed.

Lemma keeps_createCondition type st reason message gen :
  keeps c0 (createCondition type st reason message gen).
Proof. unfold createCondition. repeat keeps_step. Qed.

Lemma keeps_addCondition (condition : Condition) : keeps c0 (addCondition condition).
Proof. unfold addCondition. repeat keeps_step. on_c0. apply issued_conditions. Qed.

Lemma keeps_clientExists (clientId : string) : keeps c0 (clientExists clientId).
Proof. unfold clientExists. repeat keeps_step. by apply issued_external. Qed.

Lemma keeps_addFinalizer : keeps c0 addFinalizer.
Proof. unfold addFinalizer. repeat keeps_step. on_c0. apply issued_finalizers. Qed.

Lemma keeps_removeFinalizer : keeps c0 removeFinalizer.
Proof. unfold removeFinalizer. repeat keeps_step. on_c0. apply issued_finalizers. Qed.

Lemma keeps_shouldSkipDueToBackoff : keeps c0 shouldSkipDueToBackoff.
Proof. unfold shouldSkipDueToBackoff. repeat keeps_step. Qed.

#[local] Hint Resolve keeps_configureApiClient keeps_updateStatus
  keeps_createCondition keeps_addCondition keeps_clientExists
  keeps_addFinalizer keeps_removeFinalizer keeps_shouldSkipDueToBackoff : keeps.

Lemma keeps_deletionFailed (err : Error) : keeps c0 (deletionFailed err).
Proof. unfold deletionFailed. repeat keeps_step. Qed.

#[local] Hint Resolve keeps_deletionFailed : keeps.

Lemma keeps_handleDeletion : keeps c0 handleDeletion.
Proof.
  unfold handleDeletion. keeps_step.
  destruct (related_frame c) as (-> & _ & _ & -> & _); [assumption |].
  repeat keeps_step; first [by apply issued_external | apply issued_deleteSecret].
Qed.

Lemma keeps_reconcileFailed (err : Error) : keeps c0 (reconcileFailed err).
Proof. unfold reconcileFailed. repeat keeps_step. Qed.

Lemma keeps_reconcileAttempt : keeps c0 reconcileAttempt.
Proof.
  unfold reconcileAttempt. keeps_step.
  destruct (related_frame c) as (-> & _ & _ & _ & _ & ->); [assumption |].
  repeat keeps_step; first [by apply issued_external | by apply issued_secret].
Qed.

#[local] Hint Resolve keeps_handleDeletion keeps_reconcileFailed
  keeps_reconcileAttempt : keeps.

Lemma keeps_reconcile : keeps c0 reconcile.
Proof. unfold reconcile. repeat keeps_step. Qed.

#[local] Hint Resolve keeps_reconcile : keeps.

Lemma keeps_onCreatedOrUpdated : keeps c0 onCreatedOrUpdated.
Proof. unfold onCreatedOrUpdated, dedupGate. repeat keeps_step. Qed.

End Shape.

(** Every call of an invocation for [c] has one of the shapes of
    [issued c]. *)
Lemma invocation_calls (env : Env) (c : PocketIDClient) (ledger : gmap string Z) :
  Forall (issued c) (calls (onCreatedOrUpdated env (delivered c ledger)).2).
Proof.
  apply (keeps_onCreatedOrUpdated c env (delivered c ledger)).
  split; [by left | constructor].
Qed.

(** *** Status writes and the observed generation *)

(** C8. The body that [updateStatus] sends carries the resource's
    [metadata.generation] as [observedGeneration], whatever fields the
    caller passes; and in an invocation of the handler every status
    write that sets a phase (the begin-attempt write of [Pending] or
    [Retrying], the [Failed] write of the failure path, the [Ready]
    write, the two writes of the deletion path) carries it. *)
Theorem status_writes_carry_generation :
  (forall (upd : PartialStatus) (env : Env) (s : State),
      exists body,
        calls (updateStatus upd env s).2
        = (calls s ++ [PatchStatus (namespace (metadata (client s)))
                         (name (metadata (client s))) body])%list
        /\ st_phase body
           = spread (status_field st_phase (client s)) (p_phase upd)
        /\ st_observedGeneration body = generation (metadata (client s)))
  /\ (forall (env : Env) (c : PocketIDClient) (ledger : gmap string Z)
        (ns nm : string) (body : PocketIDClientStatus),
      PatchStatus ns nm body ∈ calls (onCreatedOrUpdated env (delivered c ledger)).2 ->
      is_Some (st_phase body) ->
      st_observedGeneration body = generation (metadata c)).
Proof.
  split.
  - intros upd env s. exists (newStatus (client s) upd).
    rewrite updateStatus_run. unfold calls, push. cbn [snd trace].
    rewrite fmap_app. split; [reflexivity |]. split; [| reflexivity].
    unfold newStatus, status_field. cbn [st_phase].
    destruct (status (client s)); reflexivity.
  - intros env c ledger ns nm body Hin Hphase.
    pose proof (invocation_calls env c ledger) as Hall.
    rewrite Forall_forall in Hall. specialize (Hall _ Hin).
    inversion Hall as [c' upd Hrel | conditions | | | | call Hext]; subst.
    + destruct (related_frame c c' Hrel) as (Hm & _).
      cbn [newStatus st_observedGeneration]. by rewrite Hm.
    + destruct Hphase as [ph Hph]. discriminate.
    + discriminate.
Qed.

(** *** The name of the secret on the two paths *)

Lemma with_secretTemplate_frame (tmpl : option SecretTemplate) (c : PocketIDClient) :
  metadata (with_secretTemplate tmpl c) = metadata c
  /\ status (with_secretTemplate tmpl c) = status c
  /\ deletionClientId (with_secretTemplate tmpl c) = deletionClientId c
  /\ deletionSecretName (with_secretTemplate tmpl c) = deletionSecretName c.
Proof.
  unfold deletionClientId, deletionSecretName, status_field, with_secretTemplate.
  cbn [metadata status spec]. destruct (spec c); repeat split.
Qed.

(** *** Failures of status writes *)

(** The phase write swallows a rejection. *)
Lemma updateStatus_never_throws (upd : PartialStatus) (env : Env) (s : State) :
  (updateStatus upd env s).1 = Returned tt.
Proof. by rewrite updateStatus_run. Qed.

(** The condition write does not: a rejection of its patch is thrown
    to the caller. *)
Lemma addCondition_throws (condition : Condition) (env : Env) (s : State) (e : Error) :
  next env s = Raise e -> (addCondition condition env s).1 = Thrown e.
Proof. intros H. rewrite addCondition_run. cbn. by rewrite H. Qed.

(** C2 at two worlds in which one condition write is rejected and every
    other call succeeds, for a resource that was just created. When the
    [Reconciling] write (the third call) is rejected, the rejection
    leaves [reconcile] and the handler, and the attempt stops before any
    call to the external service. When the [ClientUpdated] write (the
    seventh call) is rejected, the attempt is recorded as failed (phase
    [Failed], [retryAttempt] 1, a [ReconcileFailed] condition) although
    every call to the external service succeeded, and the secret is
    never applied. *)
Theorem condition_write_failure_escapes :
  let first := onCreatedOrUpdated (failingAt 2 boom) (delivered freshClient ∅) in
  let second := onCreatedOrUpdated (failingAt 6 boom) (delivered freshClient ∅) in
  first.1 = Thrown boom
  /\ length (calls first.2) = 3%nat
  /\ forallb (fun call => negb (isExternalServiceCall call)) (calls first.2) = true
  /\ second.1 = Returned tt
  /\ filter (fun call => isExternalServiceCall call = true) (calls second.2)
     = [getApiOidcClients1 "my-app";
        putApiOidcClients "my-app" (updateDto (sampleSpec None) "My App");
        postApiOidcClientsSecret "my-app"]
  /\ existsb (writesPhase Failed) (calls second.2) = true
  /\ existsb (writesCondition "Ready" CondFalse "ReconcileFailed") (calls second.2) = true
  /\ existsb isApplySecret (calls second.2) = false.
Proof. vm_compute. repeat split. Qed.

(** *** The max-retry gate at sample resources *)


(** Past the dedup gate, a resource whose [retryAttempt] has reached
    the maximum gets the [MaxRetriesExceeded] condition at a new
    generation as at the old one. *)
Lemma new_generation_stops_at_gate (env : Env) (s : State) :
  let c := client s in
  deletionTimestamp (metadata c) = None ->
  maxRetries RETRY_CONFIG <= default 0 (status_field st_retryAttempt c) ->
  status_field st_observedGeneration c ≠ generation (metadata c) ->
  reconcile env s
  = addCondition (maxRetriesCondition c (clock env (length (trace s)))) env s.
Proof.
  intros c Hd Hmax Hgen. rewrite reconcile_max_retries by assumption.
  fold c. by rewrite bool_decide_eq_false_2.
Qed.

(** *** The theorems at sample resources *)


Lemma reconcile_steady_state_witness :
  reconcile allDone (delivered readyClient ∅) = (Returned tt, delivered readyClient ∅).
Proof.
  apply (reconcile_steady_state allDone (delivered readyClient ∅));
    reflexivity.
Defined.

Lemma handler_drops_unidentified_witness :
  onCreatedOrUpdated allDone (delivered anonymousClient ∅)
  = (Returned tt, delivered anonymousClient ∅).
Proof.
  apply (handler_drops_unidentified allDone anonymousClient ∅); [reflexivity |].
  left. reflexivity.
Defined.


(** The deletion path at a world that rejects the delete of the
    external object: the finalizer is not touched. *)
Example deletion_rejected :
  let r := onCreatedOrUpdated (failingAt 2 boom) (delivered deletingClient ∅) in
  calls r.2
  = [PatchStatus "apps" "my-app" (newStatus deletingClient (phaseOnly Removing));
     getApiOidcClients1 "my-app"; deleteApiOidcClients "my-app";
     PatchStatus "apps" "my-app" (newStatus deletingClient (phaseOnly RemovalFailed));
     PatchStatus "apps" "my-app"
       (conditionsOnly [deletionFailedCondition deletingClient boom 1004])].
Proof. reflexivity. Qed.

(** A status write of a failed attempt, and the secret that the
    deletion path names for a resource with a custom secret name. *)
Example failed_attempt_observes_generation :
  PatchStatus "apps" "my-app"
    {| st_observedGeneration := Some 1; st_conditions := None;
       st_phase := Some Failed; st_retryAttempt := Some 1;
       st_nextRetryTime := Some 6507; st_clientId := None;
       st_secretName := None |}
  ∈ calls (onCreatedOrUpdated (failingAt 6 boom) (delivered freshClient ∅)).2.
Proof. vm_compute. repeat constructor. Qed.

Example deletion_names_default_secret :
  reconcileSecretName deletingClient = "custom"
  /\ DeleteSecret "apps" "my-app-credentials"
     ∈ calls (onCreatedOrUpdated allDone (delivered deletingClient ∅)).2.
Proof. split; [reflexivity |]. vm_compute. repeat constructor. Qed.

End ReconcilerFacts.

(** ** Further properties of the backoff policy *)

Module BackoffMore.
Import Binary64 Backoff Binary64Facts.

Lemma envelope_monotone (n m : Z) : n <= m -> (envelope n <= envelope m)%Q.
Proof.
  intros H. unfold envelope. apply Qmult_le_l; [reflexivity |].
  apply Qpower_le_compat_l; [lia | discriminate].
Qed.

Lemma envelope_at_least_base (n : Z) : 1 <= n -> (5000 <= envelope n)%Q.
Proof.
  intros H. change (5000%Q) with (envelope 1). by apply envelope_monotone.
Qed.

(** X1. For the same draw, a later attempt never waits less than an earlier
    one, whatever the two attempt numbers are. *)
Theorem backoff_delay_monotone (n m : Z) (random : Q) :
  n <= m ->
  (calculateBackoffDelay n random <= calculateBackoffDelay m random)%Q.
Proof.
  intros H. unfold calculateBackoffDelay. apply Q.min_le_compat_r.
  apply binary64_mono, Qplus_le_l, binary64_mono.
  apply Qmult_le_l; [reflexivity |].
  apply binary64_mono, Qpower_le_compat_l; [lia | discriminate].
Qed.

Lemma backoff_delay_monotone_witness :
  (calculateBackoffDelay 2 (1 # 3) <= calculateBackoffDelay 9 (1 # 3))%Q.
Proof. apply (backoff_delay_monotone 2 9 (1 # 3)). lia. Defined.

(** From the first attempt on, and for a draw that is not negative, the
    delay is at least the base delay of 5 s and at most the ceiling. *)
Lemma backoff_delay_range (n : Z) (random : Q) :
  1 <= n -> (0 <= random)%Q ->
  (5000 <= calculateBackoffDelay n random <= 300000)%Q.
Proof.
  intros Hn Hr. pose proof (envelope_at_least_base n Hn) as He.
  pose proof (BackoffFacts.exponentialDelay_exact n Hn) as HE.
  unfold calculateBackoffDelay. cbv zeta. split; [| apply Q.le_min_r].
  apply Q.min_glb; [| discriminate].
  apply (binary64_ge_Z _ 5000).
  assert (HJ : (0 <= binary64 (random * 1000))%Q).
  { apply (binary64_ge_Z _ 0). change (inject_Z 0) with 0%Q. lra. }
  change (inject_Z 5000) with 5000%Q. lra.
Qed.

End BackoffMore.

(** ** Further properties of the template renderer *)

Module TemplateMore.
Import Template Text.

Lemma append_cons (a : ascii) (p s : string) :
  String a p ++ s = String a (p ++ s).
Proof. reflexivity. Qed.

Lemma append_nil (s : string) : "" ++ s = s.
Proof. reflexivity. Qed.

Lemma literal_app (p s : string) : literal p (p ++ s) = Some s.
Proof.
  induction p as [| a p IH]; [reflexivity |].
  rewrite append_cons. cbn [literal]. by rewrite Ascii.eqb_refl.
Qed.

Lemma literal_inv (p s r : string) : literal p s = Some r -> s = p ++ r.
Proof.
  revert s. induction p as [| a p IH]; intros s H.
  - cbn in H. by injection H as ->.
  - destruct s as [| b s]; [discriminate |]. cbn [literal] in H.
    destruct (Ascii.eqb_spec a b) as [-> |]; [| discriminate].
    rewrite append_cons. f_equal. by apply IH.
Qed.

Lemma spaces_blank (ws s : string) :
  blank ws = true -> spaces (ws ++ s) = spaces s.
Proof.
  induction ws as [| c ws IH]; [reflexivity |]. rewrite append_cons. cbn.
  intros [Hc Hws]%andb_true_iff. rewrite Hc. by apply IH.
Qed.

Lemma spaces_inv (s : string) :
  exists ws, blank ws = true /\ s = ws ++ spaces s.
Proof.
  induction s as [| c s (ws & Hws & Hs)]; [by exists "" |].
  cbn. destruct (isWhiteSpace c) eqn:Hc.
  - exists (String c ws). cbn. rewrite Hc, Hws. split; [done |].
    rewrite append_cons. by rewrite <- Hs.
  - by exists "".
Qed.

Lemma spaces_stop (c : ascii) (s : string) :
  isWhiteSpace c = false -> spaces (String c s) = String c s.
Proof. intros H. cbn. by rewrite H. Qed.

Lemma append_assoc (a b c : string) : (a ++ b) ++ c = a ++ (b ++ c).
Proof.
  induction a as [| x a IH]; [reflexivity |]. rewrite !append_cons. by rewrite IH.
Qed.

Lemma placeholder_inv (field s rest : string) :
  placeholder field s = Some rest ->
  exists ws1 ws2,
    blank ws1 = true /\ blank ws2 = true
    /\ s = "{{" ++ ws1 ++ String "." field ++ ws2 ++ "}}" ++ rest.
Proof.
  unfold placeholder. intros H.
  apply bind_Some in H as (s1 & H1 & H).
  apply bind_Some in H as (s2 & H2 & H).
  apply literal_inv in H1, H2, H.
  destruct (spaces_inv s1) as (ws1 & Hws1 & E1).
  destruct (spaces_inv s2) as (ws2 & Hws2 & E2).
  exists ws1, ws2. split; [done |]. split; [done |].
  rewrite H1. f_equal. etrans; [exact E1 |]. f_equal.
  etrans; [exact H2 |]. f_equal. etrans; [exact E2 |]. by f_equal.
Qed.

Lemma placeholder_intro (field ws1 ws2 rest : string) :
  blank ws1 = true -> blank ws2 = true ->
  placeholder field ("{{" ++ ws1 ++ String "." field ++ ws2 ++ "}}" ++ rest)
  = Some rest.
Proof.
  unfold placeholder. intros Hws1 Hws2.
  change ("{{" ++ ws1 ++ String "." field ++ ws2 ++ "}}" ++ rest)
    with ("{{" ++ (ws1 ++ String "." (field ++ ws2 ++ "}}" ++ rest))).
  rewrite literal_app. cbn [mbind option_bind].
  rewrite spaces_blank by done. rewrite spaces_stop by reflexivity.
  change (String "." (field ++ ws2 ++ "}}" ++ rest))
    with (String "." field ++ (ws2 ++ "}}" ++ rest)).
  rewrite literal_app. cbn [mbind option_bind].
  rewrite spaces_blank by done.
  change ("}}" ++ rest) with (String "}" (String "}" rest)).
  rewrite spaces_stop by reflexivity. apply (literal_app "}}").
Qed.

(** X2. The pattern of a field matches exactly the texts
    [{{ ws1 .field ws2 }}] with two runs of white space, and what
    [placeholder] returns is the text after the match. *)
Theorem placeholder_matches (field s rest : string) :
  placeholder field s = Some rest
  <-> exists ws1 ws2,
        blank ws1 = true /\ blank ws2 = true
        /\ s = "{{" ++ ws1 ++ String "." field ++ ws2 ++ "}}" ++ rest.
Proof.
  split; [apply placeholder_inv |].
  intros (ws1 & ws2 & Hws1 & Hws2 & ->). by apply placeholder_intro.
Qed.

Lemma length_append (a b : string) :
  String.length (a ++ b) = (String.length a + String.length b)%nat.
Proof.
  induction a as [| x a IH]; [reflexivity |]. rewrite append_cons. cbn. by rewrite IH.
Qed.

Lemma append_empty_r (a : string) : a ++ "" = a.
Proof. induction a as [| x a IH]; [reflexivity |]. rewrite append_cons. by rewrite IH. Qed.

(** A replacement without [$] is inserted as it is. *)
Lemma getSubstitution_plain (matched before after v : string) :
  plain v = true -> getSubstitution matched before after v = v.
Proof.
  induction v as [| c v IH]; [reflexivity |]. cbn [plain getSubstitution].
  intros [Hc Hv]%andb_true_iff. apply negb_true_iff in Hc. rewrite Hc.
  f_equal. by apply IH.
Qed.

Lemma replace_from_before (field v : string) (s : string) (k : nat) (b b' : string) :
  plain v = true ->
  replace_from field v k b s = replace_from field v k b' s.
Proof.
  intros Hv. revert k b b'. induction s as [| c s IH]; intros k b b'; [reflexivity |].
  cbn [replace_from]. destruct k as [| k]; [| apply IH].
  destruct (placeholder field (String c s)) as [after |].
  - rewrite !getSubstitution_plain by done. f_equal. apply IH.
  - f_equal. apply IH.
Qed.

Lemma replace_from_skip (field v : string) (m rest b b' : string) :
  plain v = true ->
  replace_from field v (String.length m) b (m ++ rest)
  = replace_from field v 0 b' rest.
Proof.
  intros Hv. revert b. induction m as [| c m IH]; intros b.
  - by apply replace_from_before.
  - rewrite append_cons. cbn [String.length replace_from]. apply IH.
Qed.

Lemma replace_at_match (field v s rest : string) :
  plain v = true -> placeholder field s = Some rest ->
  replace field v s = v ++ replace field v rest.
Proof.
  intros Hv H. pose proof H as Hm.
  apply placeholder_inv in Hm as (ws1 & ws2 & _ & _ & ->).
  set (m := ws1 ++ String "." field ++ ws2 ++ "}}").
  assert (E : "{{" ++ ws1 ++ String "." field ++ ws2 ++ "}}" ++ rest
              = String "{" ((String "{" m) ++ rest)).
  { change (String "{" (String "{" (ws1 ++ String "." field ++ ws2 ++ "}}" ++ rest))
            = String "{" (String "{" (m ++ rest))).
    do 2 f_equal. unfold m. by rewrite !append_assoc. }
  rewrite E in H |- *. unfold replace. cbn [replace_from]. rewrite H.
  rewrite getSubstitution_plain by done. f_equal.
  replace (String.length (String "{" (String "{" m ++ rest)) - String.length rest)%nat
    with (S (String.length (String "{" m))).
  - cbn [Nat.sub]. rewrite Nat.sub_0_r. by apply replace_from_skip.
  - cbn [String.length]. rewrite append_cons. cbn [String.length].
    rewrite length_append. lia.
Qed.

Lemma replace_off_match (field v : string) (c : ascii) (s : string) :
  plain v = true -> placeholder field (String c s) = None ->
  replace field v (String c s) = String c (replace field v s).
Proof.
  intros Hv H. unfold replace. cbn [replace_from]. rewrite H. f_equal.
  by apply replace_from_before.
Qed.

(** X3. With a replacement that holds no [$], the global replace is the
    substitution of the leftmost matches, one after the other: at a
    match the replacement is inserted as it is and the scan goes on
    after the match; elsewhere one code unit is copied. *)
Theorem replace_plain (field v : string) :
  plain v = true ->
  (forall s rest, placeholder field s = Some rest ->
     replace field v s = v ++ replace field v rest)
  /\ (forall c s, placeholder field (String c s) = None ->
      replace field v (String c s) = String c (replace field v s))
  /\ replace field v "" = "".
Proof.
  intros Hv. split; [| split].
  - intros s rest. by apply replace_at_match.
  - intros c s. by apply replace_off_match.
  - reflexivity.
Qed.

Lemma replace_plain_witness :
  plain "abc" = true
  /\ replace "ClientID" "abc" "{{ .ClientID }}!" = "abc" ++ replace "ClientID" "abc" "!".
Proof.
  split; [reflexivity |].
  apply (proj1 (replace_plain "ClientID" "abc" eq_refl) "{{ .ClientID }}!" "!").
  reflexivity.
Defined.

Lemma braceFree_app (a b : string) :
  braceFree (a ++ b) = braceFree a && braceFree b.
Proof.
  induction a as [| c a IH]; [reflexivity |]. rewrite append_cons. cbn [braceFree].
  by rewrite IH, andb_assoc.
Qed.

Lemma blank_braceFree (ws : string) : blank ws = true -> braceFree ws = true.
Proof.
  induction ws as [| c ws IH]; [reflexivity |]. cbn [blank braceFree].
  intros [Hc Hws]%andb_true_iff. rewrite IH by done.
  destruct (Ascii.eqb_spec c "{") as [-> |]; [discriminate | reflexivity].
Qed.

Lemma placeholder_needs_brace (field : string) (c : ascii) (s : string) :
  Ascii.eqb c "{" = false -> placeholder field (String c s) = None.
Proof.
  intros H. unfold placeholder. cbn [literal].
  rewrite (Ascii.eqb_sym "{" c), H. reflexivity.
Qed.

Lemma occurs_braceFree (field s : string) :
  braceFree s = true -> occurs field s = false.
Proof.
  induction s as [| c s IH]; [reflexivity |]. cbn [braceFree occurs].
  intros [Hc Hs]%andb_true_iff. apply negb_true_iff in Hc.
  rewrite placeholder_needs_brace by done. by apply IH.
Qed.

Lemma occurs_one_brace (field t : string) :
  braceFree t = true -> occurs field (String "{" t) = false.
Proof.
  intros Ht. cbn [occurs]. rewrite occurs_braceFree by done.
  destruct t as [| c t]; [reflexivity |].
  cbn [braceFree] in Ht. apply andb_true_iff in Ht as [Hc _].
  apply negb_true_iff in Hc. unfold placeholder. cbn [literal].
  rewrite (Ascii.eqb_sym "{" c), Hc. reflexivity.
Qed.

Lemma occurs_prefix (field pre s : string) :
  braceFree pre = true -> occurs field (pre ++ s) = occurs field s.
Proof.
  induction pre as [| c pre IH]; [reflexivity |]. rewrite append_cons.
  cbn [braceFree]. intros [Hc Hpre]%andb_true_iff. apply negb_true_iff in Hc.
  cbn [occurs]. rewrite placeholder_needs_brace by done. by apply IH.
Qed.

Lemma replace_prefix (field v pre s : string) :
  plain v = true -> braceFree pre = true ->
  replace field v (pre ++ s) = pre ++ replace field v s.
Proof.
  intros Hv.
  induction pre as [| c pre IH]; [reflexivity |]. rewrite !append_cons.
  cbn [braceFree]. intros [Hc Hpre]%andb_true_iff. apply negb_true_iff in Hc.
  rewrite replace_off_match by (first [done | by apply placeholder_needs_brace]).
  f_equal. by apply IH.
Qed.

(** The pattern of one field does not match the placeholder of
    another: no name of a field starts with the name of another. *)
Lemma placeholder_other (g field ws1 tail : string) :
  g ∈ fields -> field ∈ fields -> g ≠ field -> blank ws1 = true ->
  placeholder g ("{{" ++ ws1 ++ String "." (field ++ tail)) = None.
Proof.
  intros Hg Hf Hne Hws. unfold placeholder.
  change ("{{" ++ ws1 ++ String "." (field ++ tail))
    with ("{{" ++ (ws1 ++ String "." (field ++ tail))).
  rewrite literal_app. cbn [mbind option_bind].
  rewrite spaces_blank by done. rewrite spaces_stop by reflexivity.
  unfold fields in Hg, Hf.
  repeat (apply elem_of_cons in Hg as [-> | Hg]);
    try (by apply elem_of_nil in Hg);
    repeat (apply elem_of_cons in Hf as [-> | Hf]);
    try (by apply elem_of_nil in Hf);
    first [contradiction | reflexivity].
Qed.

Lemma occurs_other (g field pre ws1 ws2 post : string) :
  g ∈ fields -> field ∈ fields -> g ≠ field ->
  braceFree pre = true -> blank ws1 = true -> blank ws2 = true ->
  braceFree post = true ->
  occurs g (pre ++ "{{" ++ ws1 ++ String "." field ++ ws2 ++ "}}" ++ post) = false.
Proof.
  intros Hg Hf Hne Hpre Hws1 Hws2 Hpost.
  assert (Hfield : braceFree field = true).
  { unfold fields in Hf.
    repeat (apply elem_of_cons in Hf as [-> | Hf]); try reflexivity.
    by apply elem_of_nil in Hf. }
  rewrite occurs_prefix by done.
  change ("{{" ++ ws1 ++ String "." field ++ ws2 ++ "}}" ++ post)
    with (String "{" (String "{" (ws1 ++ String "." (field ++ ws2 ++ "}}" ++ post)))).
  cbn [occurs].
  change (String "{" (String "{" (ws1 ++ String "." (field ++ ws2 ++ "}}" ++ post))))
    with ("{{" ++ ws1 ++ String "." (field ++ ws2 ++ "}}" ++ post)).
  rewrite placeholder_other by done.
  apply occurs_one_brace.
  change (String "." (field ++ ws2 ++ "}}" ++ post))
    with ("." ++ field ++ ws2 ++ "}}" ++ post).
  rewrite !braceFree_app, Hfield, Hpost.
  rewrite (blank_braceFree ws1), (blank_braceFree ws2) by done. reflexivity.
Qed.

(** X4. A template with one placeholder of a field, between two texts
    without opening brace, renders to the two texts around the value of
    the field, when that value holds neither [$] nor an opening brace.
    The values of the other fields are arbitrary. *)
Theorem renderTemplate_single_placeholder
    (field pre ws1 ws2 post : string) (context : TemplateContext) :
  field ∈ fields ->
  braceFree pre = true -> blank ws1 = true -> blank ws2 = true ->
  braceFree post = true ->
  plain (fieldValue field context) = true ->
  braceFree (fieldValue field context) = true ->
  renderTemplate (pre ++ "{{" ++ ws1 ++ String "." field ++ ws2 ++ "}}" ++ post) context
  = pre ++ fieldValue field context ++ post.
Proof.
  intros Hf Hpre Hws1 Hws2 Hpost Hplain Hbrace.
  set (t := pre ++ "{{" ++ ws1 ++ String "." field ++ ws2 ++ "}}" ++ post).
  set (v := fieldValue field context) in *.
  assert (Hother : forall g w, g ∈ fields -> g ≠ field -> replace g w t = t).
  { intros g w Hg Hne. apply TemplateFacts.replace_without_match.
    by apply occurs_other. }
  assert (Hhere : replace field v t = pre ++ v ++ post).
  { unfold t. rewrite replace_prefix by done. f_equal.
    rewrite (replace_at_match field v _ post Hplain).
    - f_equal. apply TemplateFacts.replace_without_match.
      by apply occurs_braceFree.
    - by apply placeholder_intro. }
  assert (Hafter : forall g w, replace g w (pre ++ v ++ post) = pre ++ v ++ post).
  { intros g w. apply TemplateFacts.replace_without_match.
    apply occurs_braceFree. rewrite !braceFree_app, Hpre, Hbrace, Hpost. reflexivity. }
  unfold renderTemplate. fold t. unfold fields in Hf, Hother.
  repeat (apply elem_of_cons in Hf as [-> | Hf]); try (by apply elem_of_nil in Hf);
    subst v; cbn [fieldValue String.eqb Ascii.eqb Bool.eqb] in *;
    repeat first
      [ rewrite Hhere
      | rewrite Hafter
      | rewrite Hother by (first [set_solver | discriminate]) ];
    reflexivity.
Qed.

Lemma renderTemplate_single_placeholder_witness :
  renderTemplate ("id=" ++ "{{" ++ " " ++ String "." "ClientID" ++ "" ++ "}}" ++ ";")
    {| ClientID := "my-app"; ClientSecret := "pa$$"; ClientName := "{{x";
       Namespace := "apps"; ResourceName := "my-app" |}
  = "id=" ++ "my-app" ++ ";".
Proof.
  apply (renderTemplate_single_placeholder "ClientID" "id=" " " "" ";");
    first [reflexivity | set_solver].
Defined.

End TemplateMore.

(** ** Properties of the configuration of the API client *)

Module ConfigurationFacts.
Import Template Text Operator Configuration TemplateMore.

Lemma trimEnd_split (s : string) :
  exists ws, blank ws = true /\ s = trimEnd s ++ ws.
Proof.
  induction s as [| c s (ws & Hws & Hs)]; [by exists "" |].
  cbn [trimEnd]. destruct (trimEnd s) as [| d r] eqn:E.
  - destruct (isWhiteSpace c) eqn:Hc.
    + exists (String c ws). cbn [blank]. rewrite Hc, Hws. split; [done |].
      rewrite append_nil in *. by rewrite <- Hs.
    + exists ws. split; [done |]. rewrite append_cons. by rewrite <- Hs.
  - exists ws. split; [done |]. rewrite append_cons. by rewrite <- Hs.
Qed.

Lemma trimEnd_fixed (s : string) : trimEnd (trimEnd s) = trimEnd s.
Proof.
  induction s as [| c s IH]; [reflexivity |].
  cbn [trimEnd]. destruct (trimEnd s) as [| d r] eqn:E.
  - destruct (isWhiteSpace c) eqn:Hc; [reflexivity |]. cbn [trimEnd]. by rewrite Hc.
  - cbn [trimEnd]. cbn [trimEnd] in IH. by rewrite IH.
Qed.

Lemma spaces_fixed (s : string) : spaces (spaces s) = spaces s.
Proof.
  induction s as [| c s IH]; [reflexivity |]. cbn [spaces].
  destruct (isWhiteSpace c) eqn:Hc; [exact IH |]. cbn [spaces]. by rewrite Hc.
Qed.

Lemma trimEnd_keeps_start (s : string) : spaces s = s -> spaces (trimEnd s) = trimEnd s.
Proof.
  destruct s as [| c s]; [reflexivity |]. cbn [spaces trimEnd].
  destruct (isWhiteSpace c) eqn:Hc.
  - intros H. exfalso.
    destruct (spaces_inv s) as (ws & _ & Hs).
    assert (Hlen : String.length (spaces s) = S (String.length s)) by (by rewrite H).
    rewrite Hs in Hlen at 2. rewrite length_append in Hlen. lia.
  - intros _. destruct (trimEnd s); cbn [spaces]; by rewrite Hc.
Qed.

(** [trim] strips white space at both ends and nothing else, and
    trimming again changes nothing. *)
Lemma trim_strips (s : string) :
  (exists ws1 ws2, blank ws1 = true /\ blank ws2 = true /\ s = ws1 ++ trim s ++ ws2)
  /\ spaces (trim s) = trim s
  /\ trimEnd (trim s) = trim s
  /\ trim (trim s) = trim s.
Proof.
  assert (Hstart : spaces (trim s) = trim s).
  { unfold trim. apply trimEnd_keeps_start, spaces_fixed. }
  assert (Hend : trimEnd (trim s) = trim s) by apply trimEnd_fixed.
  split; [| split; [| split]]; [| done | done |].
  - destruct (spaces_inv s) as (ws1 & Hws1 & Hs).
    destruct (trimEnd_split (spaces s)) as (ws2 & Hws2 & Hs2).
    exists ws1, ws2. split; [done |]. split; [done |].
    unfold trim. by rewrite <- Hs2.
  - unfold trim at 1. by rewrite Hstart.
Qed.

(** X5. The base URL is never empty: it is the variable when that is set
    and not empty, and the in-cluster default otherwise. The key header
    is sent exactly when the token variable is set and not empty, with
    the token trimmed; a token of white space alone gives a header with
    an empty key. *)
Theorem apiConfiguration_edges (url token : option string) :
  BASE (apiConfiguration url token) ≠ ""
  /\ (truthy url = true -> url = Some (BASE (apiConfiguration url token)))
  /\ (truthy url = false ->
      BASE (apiConfiguration url token) = "http://pocket-id.pocket-id.svc")
  /\ (truthy token = false -> HEADERS (apiConfiguration url token) = [])
  /\ (forall apiKey, token = Some apiKey -> apiKey ≠ "" ->
      HEADERS (apiConfiguration url token) = [("X-API-KEY", trim apiKey)])
  /\ (forall apiKey, token = Some apiKey -> apiKey ≠ "" -> blank apiKey = true ->
      HEADERS (apiConfiguration url token) = [("X-API-KEY", "")]).
Proof.
  unfold apiConfiguration, truthy, or_else. cbn [BASE HEADERS].
  split; [| split; [| split; [| split; [| split]]]].
  - destruct url as [u |]; [| discriminate].
    destruct (String.eqb_spec u ""); [discriminate | done].
  - destruct url as [u |]; [| discriminate].
    destruct (String.eqb_spec u ""); [discriminate | done].
  - destruct url as [u |]; [| done].
    destruct (String.eqb_spec u ""); [done | discriminate].
  - destruct token as [k |]; [| done].
    destruct (String.eqb_spec k ""); [done | discriminate].
  - intros k -> Hk. destruct (String.eqb_spec k ""); [contradiction | done].
  - intros k -> Hk Hblank. destruct (String.eqb_spec k ""); [contradiction |].
    do 3 f_equal. unfold trim.
    pose proof (spaces_blank k "" Hblank) as H. rewrite append_empty_r in H.
    by rewrite H.
Qed.

End ConfigurationFacts.

(** ** Further properties of the condition ledger *)

Module LedgerMore.
Import Operator Samples.

Lemma findIndex_cons {A} (p : A -> bool) (x : A) (l : list A) :
  findIndex p (x :: l)
  = if p x then 0 else if findIndex p l <? 0 then -1 else findIndex p l + 1.
Proof. reflexivity. Qed.

Lemma findIndex_app_miss {A} (p : A -> bool) (l : list A) (c : A) :
  p c = true -> findIndex p l < 0 ->
  findIndex p (l ++ [c]) = Z.of_nat (length l).
Proof.
  intros Hc. induction l as [| x l IH]; intros Hneg.
  - cbn [app length]. rewrite findIndex_cons, Hc. reflexivity.
  - rewrite findIndex_cons in Hneg. change ((x :: l) ++ [c])%list with (x :: (l ++ [c]))%list.
    rewrite findIndex_cons. destruct (p x); [lia |].
    destruct (Z.ltb_spec (findIndex p l) 0) as [Hl |]; [| lia].
    rewrite (IH Hl). cbn [length].
    destruct (Z.ltb_spec (Z.of_nat (length l)) 0); lia.
Qed.

Lemma findIndex_insert_hit {A} (p : A -> bool) (l : list A) (c : A) :
  p c = true -> 0 <= findIndex p l ->
  findIndex p (<[Z.to_nat (findIndex p l) := c]> l) = findIndex p l
  /\ (Z.to_nat (findIndex p l) < length l)%nat.
Proof.
  intros Hc. induction l as [| x l IH]; intros Hpos.
  - cbn in Hpos. lia.
  - rewrite findIndex_cons in Hpos |- *. destruct (p x) eqn:Hx.
    + change (Z.to_nat 0) with 0%nat. cbn [insert list_insert].
      rewrite findIndex_cons, Hc. cbn [length]. split; [reflexivity | lia].
    + destruct (Z.ltb_spec (findIndex p l) 0) as [| Hl]; [lia |].
      destruct (IH Hl) as [IH1 IH2].
      replace (Z.to_nat (findIndex p l + 1)) with (S (Z.to_nat (findIndex p l))) by lia.
      change (<[S (Z.to_nat (findIndex p l)) := c]> (x :: l))
        with (x :: <[Z.to_nat (findIndex p l) := c]> l).
      rewrite findIndex_cons, Hx, IH1. cbn [length].
      destruct (Z.ltb_spec (findIndex p l) 0); [lia |]. split; [reflexivity | lia].
Qed.

(** X6. Of two upserts of conditions of one type the later wins: the list
    is the one that the later upsert alone gives. In particular an
    upsert done twice is the upsert done once. *)
Theorem upsertCondition_last_wins (conditions : list Condition) (c c' : Condition) :
  cond_type c = cond_type c' ->
  upsertCondition (upsertCondition conditions c) c' = upsertCondition conditions c'.
Proof.
  intros Hty. unfold upsertCondition. rewrite <- Hty.
  set (p := fun d => String.eqb (cond_type d) (cond_type c)).
  assert (Hc : p c = true) by apply String.eqb_refl.
  destruct (Z.leb_spec 0 (findIndex p conditions)) as [Hpos | Hneg].
  - destruct (findIndex_insert_hit p conditions c Hc Hpos) as [H Hlt]. rewrite H.
    destruct (Z.leb_spec 0 (findIndex p conditions)); [| lia].
    apply list_insert_insert_eq.
  - rewrite (findIndex_app_miss p conditions c Hc Hneg).
    destruct (Z.leb_spec 0 (Z.of_nat (length conditions))); [| lia].
    rewrite Nat2Z.id. rewrite insert_app_r_alt by lia.
    by rewrite Nat.sub_diag.
Qed.

Lemma upsertCondition_last_wins_witness :
  cond_type failedCondition = cond_type readyCondition
  /\ upsertCondition (upsertCondition [startedCondition] failedCondition) readyCondition
     = upsertCondition [startedCondition] readyCondition.
Proof.
  split; [reflexivity |].
  apply (upsertCondition_last_wins [startedCondition] failedCondition readyCondition).
  reflexivity.
Defined.

End LedgerMore.

(** ** What an invocation issues, and what it never does *)

Module InvocationFacts.
Import Backoff Template Text Operator Vocabulary Samples ReconcilerFacts.

Section Logic.
Variables (c0 : PocketIDClient) (L : gmap string Z) (P : Call -> Prop).

Lemma within_push (s : State) (call : Call) (r : Response) :
  within c0 L P s -> P call -> within c0 L P (push s call r).
Proof.
  intros (Hrel & Hled & Hcalls) Hcall. split; [exact Hrel |]. split; [exact Hled |].
  unfold calls, push. cbn. rewrite fmap_app. apply Forall_app. split; [exact Hcalls |].
  by constructor.
Qed.

Lemma sustains_ret {A} (a : A) : sustains c0 L P (mret a).
Proof. by intros env s H. Qed.

Lemma sustains_throw {A} (e : Error) : sustains c0 L P (@throw A e).
Proof. by intros env s H. Qed.

Lemma sustains_bind {A B} (m : M A) (k : A -> M B) :
  sustains c0 L P m -> (forall a, sustains c0 L P (k a)) -> sustains c0 L P (m ≫= k).
Proof.
  intros Hm Hk env s H. unfold mbind, M_bind, bind.
  specialize (Hm env s H). destruct (m env s) as [[a | e] s1]; [| exact Hm].
  by apply Hk.
Qed.

Lemma sustains_try_catch {A} (body : M A) (handler : Error -> M A) :
  sustains c0 L P body -> (forall e, sustains c0 L P (handler e)) ->
  sustains c0 L P (try_catch body handler).
Proof.
  intros Hm Hk env s H. unfold try_catch.
  specialize (Hm env s H). destruct (body env s) as [[a | e] s1]; [exact Hm |].
  by apply Hk.
Qed.

Lemma sustains_get_client {B} (k : PocketIDClient -> M B) :
  (forall c, related c0 c -> sustains c0 L P (k c)) ->
  sustains c0 L P (get_client ≫= k).
Proof.
  intros Hk env s H. unfold mbind, M_bind, bind, get_client.
  apply Hk; [apply H | exact H].
Qed.

Lemma sustains_request (call : Call) : P call -> sustains c0 L P (request call).
Proof. intros Hcall env s H. by apply within_push. Qed.

Lemma sustains_Date_now : sustains c0 L P Date_now.
Proof. by intros env s H. Qed.

Lemma sustains_Math_random : sustains c0 L P Math_random.
Proof. by intros env s H. Qed.

Lemma sustains_store_conditions (conditions : list Condition) :
  sustains c0 L P (store_conditions conditions).
Proof.
  intros env s (Hrel & Hled & Hcalls). split; [| by split].
  by apply related_with_conditions.
Qed.

Create HintDb sustains discriminated.

Ltac sustains_step :=
  first
    [ solve [auto with sustains]
    | apply sustains_get_client; intros ? ?
    | apply sustains_bind; [| intros ?]
    | apply sustains_try_catch; [| intros ?]
    | apply sustains_ret
    | apply sustains_throw
    | apply sustains_Date_now
    | apply sustains_Math_random
    | apply sustains_store_conditions
    | apply sustains_request
    | match goal with
      | |- sustains _ _ _ (if ?b then _ else _) => destruct b
      | |- sustains _ _ _ (match ?o with Some _ => _ | None => _ end) => destruct o
      end ].

Lemma sustains_configureApiClient : sustains c0 L P configureApiClient.
Proof. apply sustains_ret. Qed.

Lemma sustains_createCondition type st reason message gen :
  sustains c0 L P (createCondition type st reason message gen).
Proof. unfold createCondition. repeat sustains_step. Qed.

Lemma sustains_shouldSkipDueToBackoff : sustains c0 L P shouldSkipDueToBackoff.
Proof. unfold shouldSkipDueToBackoff. repeat sustains_step. Qed.

Lemma sustains_clientExists (clientId : string) :
  P (getApiOidcClients1 clientId) -> sustains c0 L P (clientExists clientId).
Proof. intros H. unfold clientExists. repeat sustains_step. Qed.

Hypothesis Hstatus : allowsStatus c0 P.

Lemma sustains_updateStatus (upd : PartialStatus) :
  p_conditions upd = None -> sustains c0 L P (updateStatus upd).
Proof.
  intros Hupd. unfold updateStatus. repeat sustains_step.
  destruct (related_frame c0 c) as (-> & _); [assumption |].
  by apply Hstatus.
Qed.

Lemma sustains_addCondition (condition : Condition) :
  sustains c0 L P (addCondition condition).
Proof.
  unfold addCondition. repeat sustains_step.
  destruct (related_frame c0 c) as (-> & _); [assumption |].
  by apply Hstatus.
Qed.

#[local] Hint Resolve sustains_configureApiClient sustains_createCondition
  sustains_shouldSkipDueToBackoff sustains_addCondition : sustains.
#[local] Hint Extern 1 (sustains _ _ _ (updateStatus _)) =>
  apply sustains_updateStatus; reflexivity : sustains.

Lemma sustains_deletionFailed (err : Error) : sustains c0 L P (deletionFailed err).
Proof. unfold deletionFailed. repeat sustains_step. Qed.

Lemma sustains_reconcileFailed (err : Error) : sustains c0 L P (reconcileFailed err).
Proof. unfold reconcileFailed. repeat sustains_step. Qed.

#[local] Hint Resolve sustains_deletionFailed sustains_reconcileFailed : sustains.

Lemma sustains_handleDeletion : allowsDeletion c0 P -> sustains c0 L P handleDeletion.
Proof.
  intros (_ & Hget & Hdel & Hsec & Hrel).
  unfold handleDeletion. sustains_step.
  destruct (related_frame c0 c) as (Hm & _ & -> & -> & _); [assumption |].
  rewrite Hm.
  sustains_step; [sustains_step |].
  sustains_step; [| sustains_step].
  sustains_step; [sustains_step |].
  sustains_step; [by apply sustains_clientExists |].
  sustains_step.
  { destruct a1; repeat sustains_step. }
  sustains_step.
  { unfold deleteSecret. repeat sustains_step. }
  unfold removeFinalizer. sustains_step.
  destruct (related_frame c0 c1) as (Hm1 & _); [assumption |]. rewrite Hm1.
  unfold release in Hrel.
  destruct (bool_decide _); repeat sustains_step.
  by apply Forall_cons in Hrel as [Hrel _].
Qed.

Lemma sustains_reconcileAttempt : allowsUpsert c0 P -> sustains c0 L P reconcileAttempt.
Proof.
  intros (_ & _ & Hget & Hput & Hpost & Hrot & Happly).
  unfold reconcileAttempt. sustains_step.
  destruct (related_frame c0 c) as (Hm & Hs & _ & _ & Hid & Hsn); [assumption |].
  rewrite Hid, Hsn, Hm, Hs.
  destruct (spec c0) as [sp |] eqn:Hsp; [| sustains_step].
  destruct (negb _); [sustains_step |].
  sustains_step; [by apply sustains_clientExists |].
  sustains_step.
  { destruct a; repeat sustains_step; first [by apply Hput | by apply Hpost]. }
  sustains_step.
  { unfold upsertSecret. repeat sustains_step.
    specialize (Happly a0). unfold secretOf in Happly. rewrite Hsp in Happly.
    exact Happly. }
  repeat sustains_step.
Qed.

Lemma sustains_reconcile_upsert :
  deletionTimestamp (metadata c0) = None -> allowsUpsert c0 P ->
  sustains c0 L P reconcile.
Proof.
  intros Hd Hup. pose proof Hup as (_ & Hens & _).
  unfold reconcile. sustains_step.
  destruct (related_frame c0 c) as (Hm & _); [assumption |]. rewrite Hm.
  sustains_step; [sustains_step |]. rewrite (not_deleted _ Hd).
  destruct (_ && _); [sustains_step |].
  sustains_step; [sustains_step |].
  destruct (_ && _); [sustains_step |].
  destruct (_ <=? _); [repeat sustains_step |].
  sustains_step.
  { unfold addFinalizer. sustains_step.
    destruct (related_frame c0 c1) as (Hm1 & _); [assumption |]. rewrite Hm1.
    unfold ensure in Hens.
    destruct (bool_decide _); repeat sustains_step.
    by apply Forall_cons in Hens as [Hens _]. }
  sustains_step; [sustains_step |].
  sustains_step; [sustains_step |].
  sustains_step; [sustains_step |].
  sustains_step; [by apply sustains_reconcileAttempt | sustains_step].
Qed.

Lemma sustains_reconcile_deleted :
  is_Some (deletionTimestamp (metadata c0)) -> allowsDeletion c0 P ->
  sustains c0 L P reconcile.
Proof.
  intros Hd Hdel. unfold reconcile. sustains_step.
  destruct (related_frame c0 c) as (Hm & _); [assumption |]. rewrite Hm.
  sustains_step; [sustains_step |].
  rewrite bool_decide_eq_true_2 by exact Hd. by apply sustains_handleDeletion.
Qed.

End Logic.

(** The handler sustains the invariant of either path; on an accepted
    upsert event the ledger gains the pair of UID and generation. *)
Lemma handler_within (env : Env) (c : PocketIDClient) (L : gmap string Z)
    (P : Call -> Prop) :
  (is_Some (deletionTimestamp (metadata c)) -> allowsDeletion c P) ->
  (deletionTimestamp (metadata c) = None -> allowsUpsert c P) ->
  let s' := (onCreatedOrUpdated env (delivered c L)).2 in
  related c (client s') /\ Forall P (calls s')
  /\ (lastGenByUid s' = L
      \/ exists u g, deletionTimestamp (metadata c) = None
           /\ uid (metadata c) = Some u /\ generation (metadata c) = Some g
           /\ lastGenByUid s' = <[u := g]> L).
Proof.
  intros Hdel Hup s'. subst s'.
  destruct (deletionTimestamp (metadata c)) as [t |] eqn:Hd.
  - assert (Hsome : is_Some (deletionTimestamp (metadata (client (delivered c L)))))
      by (cbn; rewrite Hd; by eexists).
    unfold onCreatedOrUpdated. unfold_bind.
    rewrite bool_decide_eq_true_2 by exact Hsome.
    assert (Hadm : allowsDeletion c P) by (apply Hdel; by eexists).
    destruct (sustains_reconcile_deleted c L P (proj1 Hadm)
                ltac:(rewrite Hd; by eexists) Hadm
                env (delivered c L)) as (H1 & H2 & H3).
    { split; [by left |]. split; [reflexivity | constructor]. }
    split; [exact H1 |]. split; [exact H3 |]. by left.
  - rewrite onCreatedOrUpdated_upsert by exact Hd. rewrite dedupGate_run. settle.
    assert (Hdrop : related c (client (delivered c L))
                    /\ Forall P (calls (delivered c L))
                    /\ (lastGenByUid (delivered c L) = L
                        \/ exists u g, None = None (A:=Z) /\ uid (metadata c) = Some u
                             /\ generation (metadata c) = Some g
                             /\ lastGenByUid (delivered c L) = <[u := g]> L)).
    { split; [by left |]. split; [constructor | by left]. }
    destruct (uid (metadata c)) as [u |] eqn:Hu; [| exact Hdrop].
    destruct (generation (metadata c)) as [g |] eqn:Hg; [| exact Hdrop].
    destruct (String.eqb u ""); [exact Hdrop |].
    destruct (bool_decide (L !! u = Some g)); [exact Hdrop |].
    destruct (sustains_reconcile_upsert c (<[u := g]> L) P (proj1 (Hup eq_refl))
                Hd (Hup eq_refl) env
                {| client := c; lastGenByUid := <[u := g]> L; trace := [] |})
      as (H1 & H2 & H3).
    { split; [by left |]. split; [reflexivity | constructor]. }
    split; [exact H1 |]. split; [exact H3 |]. right. by exists u, g.
Qed.

Lemma upsertCall_allowed (c : PocketIDClient) : allowsUpsert c (upsertCall c).
Proof.
  unfold allowsUpsert, allowsStatus, upsertCall. repeat split; try done.
  - unfold ensure. destruct (bool_decide _); [constructor |].
    constructor; [| constructor]. split; [done |]. split; [done |]. set_solver.
  - intros clientSecret. by exists clientSecret.
Qed.

Lemma deletionCall_allowed (c : PocketIDClient) : allowsDeletion c (deletionCall c).
Proof.
  unfold allowsDeletion, allowsStatus, deletionCall. repeat split; try done.
  unfold release. destruct (bool_decide _); [| constructor].
  constructor; [| constructor]. split; [done |]. split; [done |].
  intros [H _]%list_elem_of_filter. by apply H.
Qed.

(** X7. An event without deletion marker never deletes: no delete goes to
    the external service, no secret is deleted, the only apply to the
    resource adds the finalizer, every call to the external service
    names the client [spec.id || name], and every status write and
    apply addresses the resource by its namespace and name. *)
Theorem upsert_never_deletes (env : Env) (c : PocketIDClient) (L : gmap string Z) :
  deletionTimestamp (metadata c) = None ->
  Forall (upsertCall c) (calls (onCreatedOrUpdated env (delivered c L)).2).
Proof.
  intros Hd. apply (handler_within env c L (upsertCall c)).
  - rewrite Hd. by intros [x Hx].
  - intros _. apply upsertCall_allowed.
Qed.

Lemma upsert_never_deletes_witness :
  Forall (upsertCall freshClient)
    (calls (onCreatedOrUpdated allDone (delivered freshClient ∅)).2).
Proof. apply (upsert_never_deletes allDone freshClient ∅). reflexivity. Defined.

(** X8. An event with deletion marker never creates: nothing is created or
    updated at the external service, no secret is rotated or applied,
    the only apply to the resource sends its finalizers without the
    operator's, and the calls to the external service name the client
    [status.clientId || spec.id || name]. *)
Theorem deletion_never_creates (env : Env) (c : PocketIDClient) (L : gmap string Z) :
  is_Some (deletionTimestamp (metadata c)) ->
  Forall (deletionCall c) (calls (onCreatedOrUpdated env (delivered c L)).2).
Proof.
  intros Hd. apply (handler_within env c L (deletionCall c)).
  - intros _. apply deletionCall_allowed.
  - intros Hnone. rewrite Hnone in Hd. by destruct Hd.
Qed.

Lemma deletion_never_creates_witness :
  Forall (deletionCall deletingClient)
    (calls (onCreatedOrUpdated allDone (delivered deletingClient ∅)).2).
Proof. apply (deletion_never_creates allDone deletingClient ∅). by eexists. Defined.

(** *** The entries of the secret *)

Lemma assign_keys_old (o : list (string * string)) (key value : string) :
  key ∈ o.*1 -> (assign o key value).*1 = o.*1.
Proof.
  induction o as [| [k v] o IH]; [by intros ?%elem_of_nil |].
  cbn [assign]. destruct (String.eqb_spec k key) as [-> | Hne]; [done |].
  intros H. cbn in H. apply elem_of_cons in H as [H | H]; [congruence |].
  cbn. f_equal. by apply IH.
Qed.

Lemma assign_keys_new (o : list (string * string)) (key value : string) :
  key ∉ o.*1 -> assign o key value = (o ++ [(key, value)])%list.
Proof.
  induction o as [| [k v] o IH]; [done |].
  cbn [assign]. intros H. cbn in H. apply not_elem_of_cons in H as [Hne H].
  destruct (String.eqb_spec k key) as [-> | _]; [done |].
  cbn. f_equal. by apply IH.
Qed.

Lemma assign_keys (o : list (string * string)) (key value : string) (k : string) :
  k ∈ (assign o key value).*1 <-> k ∈ o.*1 \/ k = key.
Proof.
  destruct (decide (key ∈ o.*1)) as [Hin | Hout].
  - rewrite assign_keys_old by done. split; [by left |].
    intros [H | ->]; done.
  - rewrite assign_keys_new by done. rewrite fmap_app, elem_of_app. cbn.
    by rewrite list_elem_of_singleton.
Qed.

(** The loop that fills [stringData]: its keys are the keys of the
    entries other than [__proto__]. *)
Lemma stringData_keys (render : string -> string)
    (entries o : list (string * string)) (k : string) :
  k ∈ (fold_left (fun o kv => setProperty o (fst kv) (render (snd kv))) entries o).*1
  <-> k ∈ o.*1 \/ (k ∈ entries.*1 /\ k ≠ "__proto__").
Proof.
  revert o. induction entries as [| [key value] entries IH]; intros o.
  - cbn. split; [by left |]. intros [H | [H _]]; [done | by apply elem_of_nil in H].
  - cbn [fold_left fst snd]. rewrite IH. unfold setProperty. cbn [fmap list_fmap fst].
    destruct (String.eqb_spec key "__proto__") as [-> | Hne].
    + rewrite elem_of_cons. split.
      * intros [H | [H1 H2]]; [by left | right; split; [by right | done]].
      * intros [H | [[H1 | H1] H2]]; [by left | done | right; done].
    + rewrite assign_keys, elem_of_cons. split.
      * intros [[H | ->] | [H1 H2]]; [by left | right; split; [by left | done] |].
        right. split; [by right | done].
      * intros [H | [[-> | H1] H2]]; [left; by left | left; by right | by right].
Qed.

(** For entries with distinct keys, as those of an object are, the
    loop maps the entries other than [__proto__], in their order. *)
Lemma stringData_entries (render : string -> string)
    (entries o : list (string * string)) :
  NoDup entries.*1 -> (forall k, k ∈ entries.*1 -> k ∉ o.*1) ->
  fold_left (fun o kv => setProperty o (fst kv) (render (snd kv))) entries o
  = (o ++ map (fun kv => (fst kv, render (snd kv)))
            (filter (fun kv => fst kv ≠ "__proto__") entries))%list.
Proof.
  revert o. induction entries as [| [key value] entries IH]; intros o Hnd Hfresh.
  - cbn. by rewrite app_nil_r.
  - cbn in Hnd. apply NoDup_cons in Hnd as [Hkey Hnd].
    cbn [fold_left fst snd]. unfold setProperty.
    destruct (String.eqb_spec key "__proto__") as [-> | Hne].
    + rewrite filter_cons_False by (cbn; by intros ?).
      apply IH; [exact Hnd |]. intros k Hk. apply Hfresh. cbn. by right.
    + rewrite filter_cons_True by done. cbn [map fst snd].
      rewrite assign_keys_new by (apply Hfresh; cbn; by left).
      rewrite IH; [by rewrite <- app_assoc | exact Hnd |].
      intros k Hk. rewrite fmap_app, elem_of_app. cbn.
      rewrite list_elem_of_singleton.
      intros [H | ->]; [| done]. revert H. apply Hfresh. cbn. by right.
Qed.

(** X9. Every secret that an invocation applies lies in the namespace of
    the resource, is of type [Opaque], and has the resource as its one
    owner, as controller and with owner deletion blocked. With
    [spec.secretTemplate.data] its keys are the keys of that data
    other than [__proto__], which the assignment to a plain object
    drops, in the order of the data when its keys are distinct; without
    such data they are [CLIENT_ID], holding [spec.id || name], and
    [CLIENT_SECRET]. *)
Theorem applied_secret_shape (env : Env) (c : PocketIDClient) (L : gmap string Z)
    (secret : Secret) :
  ApplySecret secret ∈ calls (onCreatedOrUpdated env (delivered c L)).2 ->
  secret_namespace secret = namespace (metadata c)
  /\ secret_type secret = "Opaque"
  /\ secret_ownerReferences secret
     = [{| owner_apiVersion := "jeffrescignano.io/v1alpha1";
           owner_kind := "PocketIDClient"; owner_name := name (metadata c);
           owner_uid := uid (metadata c); owner_controller := true;
           owner_blockOwnerDeletion := true |}]
  /\ match (spec c ≫= secretTemplate) ≫= tmpl_data with
     | Some entries =>
         (forall k, k ∈ (stringData secret).*1
                    <-> k ∈ entries.*1 /\ k ≠ "__proto__")
         /\ (NoDup entries.*1 ->
             (stringData secret).*1
             = filter (fun k => k ≠ "__proto__") entries.*1)
     | None =>
         exists clientSecret,
           stringData secret
           = [("CLIENT_ID", reconcileClientId c); ("CLIENT_SECRET", clientSecret)]
     end.
Proof.
  intros Hin.
  assert (Hshape : exists clientSecret, secret = secretOf c clientSecret).
  { destruct (deletionTimestamp (metadata c)) as [t |] eqn:Hd.
    - destruct (handler_within env c L (deletionCall c)) as (_ & H & _).
      + intros _. apply deletionCall_allowed.
      + by rewrite Hd.
      + rewrite Forall_forall in H. by destruct (H _ Hin).
    - destruct (handler_within env c L (upsertCall c)) as (_ & H & _).
      + rewrite Hd. by intros [x Hx].
      + intros _. apply upsertCall_allowed.
      + rewrite Forall_forall in H. exact (H _ Hin). }
  destruct Hshape as (clientSecret & ->).
  unfold secretOf, buildSecret. cbn [secret_namespace secret_type
    secret_ownerReferences stringData].
  split; [done |]. split; [done |]. split; [done |].
  set (context :=
         {| ClientID := reconcileClientId c; ClientSecret := clientSecret;
            ClientName := or_else (spec c ≫= spec_name) "";
            Namespace := namespace (metadata c);
            ResourceName := name (metadata c) |}).
  destruct ((spec c ≫= secretTemplate) ≫= tmpl_data) as [entries |].
  - split.
    + intros k.
      pose proof (stringData_keys (fun v => renderTemplate v context) entries [] k)
        as Hk.
      cbv beta in Hk. rewrite Hk. cbn. split.
      * intros [H | H]; [by apply elem_of_nil in H | exact H].
      * intros H. by right.
    + intros Hnd.
      pose proof (stringData_entries (fun v => renderTemplate v context) entries []
                    Hnd) as He.
      cbv beta in He. rewrite He by (intros k _ H; by apply elem_of_nil in H).
      cbn [app]. clear Hnd He.
      induction entries as [| [key value] entries IH]; [done |].
      cbn [fmap list_fmap fst].
      destruct (decide (key ≠ "__proto__")) as [Hne | He].
      * rewrite !filter_cons_True by done. cbn. f_equal. exact IH.
      * rewrite !filter_cons_False by done. exact IH.
  - by exists clientSecret.
Qed.

Lemma applied_secret_shape_witness :
  (stringData (secretOf templatedClient "s3cr3t")).*1 = ["id"; "secret"].
Proof.
  assert (Hin : ApplySecret (secretOf templatedClient "s3cr3t")
                ∈ calls (onCreatedOrUpdated allDone (delivered templatedClient ∅)).2).
  { vm_compute. repeat constructor. }
  destruct (applied_secret_shape allDone templatedClient ∅ _ Hin) as (_ & _ & _ & H).
  cbn [templatedClient spec mbind option_bind secretTemplate tmpl_data] in H.
  destruct H as [_ H]. rewrite H; [reflexivity |].
  by apply (bool_decide_unpack _).
Defined.

Lemma singleCondition_status (c : PocketIDClient) :
  status_field st_conditions c = None -> allowsStatus c singleCondition.
Proof.
  intros Hnone.
  assert (Hsame : forall c', related c c' -> c' = c).
  { intros c' [-> | [conditions ->]]; [done |].
    unfold with_conditions. unfold status_field in Hnone.
    destruct (status c) as [st |]; [| done]. cbn in Hnone. by rewrite Hnone. }
  split.
  - intros c' upd Hrel Hupd. rewrite (Hsame c' Hrel).
    unfold singleCondition, newStatus. cbn [st_conditions]. rewrite Hupd. cbn [spread].
    unfold status_field in Hnone. destruct (status c) as [st |]; cbn in *;
      by rewrite ?Hnone.
  - intros c' condition Hrel. rewrite (Hsame c' Hrel), Hnone. reflexivity.
Qed.

(** X10. For a resource whose status has no conditions array, the writes of
    conditions do not add up: every status write of an invocation
    carries no conditions array or exactly one condition, the one just
    created. *)
Theorem conditions_do_not_accumulate (env : Env) (c : PocketIDClient)
    (L : gmap string Z) :
  status_field st_conditions c = None ->
  Forall singleCondition (calls (onCreatedOrUpdated env (delivered c L)).2).
Proof.
  intros Hnone. pose proof (singleCondition_status c Hnone) as Hst.
  apply (handler_within env c L singleCondition).
  - intros _. unfold allowsDeletion. repeat split; try apply Hst; try done.
    unfold release. destruct (bool_decide _); repeat constructor.
  - intros _. unfold allowsUpsert. repeat split; try apply Hst; try done.
    unfold ensure. destruct (bool_decide _); repeat constructor.
Qed.

Lemma conditions_do_not_accumulate_witness :
  Forall singleCondition (calls (onCreatedOrUpdated allDone (delivered freshClient ∅)).2).
Proof. apply (conditions_do_not_accumulate allDone freshClient ∅). reflexivity. Defined.

Lemma trivial_allowed (c : PocketIDClient) :
  allowsDeletion c (fun _ => True) /\ allowsUpsert c (fun _ => True).
Proof.
  unfold allowsDeletion, allowsUpsert, allowsStatus. repeat split; try done.
  - unfold release. destruct (bool_decide _); repeat constructor.
  - unfold ensure. destruct (bool_decide _); repeat constructor.
Qed.

(** [reconcile] never writes the dedup ledger. *)
Lemma reconcile_keeps_ledger (env : Env) (s : State) :
  lastGenByUid (reconcile env s).2 = lastGenByUid s.
Proof.
  destruct (trivial_allowed (client s)) as [Hdel Hup].
  assert (Hin : within (client s) (lastGenByUid s) (fun _ => True) s).
  { split; [by left |]. split; [reflexivity |]. apply Forall_forall. done. }
  destruct (deletionTimestamp (metadata (client s))) as [t |] eqn:Hd.
  - apply (sustains_reconcile_deleted (client s) (lastGenByUid s) (fun _ => True)
             (proj1 Hdel) ltac:(rewrite Hd; by eexists) Hdel env s Hin).
  - apply (sustains_reconcile_upsert (client s) (lastGenByUid s) (fun _ => True)
             (proj1 Hup) Hd Hup env s Hin).
Qed.

(** X11. After an upsert event for a resource with UID [u] and generation
    [g] the ledger is the one the handler was entered with, updated at
    [u] with [g]; and an upsert event that then arrives for that UID
    with that generation is dropped in the state it arrives in,
    whatever the world and the rest of the resource are. *)
Theorem dedup_drops_redelivery (env env' : Env) (c c' : PocketIDClient)
    (L : gmap string Z) (u : string) (g : Z) :
  deletionTimestamp (metadata c) = None -> deletionTimestamp (metadata c') = None ->
  uid (metadata c) = Some u -> uid (metadata c') = Some u -> u ≠ "" ->
  generation (metadata c) = Some g -> generation (metadata c') = Some g ->
  let L1 := lastGenByUid (onCreatedOrUpdated env (delivered c L)).2 in
  L1 = <[u := g]> L
  /\ onCreatedOrUpdated env' (delivered c' L1) = (Returned tt, delivered c' L1).
Proof.
  intros Hd Hd' Hu Hu' Hne Hg Hg' L1.
  assert (HL1 : L1 = <[u := g]> L).
  { subst L1. rewrite onCreatedOrUpdated_upsert by exact Hd. rewrite dedupGate_run.
    settle. rewrite Hu, Hg. destruct (String.eqb_spec u ""); [contradiction |].
    destruct (bool_decide (L !! u = Some g)) eqn:Hseen.
    - apply bool_decide_eq_true in Hseen. cbn. by rewrite insert_id.
    - by rewrite reconcile_keeps_ledger. }
  split; [exact HL1 |].
  rewrite onCreatedOrUpdated_upsert by exact Hd'. rewrite dedupGate_run.
  settle. rewrite Hu', Hg'. destruct (String.eqb_spec u ""); [contradiction |].
  rewrite bool_decide_eq_true_2; [reflexivity |].
  rewrite HL1. apply lookup_insert_eq.
Qed.

Lemma dedup_drops_redelivery_witness :
  lastGenByUid (onCreatedOrUpdated allDone (delivered freshClient ∅)).2
  = <[ "uid-1" := 1 ]> ∅
  /\ onCreatedOrUpdated (failingAt 0 boom)
       (delivered freshClient
          (lastGenByUid (onCreatedOrUpdated allDone (delivered freshClient ∅)).2))
     = (Returned tt,
        delivered freshClient
          (lastGenByUid (onCreatedOrUpdated allDone (delivered freshClient ∅)).2)).
Proof.
  apply (dedup_drops_redelivery allDone (failingAt 0 boom) freshClient freshClient
           ∅ "uid-1" 1); first [reflexivity | discriminate].
Defined.

(** X12. An event with deletion marker passes the dedup gate whatever the
    UID, the generation and the ledger are, and leaves the ledger as it
    was. *)
Theorem deletion_bypasses_dedup (env : Env) (c : PocketIDClient) (L : gmap string Z) :
  is_Some (deletionTimestamp (metadata c)) ->
  onCreatedOrUpdated env (delivered c L) = handleDeletion env (delivered c L)
  /\ lastGenByUid (onCreatedOrUpdated env (delivered c L)).2 = L.
Proof.
  intros Hd.
  assert (Hrun : onCreatedOrUpdated env (delivered c L)
                 = reconcile env (delivered c L)).
  { unfold onCreatedOrUpdated. unfold_bind.
    by rewrite bool_decide_eq_true_2 by exact Hd. }
  split; [by apply onCreatedOrUpdated_deleted |].
  rewrite Hrun. apply reconcile_keeps_ledger.
Qed.

Lemma deletion_bypasses_dedup_witness :
  lastGenByUid
    (onCreatedOrUpdated allDone (delivered deletingClient {[ "uid-1" := 2 ]})).2
  = {[ "uid-1" := 2 ]}.
Proof.
  apply (deletion_bypasses_dedup allDone deletingClient {[ "uid-1" := 2 ]}).
  by eexists.
Defined.

(** X13. An invocation leaves the resource object as it was delivered, up
    to the content of a conditions array that the status already has:
    metadata, spec and every other field of the status are not written,
    and an absent status or conditions array stays absent. *)
Theorem invocation_frame (env : Env) (c : PocketIDClient) (L : gmap string Z) :
  let c' := client (onCreatedOrUpdated env (delivered c L)).2 in
  metadata c' = metadata c /\ spec c' = spec c
  /\ status_field st_phase c' = status_field st_phase c
  /\ status_field st_retryAttempt c' = status_field st_retryAttempt c
  /\ status_field st_nextRetryTime c' = status_field st_nextRetryTime c
  /\ status_field st_observedGeneration c' = status_field st_observedGeneration c
  /\ status_field st_clientId c' = status_field st_clientId c
  /\ status_field st_secretName c' = status_field st_secretName c
  /\ (status_field st_conditions c = None -> c' = c).
Proof.
  intros c'.
  destruct (trivial_allowed c) as [Hdel Hup].
  destruct (handler_within env c L (fun _ => True) (fun _ => Hdel) (fun _ => Hup))
    as (Hrel & _). fold c' in Hrel.
  destruct Hrel as [-> | [conditions ->]]; [done |].
  unfold with_conditions, status_field.
  destruct (status c) as [st |] eqn:Hst; [| by rewrite Hst].
  destruct (st_conditions st) eqn:Hconds; cbn; rewrite ?Hst; cbn; repeat split;
    try done.
  by rewrite Hconds.
Qed.

Section Escapes.
Variable Q : Call -> Prop.

Lemma escapes_ret {A} (a : A) : escapes Q (mret a).
Proof. by intros env s. Qed.

Lemma escapes_bind {A B} (m : M A) (k : A -> M B) :
  escapes Q m -> (forall a, escapes Q (k a)) -> escapes Q (m ≫= k).
Proof.
  intros Hm Hk env s. unfold mbind, M_bind, bind.
  specialize (Hm env s). destruct (m env s) as [[a | e] s1]; [| exact Hm].
  apply Hk.
Qed.

Lemma escapes_try_catch {A} (body : M A) (handler : Error -> M A) :
  (forall e, escapes Q (handler e)) -> escapes Q (try_catch body handler).
Proof.
  intros Hk env s. unfold try_catch.
  destruct (body env s) as [[a | e] s1]; [done |]. apply Hk.
Qed.

Lemma escapes_request (call : Call) : Q call -> escapes Q (request call).
Proof.
  intros Hcall env s. unfold request. cbn.
  destruct (next env s) as [v | e]; [done |]. cbn. by exists (trace s), call.
Qed.

Lemma escapes_get_client : escapes Q get_client.
Proof. by intros env s. Qed.

Lemma escapes_Date_now : escapes Q Date_now.
Proof. by intros env s. Qed.

Lemma escapes_Math_random : escapes Q Math_random.
Proof. by intros env s. Qed.

Lemma escapes_store_conditions (conditions : list Condition) :
  escapes Q (store_conditions conditions).
Proof. by intros env s. Qed.

Lemma escapes_get_lastGenByUid : escapes Q get_lastGenByUid.
Proof. by intros env s. Qed.

Lemma escapes_set_lastGenByUid (ledger : gmap string Z) :
  escapes Q (set_lastGenByUid ledger).
Proof. by intros env s. Qed.

End Escapes.

Ltac escapes_step :=
  first
    [ apply escapes_try_catch; intros ?
    | apply escapes_bind; [| intros ?]
    | apply escapes_ret
    | apply escapes_get_client
    | apply escapes_Date_now
    | apply escapes_Math_random
    | apply escapes_store_conditions
    | apply escapes_get_lastGenByUid
    | apply escapes_set_lastGenByUid
    | apply escapes_request
    | match goal with
      | |- escapes _ (if ?b then _ else _) => destruct b
      | |- escapes _ (match ?o with Some _ => _ | None => _ end) => destruct o
      end ].

Lemma escapes_onCreatedOrUpdated : escapes unguarded onCreatedOrUpdated.
Proof.
  unfold onCreatedOrUpdated, dedupGate, reconcile, handleDeletion, deletionFailed,
    reconcileFailed, shouldSkipDueToBackoff, addFinalizer, updateStatus,
    addCondition, createCondition, configureApiClient.
  repeat escapes_step; unfold unguarded; eauto 6.
Qed.

(** X14. The handler throws only the rejection of a write of conditions or
    of the apply that adds the finalizer, and then that call is the
    last one it issued. A rejection by the external service, of the
    apply or the delete of the secret, of the release of the finalizer
    or of a status write of a phase never leaves the handler. *)
Theorem only_unguarded_calls_escape (env : Env) (c : PocketIDClient)
    (L : gmap string Z) (e : Error) :
  (onCreatedOrUpdated env (delivered c L)).1 = Thrown e ->
  exists tr call,
    trace (onCreatedOrUpdated env (delivered c L)).2 = (tr ++ [(call, Raise e)])%list
    /\ unguarded call.
Proof.
  intros H. pose proof (escapes_onCreatedOrUpdated env (delivered c L)) as Hesc.
  destruct (onCreatedOrUpdated env (delivered c L)) as [[a | e'] s']; [discriminate |].
  cbn in H. by injection H as ->.
Qed.

Lemma only_unguarded_calls_escape_witness :
  exists tr call,
    trace (onCreatedOrUpdated (failingAt 2 boom) (delivered freshClient ∅)).2
    = (tr ++ [(call, Raise boom)])%list
    /\ unguarded call.
Proof.
  apply (only_unguarded_calls_escape (failingAt 2 boom) freshClient ∅ boom).
  reflexivity.
Defined.

End InvocationFacts.

(** ** Error behaviour of the helpers *)

Module HelperFacts.
Import Backoff Template Text Operator Vocabulary Samples ReconcilerFacts.

(** X15. The existence check never throws: it issues one fetch and answers
    [true] when the fetch is answered, [false] on any rejection. *)
Theorem clientExists_collapses_rejections (clientId : string) (env : Env) (s : State) :
  (clientExists clientId env s).1 = Returned (isDone (next env s))
  /\ calls (clientExists clientId env s).2
     = (calls s ++ [getApiOidcClients1 clientId])%list
  /\ client (clientExists clientId env s).2 = client s.
Proof.
  rewrite clientExists_run. unfold calls, push. cbn. by rewrite fmap_app.
Qed.

(** X16. The delete of the secret issues one call; it returns when the call
    is answered or rejected with status 404, and throws the rejection
    itself otherwise. *)
Theorem deleteSecret_outcomes (ns secretName : string) (env : Env) (s : State) :
  calls (deleteSecret ns secretName env s).2
  = (calls s ++ [DeleteSecret ns secretName])%list
  /\ (forall v, next env s = Done v ->
      (deleteSecret ns secretName env s).1 = Returned tt)
  /\ (forall e, next env s = Raise e -> err_status e = Some 404 ->
      (deleteSecret ns secretName env s).1 = Returned tt)
  /\ (forall e, next env s = Raise e -> err_status e ≠ Some 404 ->
      (deleteSecret ns secretName env s).1 = Thrown e).
Proof.
  rewrite deleteSecret_run. unfold calls, push. cbn. rewrite fmap_app.
  split; [done |]. split; [| split].
  - by intros v ->.
  - intros e -> H. cbn. by rewrite bool_decide_eq_true_2.
  - intros e -> H. cbn. by rewrite bool_decide_eq_false_2.
Qed.

Lemma upsertSecret_run ns secretName clientId clientSecret ownerName ownerUid tmpl
    clientName (env : Env) (s : State) :
  upsertSecret ns secretName clientId clientSecret ownerName ownerUid tmpl clientName
    env s
  = (void (next env s),
     push s (ApplySecret (buildSecret ns secretName clientId clientSecret ownerName
                            ownerUid tmpl clientName))
       (next env s)).
Proof.
  unfold upsertSecret, buildSecret. unfold_monad. cbn.
  destruct (next env s); reflexivity.
Qed.

Lemma filter_absent (fins : list string) :
  FINALIZER ∉ fins -> filter (fun f => f ≠ FINALIZER) fins = fins.
Proof.
  induction fins as [| f fins IH]; [done |].
  intros H. apply not_elem_of_cons in H as [Hf Hfins].
  rewrite filter_cons_True by done. f_equal. by apply IH.
Qed.

(** X17. [removeFinalizer] returns at once and sends nothing for a
    resource without the finalizer; for a resource with it, it issues
    one apply whose list holds the other finalizers in their order, and
    returns or throws as that call does. [addFinalizer] returns at once
    for a resource with the finalizer; otherwise it issues one apply of
    the list with the finalizer appended. For a resource that carries
    the list that [addFinalizer] sent, adding again sends nothing and
    removing sends the list the resource had before. *)
Theorem finalizer_round_trip (env : Env) (s : State) :
  let c := client s in
  let ns := namespace (metadata c) in
  let nm := name (metadata c) in
  let fins := default [] (finalizers (metadata c)) in
  (FINALIZER ∉ fins -> removeFinalizer env s = (Returned tt, s))
  /\ (FINALIZER ∈ fins ->
      removeFinalizer env s
      = (void (next env s),
         push s (ApplyClient ns nm (filter (fun f => f ≠ FINALIZER) fins))
           (next env s)))
  /\ (FINALIZER ∈ fins -> addFinalizer env s = (Returned tt, s))
  /\ (FINALIZER ∉ fins ->
      addFinalizer env s
      = (void (next env s),
         push s (ApplyClient ns nm (fins ++ [FINALIZER])%list) (next env s))
      /\ forall env' s',
          client s' = with_finalizers (fins ++ [FINALIZER])%list c ->
          addFinalizer env' s' = (Returned tt, s')
          /\ removeFinalizer env' s'
             = (void (next env' s'),
                push s' (ApplyClient ns nm fins) (next env' s'))).
Proof.
  intros c ns nm fins. rewrite removeFinalizer_run, addFinalizer_run.
  unfold release, ensure. fold c fins ns nm.
  refine (conj _ (conj _ (conj _ _))).
  - intros H. by rewrite bool_decide_eq_false_2.
  - intros H. by rewrite bool_decide_eq_true_2.
  - intros H. by rewrite bool_decide_eq_true_2.
  - intros H. rewrite bool_decide_eq_false_2 by exact H. split; [reflexivity |].
    intros env' s' Hc. rewrite removeFinalizer_run, addFinalizer_run.
    unfold release, ensure. rewrite Hc. cbn [with_finalizers metadata finalizers
      namespace name default]. fold ns nm.
    rewrite !bool_decide_eq_true_2 by set_solver.
    split; [reflexivity |]. unfold id.
    rewrite filter_app, filter_absent by exact H.
    rewrite filter_cons_False by (by intros ?). by rewrite filter_nil, app_nil_r.
Qed.

(** The finalizer between two others: the apply keeps the two in their
    order. *)
Lemma finalizer_round_trip_witness :
  removeFinalizer allDone
    (delivered (with_finalizers ["first"; FINALIZER; "last"] freshClient) ∅)
  = (Returned tt,
     push (delivered (with_finalizers ["first"; FINALIZER; "last"] freshClient) ∅)
       (ApplyClient "apps" "my-app" ["first"; "last"]) (Done "s3cr3t")).
Proof.
  apply (proj1 (proj2 (finalizer_round_trip allDone
           (delivered (with_finalizers ["first"; FINALIZER; "last"] freshClient) ∅)))).
  cbn. rewrite !elem_of_cons. auto.
Defined.




End HelperFacts.

(** ** The paths of [reconcile] *)

Module PathFacts.
Import Backoff Template Text Operator Vocabulary Samples ReconcilerFacts
  BackoffMore HelperFacts.

Section Grows.

Lemma grows_ret {A} (a : A) : grows (mret a).
Proof. intros env s. exists []. cbn. by rewrite app_nil_r. Qed.

Lemma grows_throw {A} (e : Error) : grows (@throw A e).
Proof. intros env s. exists []. cbn. by rewrite app_nil_r. Qed.

Lemma grows_bind {A B} (m : M A) (k : A -> M B) :
  grows m -> (forall a, grows (k a)) -> grows (m ≫= k).
Proof.
  intros Hm Hk env s. unfold mbind, M_bind, bind.
  destruct (Hm env s) as [tr Htr]. destruct (m env s) as [[a | e] s1]; [| by exists tr].
  destruct (Hk a env s1) as [tr' Htr']. exists (tr ++ tr')%list.
  cbn in Htr. by rewrite Htr', Htr, app_assoc.
Qed.

Lemma grows_try_catch {A} (body : M A) (handler : Error -> M A) :
  grows body -> (forall e, grows (handler e)) -> grows (try_catch body handler).
Proof.
  intros Hm Hk env s. unfold try_catch.
  destruct (Hm env s) as [tr Htr]. destruct (body env s) as [[a | e] s1]; [by exists tr |].
  destruct (Hk e env s1) as [tr' Htr']. exists (tr ++ tr')%list.
  cbn in Htr. by rewrite Htr', Htr, app_assoc.
Qed.

Lemma grows_request (call : Call) : grows (request call).
Proof. intros env s. by eexists. Qed.

Lemma grows_get_client : grows get_client.
Proof. intros env s. exists []. cbn. by rewrite app_nil_r. Qed.

Lemma grows_Date_now : grows Date_now.
Proof. intros env s. exists []. cbn. by rewrite app_nil_r. Qed.

Lemma grows_Math_random : grows Math_random.
Proof. intros env s. exists []. cbn. by rewrite app_nil_r. Qed.

Lemma grows_store_conditions (conditions : list Condition) :
  grows (store_conditions conditions).
Proof. intros env s. exists []. cbn. by rewrite app_nil_r. Qed.

End Grows.

Ltac grows_step :=
  first
    [ apply grows_bind; [| intros ?]
    | apply grows_try_catch; [| intros ?]
    | apply grows_ret
    | apply grows_throw
    | apply grows_get_client
    | apply grows_Date_now
    | apply grows_Math_random
    | apply grows_store_conditions
    | apply grows_request
    | match goal with
      | |- grows (if ?b then _ else _) => destruct b
      | |- grows (match ?o with Some _ => _ | None => _ end) => destruct o
      end ].

Lemma grows_addCondition (condition : Condition) : grows (addCondition condition).
Proof. unfold addCondition. repeat grows_step. Qed.

Lemma grows_attempt : grows (try_catch reconcileAttempt reconcileFailed).
Proof.
  unfold reconcileAttempt, reconcileFailed, clientExists, upsertSecret, updateStatus,
    addCondition, createCondition.
  repeat grows_step.
Qed.

(** *** The gates *)

(** What [reconcile] is for an upsert invocation below the maximum of
    retries: nothing when one of the two gates holds, and the attempt
    otherwise. *)
Lemma reconcile_attempts (env : Env) (s : State) :
  let c := client s in
  let now := clock env (length (trace s)) in
  deletionTimestamp (metadata c) = None ->
  default 0 (status_field st_retryAttempt c) < maxRetries RETRY_CONFIG ->
  reconcile env s
  = if gated c now then (Returned tt, s)
    else
      (addFinalizer ≫= fun _ =>
       updateStatus (beginUpdate c) ≫= fun _ =>
       createCondition "Reconciling" CondTrue
         (if 0 <? default 0 (status_field st_retryAttempt c)
          then "RetryStarted" else "ReconcileStarted")
         (if 0 <? default 0 (status_field st_retryAttempt c)
          then "Retry attempt "
               ++ pretty (default 0 (status_field st_retryAttempt c) + 1) ++ "/"
               ++ pretty (maxRetries RETRY_CONFIG)
          else "Starting reconciliation")
         (generation (metadata c)) ≫= fun condition =>
       addCondition condition ≫= fun _ =>
       try_catch reconcileAttempt reconcileFailed) env s.
Proof.
  intros c now Hd Hmax. unfold reconcile, gated. unfold_bind.
  fold c. rewrite (not_deleted _ Hd).
  apply Z.leb_gt in Hmax.
  destruct (bool_decide (status_field st_observedGeneration c = _));
    destruct (bool_decide (status_field st_phase c = Some Ready));
    cbn [andb orb]; try reflexivity;
    rewrite shouldSkipDueToBackoff_run; fold c now; cbv beta iota zeta;
    destruct (backoffPending c now); cbn [andb]; try reflexivity;
    rewrite Hmax; reflexivity.
Qed.

(** X19. While a backoff is pending for the generation that was observed,
    [reconcile] does nothing: it returns in the state it was entered
    in. *)
Theorem reconcile_waits_for_backoff (env : Env) (s : State) (nextRetry : Z) :
  let c := client s in
  deletionTimestamp (metadata c) = None ->
  status_field st_observedGeneration c = generation (metadata c) ->
  status_field st_phase c ≠ Some Ready ->
  status_field st_nextRetryTime c = Some nextRetry ->
  clock env (length (trace s)) < nextRetry ->
  reconcile env s = (Returned tt, s).
Proof.
  intros c Hd Hgen Hphase Hnext Hnow.
  assert (Hpending : backoffPending c (clock env (length (trace s))) = true).
  { unfold backoffPending. rewrite Hnext.
    rewrite bool_decide_eq_false_2 by exact Hphase. by apply Z.ltb_lt. }
  destruct (Z.lt_ge_cases (default 0 (status_field st_retryAttempt c))
              (maxRetries RETRY_CONFIG)) as [Hlow | Hhigh].
  - rewrite reconcile_attempts by assumption. fold c. unfold gated.
    rewrite Hpending, bool_decide_eq_true_2 by exact Hgen.
    by rewrite orb_true_r.
  - rewrite reconcile_max_retries by assumption. fold c.
    rewrite Hpending, bool_decide_eq_true_2 by exact Hgen.
    by rewrite orb_true_r.
Qed.

Lemma reconcile_waits_for_backoff_witness :
  reconcile allDone (delivered (exhaustedClient 3 (Some 301000)) ∅)
  = (Returned tt, delivered (exhaustedClient 3 (Some 301000)) ∅).
Proof.
  apply (reconcile_waits_for_backoff allDone
           (delivered (exhaustedClient 3 (Some 301000)) ∅) 301000);
    first [reflexivity | discriminate].
Defined.

Lemma bind_run {A B} (m : M A) (k : A -> M B) (env : Env) (s : State) :
  (m ≫= k) env s
  = match m env s with
    | (Returned a, s') => k a env s'
    | (Thrown e, s') => (Thrown e, s')
    end.
Proof. reflexivity. Qed.

Lemma grows_calls {A} (m : M A) (env : Env) (s : State) :
  grows m -> exists rest, calls (m env s).2 = (calls s ++ rest)%list.
Proof.
  intros H. destruct (H env s) as [tr Htr]. exists (tr.*1).
  unfold calls. by rewrite Htr, fmap_app.
Qed.

Lemma grows_createCondition type st reason message gen :
  grows (createCondition type st reason message gen).
Proof. unfold createCondition. repeat grows_step. Qed.

(** X20. An upsert invocation for a generation that was not observed
    starts an attempt, whatever the phase and the next retry time are,
    as long as the retries are below the maximum: when the finalizer is
    in place or its apply is answered, the calls begin with that apply
    and the status write of the phase, [Retrying] after a failure and
    [Pending] otherwise, whose body has no next retry time. *)
Theorem new_generation_starts_attempt (env : Env) (c : PocketIDClient)
    (L : gmap string Z) :
  deletionTimestamp (metadata c) = None ->
  status_field st_observedGeneration c ≠ generation (metadata c) ->
  default 0 (status_field st_retryAttempt c) < maxRetries RETRY_CONFIG ->
  ensure c = [] \/ isDone (script env 0%nat) = true ->
  let body := newStatus c (beginUpdate c) in
  (exists rest,
     calls (reconcile env (delivered c L)).2
     = (ensure c
        ++ [PatchStatus (namespace (metadata c)) (name (metadata c)) body]
        ++ rest)%list)
  /\ st_phase body = Some (beginPhase c)
  /\ st_nextRetryTime body = None
  /\ (beginPhase c = Retrying <-> 0 < default 0 (status_field st_retryAttempt c)).
Proof.
  intros Hd Hgen Hmax Hens body. split; [| split; [| split]].
  - rewrite reconcile_attempts by assumption. settle. unfold gated.
    rewrite bool_decide_eq_false_2 by exact Hgen. cbn [andb].
    rewrite bind_run, addFinalizer_run. settle.
    assert (Hafter : forall s1 r,
      (s1 = delivered c L \/ exists call, s1 = push (delivered c L) call (Done r)) ->
      exists rest,
        calls ((updateStatus (beginUpdate c) ≫= fun _ =>
                createCondition "Reconciling" CondTrue
                  (if 0 <? default 0 (status_field st_retryAttempt c)
                   then "RetryStarted" else "ReconcileStarted")
                  (if 0 <? default 0 (status_field st_retryAttempt c)
                   then "Retry attempt "
                        ++ pretty (default 0 (status_field st_retryAttempt c) + 1)
                        ++ "/" ++ pretty (maxRetries RETRY_CONFIG)
                   else "Starting reconciliation")
                  (generation (metadata c)) ≫= fun condition =>
                addCondition condition ≫= fun _ =>
                try_catch reconcileAttempt reconcileFailed) env s1).2
        = (calls s1
           ++ [PatchStatus (namespace (metadata c)) (name (metadata c)) body]
           ++ rest)%list).
    { intros s1 r Hs1. rewrite bind_run, updateStatus_run.
      assert (Hc : client s1 = c) by (destruct Hs1 as [-> | [call ->]]; reflexivity).
      rewrite Hc.
      match goal with
      | |- context [calls (?m env ?s2).2] =>
          destruct (grows_calls m env s2) as [rest Hrest]
      end.
      { apply grows_bind; [apply grows_createCondition |]. intros a.
        apply grows_bind; [apply grows_addCondition |]. intros _.
        apply grows_attempt. }
      exists rest. rewrite Hrest. unfold calls, push. cbn [trace].
      by rewrite fmap_app, <- app_assoc. }
    destruct (ensure c) as [| call rest0] eqn:Hensure.
    + destruct (Hafter (delivered c L) "") as [rest Hrest]; [by left |].
      exists rest. exact Hrest.
    + destruct Hens as [Hens | Hens]; [discriminate |].
      unfold next. settle. destruct (script env 0%nat) as [v |]; [| discriminate].
      settle.
      destruct (Hafter (push (delivered c L) call (Done v)) v) as [rest Hrest];
        [right; by exists call |].
      exists rest. rewrite Hrest.
      assert (Hone : rest0 = []).
      { unfold ensure in Hensure. destruct (bool_decide _); [discriminate |].
        by injection Hensure. }
      subst rest0. reflexivity.
  - reflexivity.
  - reflexivity.
  - unfold beginPhase. destruct (Z.ltb_spec 0 (default 0 (status_field st_retryAttempt c)));
      split; intros; first [done | lia].
Qed.

Lemma new_generation_starts_attempt_witness :
  exists rest,
    calls (reconcile allDone (delivered freshClient ∅)).2
    = (ensure freshClient
       ++ [PatchStatus "apps" "my-app" (newStatus freshClient (beginUpdate freshClient))]
       ++ rest)%list.
Proof.
  apply (new_generation_starts_attempt allDone freshClient ∅);
    first [reflexivity | discriminate | by right].
Defined.

End PathFacts.

(** ** The attempt of [reconcile] and its outcome *)

Module AttemptFacts.
Import Backoff Template Text Operator Vocabulary Samples ReconcilerFacts
  BackoffMore HelperFacts PathFacts.

Lemma calls_push (s : State) (call : Call) (r : Response) :
  calls (push s call r) = (calls s ++ [call])%list.
Proof. unfold calls, push. cbn. by rewrite fmap_app. Qed.

Lemma effects_push (s : State) (call : Call) (r : Response) :
  effects (push s call r)
  = (effects s ++ (if isStatusWrite call then [] else [call]))%list.
Proof.
  unfold effects. rewrite calls_push, List.filter_app. cbn.
  by destruct (isStatusWrite call).
Qed.

Lemma phases_push (s : State) (call : Call) (r : Response) :
  phases (push s call r)
  = (phases s
     ++ match call with
        | PatchStatus _ _ body => option_list (st_phase body)
        | _ => []
        end)%list.
Proof.
  unfold phases. rewrite calls_push, omap_app. f_equal. cbn.
  destruct call; reflexivity.
Qed.

Lemma push_length (s : State) (call : Call) (r : Response) :
  length (trace (push s call r)) = S (length (trace s)).
Proof. cbn. rewrite length_app. cbn. lia. Qed.




Lemma calls_stored (conditions : list Condition) (s : State) :
  calls (stored conditions s) = calls s.
Proof. reflexivity. Qed.



Lemma next_stored (env : Env) (conditions : list Condition) (s : State) :
  next env (stored conditions s) = next env s.
Proof. reflexivity. Qed.


(** The next retry time of a failed attempt, from the draw and the
    instant of the catch block. *)
Lemma nextRetryTime_range (n : Z) (r : Q) (now : Z) :
  1 <= n -> (0 <= r)%Q ->
  now + 5000
  <= Binary64.truncate (Binary64.binary64 (inject_Z now + calculateBackoffDelay n r))
  <= now + 300000.
Proof.
  intros Hn Hr. destruct (backoff_delay_range n r Hn Hr) as [Hlo Hhi]. split.
  - apply Binary64Facts.truncate_ge_Z, Binary64Facts.binary64_ge_Z.
    rewrite inject_Z_plus. change (inject_Z 5000) with 5000%Q. lra.
  - apply Binary64Facts.truncate_le_Z, Binary64Facts.binary64_le_Z.
    rewrite inject_Z_plus. change (inject_Z 300000) with 300000%Q. lra.
Qed.

(** The sum of the instant and of the delay is rounded before it is
    truncated: with the draw 0.99999995 at the instant 1790000000003
    the exact sum lies below 1790000006003, which is the next retry
    time that is written. *)
Example next_retry_time_is_rounded :
  let r := (99999995 # 100000000)%Q in
  (inject_Z 1790000000003 + (5000 + r * 1000) < inject_Z 1790000006003)%Q
  /\ p_nextRetryTime (failedUpdate freshClient r 1790000000003)
     = Some (Some 1790000006003).
Proof. split; [reflexivity | vm_compute; reflexivity]. Qed.




Lemma reconcile_gated (env : Env) (s : State) :
  deletionTimestamp (metadata (client s)) = None ->
  gated (client s) (clock env (length (trace s))) = true ->
  reconcile env s = (Returned tt, s).
Proof.
  intros Hd Hg.
  destruct (Z.lt_ge_cases (default 0 (status_field st_retryAttempt (client s)))
              (maxRetries RETRY_CONFIG)) as [Hlow | Hhigh].
  - rewrite reconcile_attempts by assumption. cbv zeta. by rewrite Hg.
  - rewrite reconcile_max_retries by assumption. cbv zeta.
    unfold gated in Hg. by rewrite Hg.
Qed.

(** X22. The status that a failed attempt writes makes the operator wait:
    when the resource comes back with that status and without a change
    of its spec, [reconcile] does nothing as long as [Date.now()] is
    less than 5 s after the instant of the failure. *)
Theorem scheduled_retry_is_awaited (env env' : Env) (c : PocketIDClient)
    (L : gmap string Z) (k : nat) :
  let body := newStatus c (failedUpdate c (random env k) (clock env k)) in
  deletionTimestamp (metadata c) = None ->
  0 <= default 0 (status_field st_retryAttempt c) ->
  (0 <= random env k)%Q ->
  clock env' 0%nat < clock env k + 5000 ->
  reconcile env' (delivered (with_status body c) L)
  = (Returned tt, delivered (with_status body c) L).
Proof.
  intros body Hd Hretry Hr Hnow. apply reconcile_gated; [exact Hd |].
  unfold gated, backoffPending, status_field.
  cbn -[Binary64.truncate Binary64.binary64 calculateBackoffDelay inject_Z Qplus].
  rewrite bool_decide_eq_true_2 by reflexivity.
  apply Z.ltb_lt.
  destruct (nextRetryTime_range
              (default 0 (status_field st_retryAttempt c) + 1)
              (random env k) (clock env k)) as [H _]; [lia | exact Hr |].
  lia.
Qed.

Lemma scheduled_retry_is_awaited_witness :
  reconcile allDone
    (delivered
       (with_status (newStatus readyClient (failedUpdate readyClient (1 # 2) 1000))
          readyClient) ∅)
  = (Returned tt,
     delivered
       (with_status (newStatus readyClient (failedUpdate readyClient (1 # 2) 1000))
          readyClient) ∅).
Proof.
  apply (scheduled_retry_is_awaited allDone allDone readyClient ∅ 0%nat);
    [reflexivity | cbn; lia | discriminate | reflexivity].
Defined.


(** *** From the gates to the [try] block *)

Lemma reconcile_begins (env : Env) (c : PocketIDClient) (L : gmap string Z) :
  deletionTimestamp (metadata c) = None ->
  gated c (clock env 0%nat) = false ->
  default 0 (status_field st_retryAttempt c) < maxRetries RETRY_CONFIG ->
  ensure c = [] \/ isDone (script env 0%nat) = true ->
  isDone (script env (S (length (ensure c)))) = true ->
  reconcile env (delivered c L)
  = try_catch reconcileAttempt reconcileFailed env (begun env c L).
Proof.
  intros Hd Hg Hmax Hens Hcond.
  rewrite reconcile_attempts by assumption. settle. rewrite Hg.
  rewrite bind_run, addFinalizer_run. settle. unfold begun.
  destruct (ensure c) as [| call rest] eqn:E.
  - rewrite bind_run, updateStatus_run, bind_run, createCondition_run, bind_run,
      addCondition_run.
    unfold next. settle. cbn [length] in Hcond.
    destruct (script env 1%nat); [| discriminate]. reflexivity.
  - destruct Hens as [Hens | Hens]; [discriminate |].
    assert (Hone : rest = []).
    { unfold ensure in E. destruct (bool_decide _); [discriminate |].
      by injection E. }
    subst rest. cbn [length] in Hcond.
    unfold next. settle. destruct (script env 0%nat) as [v |] eqn:E0; [| discriminate].
    settle.
    rewrite bind_run, updateStatus_run, bind_run, createCondition_run, bind_run,
      addCondition_run.
    unfold next. settle.
    destruct (script env 2%nat); [| discriminate]. reflexivity.
Qed.

Lemma begun_client (env : Env) (c : PocketIDClient) (L : gmap string Z) :
  related c (client (begun env c L)).
Proof. right. by eexists. Qed.

Lemma begun_length (env : Env) (c : PocketIDClient) (L : gmap string Z) :
  length (trace (begun env c L)) = S (S (length (ensure c))).
Proof.
  unfold begun. cbv zeta. rewrite push_length. cbn [stored trace].
  rewrite push_length. cbn [trace]. by rewrite length_fmap.
Qed.




(** *** The [try] block *)

Lemma request_run (call : Call) (env : Env) (s : State) :
  request call env s = (outcome_of (next env s), push s call (next env s)).
Proof. reflexivity. Qed.


Ltac run_step :=
  first
    [ rewrite request_run
    | rewrite createCondition_run
    | rewrite addCondition_run
    | rewrite updateStatus_run
    | rewrite upsertSecret_run
    | rewrite clientExists_run ];
  cbv zeta.

Lemma reached_refl (s : State) : reached s s 0 [] [].
Proof.
  unfold reached. rewrite !app_nil_r. repeat split. by left.
Qed.

Lemma reached_push (s s' : State) n eff ph (call : Call) (r : Response) :
  reached s s' n eff ph ->
  reached s (push s' call r) (S n)
    (eff ++ (if isStatusWrite call then [] else [call]))
    (ph ++ match call with
           | PatchStatus _ _ body => option_list (st_phase body)
           | _ => []
           end).
Proof.
  intros (Hlen & Heff & Hph & Hrel & HL).
  refine (conj _ (conj _ (conj _ (conj _ _)))).
  - rewrite push_length, Hlen. reflexivity.
  - rewrite effects_push, Heff, app_assoc. reflexivity.
  - rewrite phases_push, Hph, app_assoc. reflexivity.
  - exact Hrel.
  - exact HL.
Qed.

Lemma reached_stored (s s' : State) n eff ph (conditions : list Condition) :
  reached s s' n eff ph -> reached s (stored conditions s') n eff ph.
Proof.
  intros (Hlen & Heff & Hph & Hrel & HL).
  refine (conj Hlen (conj Heff (conj Hph (conj _ HL)))).
  by apply related_with_conditions.
Qed.

Lemma reached_next (env : Env) (s s' : State) n eff ph :
  reached s s' n eff ph -> next env s' = script env (n + length (trace s))%nat.
Proof. intros (Hlen & _). unfold next. by rewrite Hlen. Qed.

Lemma reached_metadata (s s' : State) n eff ph :
  reached s s' n eff ph -> metadata (client s') = metadata (client s).
Proof.
  intros (_ & _ & _ & Hrel & _). by destruct (related_frame _ _ Hrel) as [-> _].
Qed.

(** One call of the run: the run equation of the helper at the head,
    the answer of the script, and a name for the state it leaves. *)
Ltac advance H S' H' :=
  run_step;
  rewrite ?next_stored, (reached_next _ _ _ _ _ _ H);
  cbn [Nat.add];
  repeat match goal with
         | E : script ?env ?i = _ |- context [script ?env ?i] => rewrite E
         end;
  cbn [outcome_of void isDone]; cbv beta iota;
  match goal with
  | |- context [push (stored ?l ?S0) ?call ?r] =>
      pose proof (reached_push _ _ _ _ _ call r (reached_stored _ _ _ _ _ l H)) as H';
      set (S' := push (stored l S0) call r) in *
  | |- context [push ?S0 ?call ?r] =>
      pose proof (reached_push _ _ _ _ _ call r H) as H';
      set (S' := push S0 call r) in *
  end;
  cbn [isStatusWrite app option_list st_phase conditionsOnly newStatus spread
       p_phase] in H'.

Lemma secretOf_spec (c : PocketIDClient) (sp : PocketIDClientSpec) (v : string) :
  spec c = Some sp ->
  secretOf c v
  = buildSecret (namespace (metadata c)) (reconcileSecretName c) (reconcileClientId c)
      v (name (metadata c)) (uid (metadata c)) (secretTemplate sp) (spec_name sp).
Proof. intros H. unfold secretOf. by rewrite H. Qed.

Lemma reconcileAttempt_answered (env : Env) (s : State) (sp : PocketIDClientSpec) :
  spec (client s) = Some sp ->
  truthy (spec_name sp) = true ->
  (forall i, (length (trace s) < i)%nat -> isDone (script env i) = true) ->
  exists s',
    reconcileAttempt env s = (Returned tt, s')
    /\ reached s s' 8
         (upsertCalls (client s) sp (script env (length (trace s)))
          ++ [ApplySecret
                (secretOf (client s)
                   (valueOf (script env (2 + length (trace s))%nat)))])
         [Ready]
    /\ exists c',
         related (client s) c'
         /\ PatchStatus (namespace (metadata (client s))) (name (metadata (client s)))
              (newStatus c' (readyUpdate (client s))) ∈ calls s'.
Proof.
  intros Hspec Hname Hdone.
  assert (A : forall j, (0 < j)%nat ->
            exists v, script env (j + length (trace s))%nat = Done v).
  { intros j Hj. specialize (Hdone (j + length (trace s))%nat ltac:(lia)).
    destruct (script env _); [by eexists | discriminate]. }
  destruct (A 1%nat ltac:(lia)) as [v1 E1]. destruct (A 2%nat ltac:(lia)) as [v2 E2].
  destruct (A 3%nat ltac:(lia)) as [v3 E3]. destruct (A 4%nat ltac:(lia)) as [v4 E4].
  destruct (A 5%nat ltac:(lia)) as [v5 E5]. destruct (A 6%nat ltac:(lia)) as [v6 E6].
  destruct (A 7%nat ltac:(lia)) as [v7 E7]. clear A. cbn [Nat.add] in *.
  rewrite (secretOf_spec _ _ _ Hspec).
  pose proof (reached_refl s) as H0.
  unfold reconcileAttempt. unfold_bind. rewrite Hspec, Hname. cbn [negb].
  cbv beta iota zeta.
  destruct (script env (length (trace s))) as [v0 | e0] eqn:E0;
    (advance H0 S1 H1; advance H1 S2 H2; advance H2 S3 H3;
     run_step; cbv beta iota; advance H3 S4 H4; advance H4 S5 H5;
     run_step; cbv beta iota; advance H5 S6 H6; advance H6 S7 H7;
     run_step; cbv beta iota; advance H7 S8 H8;
     exists S8; split; [reflexivity |]; split; [exact H8 |];
     exists (client S6);
     split; [apply H6 |];
     rewrite <- (reached_metadata _ _ _ _ _ H6);
     subst S8 S7; rewrite calls_push, calls_stored, calls_push;
     apply elem_of_app; left; apply elem_of_app; right;
     apply list_elem_of_singleton; reflexivity).
Qed.


(** *** What the helpers read from an object whose conditions changed *)


Lemma related_status (c0 c : PocketIDClient) :
  related c0 c ->
  status_field st_retryAttempt c = status_field st_retryAttempt c0
  /\ status_field st_phase c = status_field st_phase c0
  /\ status_field st_nextRetryTime c = status_field st_nextRetryTime c0
  /\ status_field st_observedGeneration c = status_field st_observedGeneration c0.
Proof.
  intros [-> | [conditions ->]]; [done |].
  unfold with_conditions, status_field.
  destruct (status c0) as [st |] eqn:E; [| by rewrite E].
  destruct (st_conditions st); [| by rewrite E].
  repeat split.
Qed.

Lemma related_reads (c0 c : PocketIDClient) :
  related c0 c ->
  (forall sp r, upsertCalls c sp r = upsertCalls c0 sp r)
  /\ (forall v, secretOf c v = secretOf c0 v)
  /\ readyUpdate c = readyUpdate c0
  /\ (forall err now, reconcileFailedCondition c err now
                      = reconcileFailedCondition c0 err now)
  /\ (forall r now, failedUpdate c r now = failedUpdate c0 r now).
Proof.
  intros Hrel.
  destruct (related_frame _ _ Hrel) as (Hm & Hs & _ & _ & Hid & Hsn).
  destruct (related_status _ _ Hrel) as (Hretry & _).
  unfold upsertCalls, secretOf, readyUpdate, reconcileFailedCondition, failedUpdate.
  rewrite Hm, Hs, Hid, Hsn, Hretry. done.
Qed.

(** *** The two ends of an attempt *)






End AttemptFacts.

(** ** The deletion path beyond its protocol *)

Module DeletionFacts.
Import Backoff Template Text Operator Vocabulary Samples ReconcilerFacts
  HelperFacts PathFacts AttemptFacts.

Ltac absent H :=
  repeat (apply elem_of_cons in H as [H | H]; [first [discriminate | congruence] |]);
  by apply elem_of_nil in H.

(** X25. A resource with a deletion marker whose existence check is
    rejected, with whatever error: the external client is taken as
    gone and no call deletes it. When the delete of the secret is
    answered or rejected with status 404 and the release succeeds, the
    calls are the [Removing] status write, the existence check, the
    delete of the secret and the release of the finalizer, and the
    handler returns. *)
Theorem deletion_without_external_object (env : Env) (c : PocketIDClient)
    (ledger : gmap string Z) (err : Error) :
  let out := onCreatedOrUpdated env (delivered c ledger) in
  let ns := namespace (metadata c) in
  let nm := name (metadata c) in
  let id := deletionClientId c in
  is_Some (deletionTimestamp (metadata c)) ->
  script env 1%nat = Raise err ->
  (deleteApiOidcClients id ∉ calls out.2)
  /\ (tolerated (script env 2%nat) = true ->
      release c = [] \/ isDone (script env 3%nat) = true ->
      out.1 = Returned tt
      /\ calls out.2
         = ([PatchStatus ns nm (newStatus c (phaseOnly Removing));
             getApiOidcClients1 id; DeleteSecret ns (deletionSecretName c)]
            ++ release c)%list).
Proof.
  intros out ns nm id Hd Hgone. subst out.
  rewrite onCreatedOrUpdated_deleted by exact Hd.
  unfold handleDeletion. unfold_bind.
  rewrite updateStatus_run. cbv beta iota zeta. rewrite clientExists_run.
  unfold next. settle. rewrite Hgone. settle.
  rewrite deleteSecret_run. unfold next. settle.
  assert (Hrelease : Forall (fun call => call ≠ deleteApiOidcClients id) (release c)).
  { unfold release. destruct (bool_decide _); repeat constructor. discriminate. }
  split.
  - destruct (tolerated (script env 2%nat)) eqn:Hsec; cbv beta iota zeta.
    + rewrite removeFinalizer_run. settle.
      destruct (release c) as [| call rest] eqn:Erel.
      * unfold calls. cbn. intros Hin. absent Hin.
      * apply Forall_cons in Hrelease as [Hcall _].
        unfold next. settle. destruct (script env 3%nat); settle;
          [| rewrite deletionFailed_run; settle; rewrite addCondition_run];
          unfold calls; cbn; intros Hin; absent Hin.
    + destruct (script env 2%nat) as [v | e]; [discriminate |]. settle.
      rewrite deletionFailed_run. settle. rewrite addCondition_run.
      unfold calls. cbn. intros Hin. absent Hin.
  - intros Hsec Hrel. rewrite Hsec. cbv beta iota zeta.
    rewrite removeFinalizer_run. settle.
    destruct (release c) as [| call rest] eqn:Erel; [done |].
    destruct Hrel as [Hrel | Hrel]; [discriminate |].
    unfold next. settle.
    destruct (script env 3%nat); [| discriminate]. settle.
    unfold release in Erel. destruct (bool_decide _); [| discriminate].
    injection Erel as <- <-. done.
Qed.

Lemma deletion_without_external_object_witness :
  (deleteApiOidcClients (deletionClientId deletingClient)
   ∉ calls (onCreatedOrUpdated (failingAt 1 boom) (delivered deletingClient ∅)).2).
Proof.
  apply (deletion_without_external_object (failingAt 1 boom) deletingClient ∅ boom);
    [by eexists | reflexivity].
Defined.



End DeletionFacts.

(** ** The phases of an invocation *)

Module ProtocolFacts.
Import Backoff Template Text Operator Vocabulary Samples ReconcilerFacts
  HelperFacts PathFacts AttemptFacts.

Section Triples.
Context {A B : Type}.

Lemma triple_ret (P : State -> Prop) (a : A) (R : Error -> State -> Prop) :
  triple P (mret a) (fun _ => P) R.
Proof. intros env s H. exact H. Qed.

Lemma triple_bind (P : State -> Prop) (m : M A) (k : A -> M B)
    (Q1 : A -> State -> Prop) (Q : B -> State -> Prop) (R : Error -> State -> Prop) :
  triple P m Q1 R -> (forall a, triple (Q1 a) (k a) Q R) -> triple P (m ≫= k) Q R.
Proof.
  intros Hm Hk env s H. unfold mbind, M_bind, bind.
  specialize (Hm env s H). destruct (m env s) as [[a | e] s1]; [| exact Hm].
  exact (Hk a env s1 Hm).
Qed.

Lemma triple_try_catch (P : State -> Prop) (body : M A) (handler : Error -> M A)
    (Q : A -> State -> Prop) (R1 R : Error -> State -> Prop) :
  triple P body Q R1 -> (forall e, triple (R1 e) (handler e) Q R) ->
  triple P (try_catch body handler) Q R.
Proof.
  intros Hm Hk env s H. unfold try_catch.
  specialize (Hm env s H). destruct (body env s) as [[a | e] s1]; [exact Hm |].
  exact (Hk e env s1 Hm).
Qed.

Lemma triple_weaken (P P' : State -> Prop) (m : M A) (Q Q' : A -> State -> Prop)
    (R R' : Error -> State -> Prop) :
  triple P' m Q' R' ->
  (forall s, P s -> P' s) -> (forall a s, Q' a s -> Q a s) ->
  (forall e s, R' e s -> R e s) ->
  triple P m Q R.
Proof.
  intros Hm HP HQ HR env s H. specialize (Hm env s (HP s H)).
  destruct (m env s) as [[a | e] s1]; [by apply HQ | by apply HR].
Qed.

Lemma triple_get_client (P : State -> Prop) (k : PocketIDClient -> M B)
    (Q : B -> State -> Prop) (R : Error -> State -> Prop) :
  (forall c, triple P (k c) Q R) -> triple P (get_client ≫= k) Q R.
Proof. intros Hk env s H. exact (Hk (client s) env s H). Qed.

Lemma triple_Date_now (P : State -> Prop) (k : Z -> M B)
    (Q : B -> State -> Prop) (R : Error -> State -> Prop) :
  (forall now, triple P (k now) Q R) -> triple P (Date_now ≫= k) Q R.
Proof. intros Hk env s H. exact (Hk _ env s H). Qed.

Lemma triple_Math_random (P : State -> Prop) (k : Q -> M B)
    (Q' : B -> State -> Prop) (R : Error -> State -> Prop) :
  (forall r, triple P (k r) Q' R) -> triple P (Math_random ≫= k) Q' R.
Proof. intros Hk env s H. exact (Hk _ env s H). Qed.

End Triples.

(** *** How the calls move the log *)

Lemma secretApplied_push (s : State) (call : Call) (r : Response) :
  secretApplied s -> secretApplied (push s call r).
Proof.
  intros (secret & v & H). exists secret, v. cbn. apply elem_of_app. by left.
Qed.

Lemma logged_push (ph : list Phase) (a : bool) (s : State) (call : Call) (r : Response) :
  logged ph a s ->
  logged (ph ++ match call with
                | PatchStatus _ _ body => option_list (st_phase body)
                | _ => []
                end) a (push s call r).
Proof.
  intros [Hph Ha]. split; [by rewrite phases_push, Hph |].
  intros H. by apply secretApplied_push, Ha.
Qed.

Lemma logged_stored (ph : list Phase) (a : bool) (s : State) (l : list Condition) :
  logged ph a s -> logged ph a (stored l s).
Proof. intros H. exact H. Qed.

Lemma logged_forget (ph : list Phase) (a : bool) (s : State) :
  logged ph a s -> logged ph false s.
Proof. intros [Hph _]. split; [exact Hph | discriminate]. Qed.

(** A call that is no status write of a phase keeps the log, whatever
    its answer is. *)
Lemma request_logged (ph : list Phase) (a : bool) (call : Call) :
  match call with
  | PatchStatus _ _ body => st_phase body = None
  | _ => True
  end ->
  triple (logged ph a) (request call) (fun _ => logged ph a) (fun _ => logged ph a).
Proof.
  intros Hcall env s H. rewrite request_run.
  pose proof (logged_push ph a s call (next env s) H) as H'.
  assert (E : match call with
              | PatchStatus _ _ body => option_list (st_phase body)
              | _ => []
              end = []).
  { destruct call; try reflexivity. by rewrite Hcall. }
  rewrite E, app_nil_r in H'. destruct (next env s); exact H'.
Qed.

Lemma updateStatus_logged (ph : list Phase) (a : bool) (upd : PartialStatus)
    (p : Phase) (R : Error -> State -> Prop) :
  p_phase upd = Some (Some p) ->
  triple (logged ph a) (updateStatus upd) (fun _ => logged (ph ++ [p]) a) R.
Proof.
  intros Hp env s H. rewrite updateStatus_run.
  pose proof (logged_push ph a s
                (PatchStatus (namespace (metadata (client s)))
                   (name (metadata (client s))) (newStatus (client s) upd))
                (next env s) H) as H'.
  cbn [newStatus st_phase] in H'. rewrite Hp in H'. exact H'.
Qed.

Lemma addCondition_logged (ph : list Phase) (a : bool) (condition : Condition) :
  triple (logged ph a) (addCondition condition)
    (fun _ => logged ph a) (fun _ => logged ph a).
Proof.
  intros env s H. rewrite addCondition_run. cbv zeta.
  pose proof (logged_push ph a _
                (PatchStatus (namespace (metadata (client s)))
                   (name (metadata (client s)))
                   (conditionsOnly
                      (upsertCondition (default [] (status_field st_conditions (client s)))
                         condition)))
                (next env s)
                (logged_stored ph a s
                   (upsertCondition (default [] (status_field st_conditions (client s)))
                      condition) H)) as H'.
  cbn [conditionsOnly st_phase option_list] in H'. rewrite app_nil_r in H'.
  destruct (next env s); exact H'.
Qed.

Lemma createCondition_logged (P : State -> Prop) type st reason message gen
    (R : Error -> State -> Prop) :
  triple P (createCondition type st reason message gen) (fun _ => P) R.
Proof. intros env s H. exact H. Qed.

Lemma clientExists_logged (ph : list Phase) (a : bool) (clientId : string)
    (R : Error -> State -> Prop) :
  triple (logged ph a) (clientExists clientId) (fun _ => logged ph a) R.
Proof.
  intros env s H. rewrite clientExists_run.
  pose proof (logged_push ph a s (getApiOidcClients1 clientId) (next env s) H) as H'.
  by rewrite app_nil_r in H'.
Qed.

Lemma upsertSecret_logged (ph : list Phase) (a : bool) ns secretName clientId
    clientSecret ownerName ownerUid tmpl clientName :
  triple (logged ph a)
    (upsertSecret ns secretName clientId clientSecret ownerName ownerUid tmpl clientName)
    (fun _ => logged ph true) (fun _ => logged ph a).
Proof.
  intros env s H. rewrite upsertSecret_run.
  pose proof (logged_push ph a s
                (ApplySecret (buildSecret ns secretName clientId clientSecret ownerName
                                ownerUid tmpl clientName))
                (next env s) H) as H'.
  rewrite app_nil_r in H'. destruct (next env s) as [v | e]; [| exact H'].
  split; [apply H' |]. intros _. eexists _, v. cbn. apply elem_of_app. right.
  by apply list_elem_of_singleton.
Qed.

Lemma deleteSecret_logged (ph : list Phase) (a : bool) (ns secretName : string) :
  triple (logged ph a) (deleteSecret ns secretName)
    (fun _ => logged ph a) (fun _ => logged ph a).
Proof.
  intros env s H. rewrite deleteSecret_run.
  pose proof (logged_push ph a s (DeleteSecret ns secretName) (next env s) H) as H'.
  rewrite app_nil_r in H'.
  destruct (tolerated (next env s)); [exact H' |]. destruct (next env s); exact H'.
Qed.

Lemma addFinalizer_logged (ph : list Phase) (a : bool) :
  triple (logged ph a) addFinalizer (fun _ => logged ph a) (fun _ => logged ph a).
Proof.
  intros env s H. rewrite addFinalizer_run.
  destruct (ensure (client s)) as [| call rest] eqn:E; [exact H |].
  pose proof (logged_push ph a s call (next env s) H) as H'.
  assert (Hcall : match call with
                  | PatchStatus _ _ body => option_list (st_phase body)
                  | _ => []
                  end = []).
  { unfold ensure in E. destruct (bool_decide _); [discriminate |].
    by injection E as <- _. }
  rewrite Hcall, app_nil_r in H'. destruct (next env s); exact H'.
Qed.

Lemma removeFinalizer_logged (ph : list Phase) (a : bool) :
  triple (logged ph a) removeFinalizer (fun _ => logged ph a) (fun _ => logged ph a).
Proof.
  intros env s H. rewrite removeFinalizer_run.
  destruct (release (client s)) as [| call rest] eqn:E; [exact H |].
  pose proof (logged_push ph a s call (next env s) H) as H'.
  assert (Hcall : match call with
                  | PatchStatus _ _ body => option_list (st_phase body)
                  | _ => []
                  end = []).
  { unfold release in E. destruct (bool_decide _); [| discriminate].
    by injection E as <- _. }
  rewrite Hcall, app_nil_r in H'. destruct (next env s); exact H'.
Qed.


(** *** The log of the two paths *)

Lemma triple_raises {A} (P : State -> Prop) (m : M A) (Q : A -> State -> Prop)
    (R R' : Error -> State -> Prop) :
  triple P m Q R' -> (forall e s, R' e s -> R e s) -> triple P m Q R.
Proof. intros Hm HR. by apply (triple_weaken P P m Q Q R R' Hm). Qed.

Lemma triple_throw_to {A} (P : State -> Prop) (e : Error) (Q : A -> State -> Prop)
    (R : Error -> State -> Prop) :
  (forall s, P s -> R e s) -> triple P (@throw A e) Q R.
Proof. intros H env s Hs. by apply H. Qed.

Lemma triple_ret_to {A} (P : State -> Prop) (a : A) (Q : A -> State -> Prop)
    (R : Error -> State -> Prop) :
  (forall s, P s -> Q a s) -> triple P (mret a) Q R.
Proof. intros H env s Hs. by apply H. Qed.

Lemma reconcileFailed_logged (ph : list Phase) (a : bool) (err : Error) :
  triple (logged ph a) (reconcileFailed err)
    (fun _ => logged (ph ++ [Failed]) a) (fun _ => logged (ph ++ [Failed]) a).
Proof.
  unfold reconcileFailed.
  apply triple_get_client; intros c; cbv beta zeta.
  apply triple_Math_random; intros r; cbv beta zeta.
  apply triple_Date_now; intros now; cbv beta zeta.
  eapply triple_bind; [by apply updateStatus_logged | intros ?]; cbv beta.
  eapply triple_bind; [apply createCondition_logged | intros condition]; cbv beta.
  apply addCondition_logged.
Qed.

Lemma deletionFailed_logged (ph : list Phase) (a : bool) (err : Error) :
  triple (logged ph a) (deletionFailed err)
    (fun _ => logged (ph ++ [RemovalFailed]) a)
    (fun _ => logged (ph ++ [RemovalFailed]) a).
Proof.
  unfold deletionFailed.
  apply triple_get_client; intros c; cbv beta zeta.
  eapply triple_bind; [by apply updateStatus_logged | intros ?]; cbv beta.
  eapply triple_bind; [apply createCondition_logged | intros condition]; cbv beta.
  apply addCondition_logged.
Qed.

(** The [try] block returns after the secret was applied and [Ready]
    was written; when it throws, either nothing was written, or [Ready]
    was written after the secret was applied. *)
Lemma reconcileAttempt_logged (ph : list Phase) :
  triple (logged ph false) reconcileAttempt
    (fun _ => logged (ph ++ [Ready]) true)
    (fun _ s => logged ph false s \/ logged (ph ++ [Ready]) true s).
Proof.
  unfold reconcileAttempt.
  apply triple_get_client; intros c; cbv beta zeta.
  destruct (spec c) as [sp |]; [| apply triple_throw_to; intros; by left].
  destruct (negb (truthy (spec_name sp))); [apply triple_throw_to; intros; by left |].
  eapply triple_bind; [apply clientExists_logged | intros exists_]; cbv beta.
  apply (triple_bind _ _ _ (fun _ => logged ph false)).
  { destruct exists_.
    - eapply triple_bind;
        [eapply triple_raises; [by apply request_logged | intros; by left] | intros ?]; cbv beta.
      eapply triple_bind;
        [eapply triple_raises; [by apply request_logged | intros; by left]
        | intros clientSecret]; cbv beta.
      eapply triple_bind; [apply createCondition_logged | intros condition]; cbv beta.
      eapply triple_bind;
        [eapply triple_raises; [apply addCondition_logged | intros; by left] | intros ?]; cbv beta.
      by apply triple_ret_to.
    - eapply triple_bind;
        [eapply triple_raises; [by apply request_logged | intros; by left] | intros ?]; cbv beta.
      eapply triple_bind;
        [eapply triple_raises; [by apply request_logged | intros; by left]
        | intros clientSecret]; cbv beta.
      eapply triple_bind; [apply createCondition_logged | intros condition]; cbv beta.
      eapply triple_bind;
        [eapply triple_raises; [apply addCondition_logged | intros; by left] | intros ?]; cbv beta.
      by apply triple_ret_to. }
  intros clientSecret.
  eapply triple_bind;
    [eapply triple_raises; [apply upsertSecret_logged | intros; by left] | intros ?]; cbv beta.
  eapply triple_bind; [apply createCondition_logged | intros condition]; cbv beta.
  eapply triple_bind;
    [eapply triple_raises;
       [apply addCondition_logged | intros e s H; left; by apply (logged_forget _ true)]
    | intros ?]; cbv beta.
  eapply triple_bind; [by apply updateStatus_logged | intros ?]; cbv beta.
  eapply triple_bind; [apply createCondition_logged | intros condition']; cbv beta.
  eapply triple_raises; [apply addCondition_logged | intros; by right].
Qed.

Lemma logged_protocol (b : Phase) (ph : list Phase) (a : bool) (s : State) :
  logged ph a s -> ph ∈ upsertLogs b -> (Ready ∈ ph -> a = true) ->
  upsertProtocol b s.
Proof.
  intros [Hph Ha] Hin Hready. split; [by rewrite Hph |].
  rewrite Hph. intros H. by apply Ha, Hready.
Qed.

Ltac listed := unfold upsertLogs; rewrite !elem_of_cons; auto 10.

Ltac unlisted H :=
  repeat (apply elem_of_cons in H as [H | H]; [congruence |]);
  by apply elem_of_nil in H.

(** The attempt with its catch block, entered after the write of the
    phase [b]. *)
Lemma attempt_protocol (b : Phase) :
  b ≠ Ready ->
  triple (logged [b] false) (try_catch reconcileAttempt reconcileFailed)
    (fun _ => upsertProtocol b) (fun _ => upsertProtocol b).
Proof.
  intros Hb.
  eapply triple_try_catch.
  - eapply triple_weaken; [apply (reconcileAttempt_logged [b]) | done | | done].
    intros a s H. apply (logged_protocol b _ _ s H); [listed | done].
  - intros e env s [H | H].
    + pose proof (reconcileFailed_logged [b] false e env s H) as H'.
      destruct (reconcileFailed e env s) as [[a | e'] s'];
        (apply (logged_protocol b _ _ s' H'); [listed |];
         intros Hin; exfalso; cbn [app] in Hin; unlisted Hin).
    + pose proof (reconcileFailed_logged ([b] ++ [Ready]) true e env s H) as H'.
      destruct (reconcileFailed e env s) as [[a | e'] s'];
        (apply (logged_protocol b _ _ s' H'); [listed | done]).
Qed.


Lemma beginPhase_not_Ready (c : PocketIDClient) : beginPhase c ≠ Ready.
Proof. unfold beginPhase. by destruct (0 <? _). Qed.

Lemma handleDeletion_logged :
  triple (logged [] false) handleDeletion
    (fun _ s => phases s = [Removing] \/ phases s = [Removing; RemovalFailed])
    (fun _ s => phases s = [Removing] \/ phases s = [Removing; RemovalFailed]).
Proof.
  unfold handleDeletion.
  apply triple_get_client; intros c; cbv beta zeta.
  eapply triple_bind; [by apply updateStatus_logged | intros ?]; cbv beta.
  eapply triple_try_catch.
  - apply (triple_weaken _ (logged [Removing] false) _ _
             (fun _ => logged [Removing] false) _ (fun _ => logged [Removing] false));
      [| done | intros ? s H; left; apply H | intros e s H; exact H].
    eapply triple_bind; [apply triple_ret | intros ?]; cbv beta.
    eapply triple_bind; [apply clientExists_logged | intros exists_]; cbv beta.
    eapply triple_bind.
    { destruct exists_.
      - eapply triple_bind; [by apply request_logged | intros ?]; cbv beta.
        apply triple_ret.
      - by apply triple_ret_to. }
    intros ?; cbv beta.
    eapply triple_bind; [apply deleteSecret_logged | intros ?]; cbv beta.
    apply removeFinalizer_logged.
  - intros e. eapply triple_weaken; [apply deletionFailed_logged | done | |];
      intros ? s H; right; apply H.
Qed.

Lemma reconcile_protocol (env : Env) (s : State) :
  deletionTimestamp (metadata (client s)) = None ->
  trace s = [] ->
  upsertProtocol (beginPhase (client s)) (reconcile env s).2.
Proof.
  intros Hd Htrace. set (b := beginPhase (client s)).
  assert (H0 : logged [] false s).
  { split; [| discriminate]. unfold phases, calls. by rewrite Htrace. }
  assert (Hidle : forall s', logged [] false s' -> upsertProtocol b s').
  { intros s' H. apply (logged_protocol b _ _ s' H); [listed |].
    intros Hin. unlisted Hin. }
  assert (Hbegun : forall s', logged [b] false s' -> upsertProtocol b s').
  { intros s' H. apply (logged_protocol b _ _ s' H); [listed |].
    intros Hin. exfalso. apply elem_of_cons in Hin as [Hin | Hin];
      [symmetry in Hin; exact (beginPhase_not_Ready _ Hin)
      | by apply elem_of_nil in Hin]. }
  destruct (Z.lt_ge_cases (default 0 (status_field st_retryAttempt (client s)))
              (maxRetries RETRY_CONFIG)) as [Hlow | Hhigh].
  - rewrite reconcile_attempts by assumption. cbv zeta.
    destruct (gated _ _); [by apply Hidle |].
    match goal with
    | |- upsertProtocol b (?m env s).2 =>
        assert (Hm : triple (logged [] false) m
                       (fun _ => upsertProtocol b) (fun _ => upsertProtocol b))
    end.
    { eapply triple_bind;
        [eapply triple_raises; [apply addFinalizer_logged | intros e s'; apply Hidle]
        | intros ?]; cbv beta.
      eapply triple_bind; [by apply updateStatus_logged | intros ?]; cbv beta.
      eapply triple_bind; [apply createCondition_logged | intros condition]; cbv beta.
      eapply triple_bind;
        [eapply triple_raises; [apply addCondition_logged | intros e s'; apply Hbegun]
        | intros ?]; cbv beta.
      apply attempt_protocol, beginPhase_not_Ready. }
    specialize (Hm env s H0).
    match goal with
    | |- upsertProtocol b (?r).2 => destruct r as [[a | e] s']; exact Hm
    end.
  - rewrite reconcile_max_retries by assumption. cbv zeta.
    destruct (_ && _); [by apply Hidle |].
    pose proof (addCondition_logged [] false
                  (maxRetriesCondition (client s) (clock env (length (trace s))))
                  env s H0) as Hm.
    match goal with
    | |- upsertProtocol b (?r).2 => destruct r as [[a | e] s']; by apply Hidle
    end.
Qed.

(** X27. The phases that one invocation of the handler writes. With a
    deletion marker they are [Removing], followed by [RemovalFailed]
    when, and only when, a step of the deletion was rejected. Without
    one they are nothing at all, or the phase of the attempt followed
    by nothing, by [Failed], by [Ready], or by [Ready] and then
    [Failed]; and [Ready] is only ever written after an apply of the
    secret was answered in the same invocation. *)
Theorem phase_protocol (env : Env) (c : PocketIDClient) (L : gmap string Z) :
  let s' := (onCreatedOrUpdated env (delivered c L)).2 in
  (is_Some (deletionTimestamp (metadata c)) ->
   phases s' = [Removing] \/ phases s' = [Removing; RemovalFailed])
  /\ (deletionTimestamp (metadata c) = None ->
      phases s' ∈ upsertLogs (beginPhase c)
      /\ (Ready ∈ phases s' -> secretApplied s')).
Proof.
  intros s'. subst s'. split.
  - intros Hd. rewrite onCreatedOrUpdated_deleted by exact Hd.
    assert (H0 : logged [] false (delivered c L)) by (split; [done | discriminate]).
    pose proof (handleDeletion_logged env (delivered c L) H0) as H.
    destruct (handleDeletion env (delivered c L)) as [[a | e] s']; exact H.
  - intros Hd. rewrite onCreatedOrUpdated_upsert by exact Hd. rewrite dedupGate_run.
    settle.
    assert (Hdrop : upsertProtocol (beginPhase c) (delivered c L)).
    { split; [cbn; listed |]. intros Hin. cbn in Hin. unlisted Hin. }
    destruct (uid (metadata c)) as [u |]; [| exact Hdrop].
    destruct (generation (metadata c)) as [g |] eqn:Hg; [| exact Hdrop].
    destruct (String.eqb u ""); [exact Hdrop |].
    destruct (bool_decide (L !! u = Some g)); [exact Hdrop |].
    apply (reconcile_protocol env
             {| client := c; lastGenByUid := <[u := g]> L; trace := [] |});
      [exact Hd | reflexivity].
Qed.


(** Each of the five logs is attained by a resource that was just
    created: by a redelivery, by a rejected write of the [Reconciling]
    condition, by a rejected update of the external client, by a world
    in which every call is answered, and by a rejected write of the
    final [Ready] condition. *)
Example upsertLogs_attained :
  phases (onCreatedOrUpdated allDone (delivered freshClient {[ "uid-1" := 1 ]})).2 = []
  /\ phases (onCreatedOrUpdated (failingAt 2 boom) (delivered freshClient ∅)).2
     = [Pending]
  /\ phases (onCreatedOrUpdated (failingAt 4 boom) (delivered freshClient ∅)).2
     = [Pending; Failed]
  /\ phases (onCreatedOrUpdated allDone (delivered freshClient ∅)).2
     = [Pending; Ready]
  /\ phases (onCreatedOrUpdated (failingAt 10 boom) (delivered freshClient ∅)).2
     = [Pending; Ready; Failed].
Proof. repeat split; vm_compute; reflexivity. Qed.

End ProtocolFacts.

(** ** The name of the secret on the two paths *)

Module NamingFacts.
Import Backoff Template Text Operator Vocabulary Samples ReconcilerFacts
  HelperFacts PathFacts AttemptFacts.

Ltac present := unfold calls; cbn; rewrite !elem_of_cons; auto 12.

(** The deletion path reaches the delete of the secret when the
    existence check is rejected, or answered with the delete of the
    external client answered as well. *)
Lemma deletion_deletes_secret (env : Env) (c : PocketIDClient) (ledger : gmap string Z) :
  is_Some (deletionTimestamp (metadata c)) ->
  (isDone (script env 1%nat) = true -> isDone (script env 2%nat) = true) ->
  DeleteSecret (namespace (metadata c)) (deletionSecretName c)
  ∈ calls (onCreatedOrUpdated env (delivered c ledger)).2.
Proof.
  intros Hd Hdel. rewrite onCreatedOrUpdated_deleted by exact Hd.
  unfold handleDeletion. unfold_bind.
  rewrite updateStatus_run. cbv beta iota zeta. rewrite clientExists_run.
  unfold request, next. settle.
  destruct (script env 1%nat) as [v1 | e1]; settle.
  - specialize (Hdel eq_refl).
    destruct (script env 2%nat) as [v2 |]; [| discriminate]. settle.
    rewrite deleteSecret_run. unfold next. settle.
    destruct (tolerated (script env 3%nat)) eqn:Hsec; cbv beta iota zeta.
    + rewrite removeFinalizer_run. settle.
      destruct (release c) as [| call rest]; [present |].
      unfold next. settle. destruct (script env 4%nat); settle;
        [| rewrite deletionFailed_run; settle; rewrite addCondition_run]; present.
    + destruct (script env 3%nat) as [v | e]; [discriminate |]. settle.
      rewrite deletionFailed_run. settle. rewrite addCondition_run. present.
  - rewrite deleteSecret_run. unfold next. settle.
    destruct (tolerated (script env 2%nat)) eqn:Hsec; cbv beta iota zeta.
    + rewrite removeFinalizer_run. settle.
      destruct (release c) as [| call rest]; [present |].
      unfold next. settle. destruct (script env 3%nat); settle;
        [| rewrite deletionFailed_run; settle; rewrite addCondition_run]; present.
    + destruct (script env 2%nat) as [v | e]; [discriminate |]. settle.
      rewrite deletionFailed_run. settle. rewrite addCondition_run. present.
Qed.

(** An upsert event that passes the dedup gate runs [reconcile] with
    the ledger updated. *)
Lemma handler_accepts (env : Env) (c : PocketIDClient) (ledger : gmap string Z)
    (u : string) (g : Z) :
  deletionTimestamp (metadata c) = None ->
  uid (metadata c) = Some u -> u ≠ "" -> generation (metadata c) = Some g ->
  ledger !! u ≠ Some g ->
  onCreatedOrUpdated env (delivered c ledger)
  = reconcile env (delivered c (<[u := g]> ledger)).
Proof.
  intros Hd Hu Hne Hg Hnew. rewrite onCreatedOrUpdated_upsert by exact Hd.
  rewrite dedupGate_run. settle. rewrite Hu, Hg.
  destruct (String.eqb_spec u ""); [contradiction |].
  by rewrite bool_decide_eq_false_2 by exact Hnew.
Qed.

(** An attempt whose calls are answered applies the secret of the
    resource. *)
Lemma upsert_applies_secret (env : Env) (c : PocketIDClient) (L : gmap string Z)
    (sp : PocketIDClientSpec) :
  deletionTimestamp (metadata c) = None ->
  gated c (clock env 0%nat) = false ->
  default 0 (status_field st_retryAttempt c) < maxRetries RETRY_CONFIG ->
  spec c = Some sp ->
  truthy (spec_name sp) = true ->
  (forall i, i ≠ (2 + length (ensure c))%nat -> isDone (script env i) = true) ->
  exists clientSecret,
    ApplySecret (secretOf c clientSecret) ∈ calls (reconcile env (delivered c L)).2.
Proof.
  intros Hd Hg Hmax Hspec Hname Hdone.
  rewrite reconcile_begins; try assumption.
  2: { right. apply Hdone. lia. }
  2: { apply Hdone. lia. }
  pose proof (begun_client env c L) as Hrel.
  destruct (related_frame _ _ Hrel) as (Hm & Hs & _).
  destruct (related_reads _ _ Hrel) as (_ & Hsecret & _).
  destruct (reconcileAttempt_answered env (begun env c L) sp)
    as (s' & Hrun & Hs' & _).
  { by rewrite Hs. }
  { exact Hname. }
  { intros i Hi. apply Hdone. rewrite begun_length in Hi. lia. }
  unfold try_catch. rewrite Hrun. cbn [fst snd].
  destruct Hs' as (_ & Heff & _). rewrite Hsecret in Heff.
  eexists. apply list_elem_of_In.
  apply (proj1 (List.filter_In (fun call => negb (isStatusWrite call)) _ (calls s'))).
  fold (effects s'). rewrite Heff. apply List.in_or_app. right.
  apply List.in_or_app. right. by left.
Qed.

(** C9. The deletion path deletes the secret named [status.secretName],
    or [name ++ "-credentials"] when that is absent or empty, whatever
    [spec.secretTemplate] is: the delete is issued as soon as the
    existence check is rejected, or answered together with the delete
    of the external client, and no delete names another secret. The
    upsert path applies the secret named [spec.secretTemplate.name],
    with the same default: an attempt whose calls are answered applies
    it, and no apply names another secret. Hence for a resource with a
    custom name in the template and no [status.secretName] the deletion
    path deletes the default-named secret and never the custom-named
    one, which is the one that the upsert path applies. *)
Theorem secret_name_resolution :
  (forall (env : Env) (c : PocketIDClient) (ledger : gmap string Z)
        (tmpl : option SecretTemplate),
      let s' := (onCreatedOrUpdated env
                   (delivered (with_secretTemplate tmpl c) ledger)).2 in
      let sn := or_else (status_field st_secretName c)
                  (name (metadata c) ++ "-credentials") in
      is_Some (deletionTimestamp (metadata c)) ->
      (forall ns' sn', DeleteSecret ns' sn' ∈ calls s' -> sn' = sn)
      /\ ((isDone (script env 1%nat) = true -> isDone (script env 2%nat) = true) ->
          DeleteSecret (namespace (metadata c)) sn ∈ calls s'))
  /\ (forall (env : Env) (c : PocketIDClient) (ledger : gmap string Z)
        (sp : PocketIDClientSpec) (u : string) (g : Z),
      let s' := (onCreatedOrUpdated env (delivered c ledger)).2 in
      let sn := or_else ((spec c ≫= secretTemplate) ≫= tmpl_name)
                  (name (metadata c) ++ "-credentials") in
      (forall secret, ApplySecret secret ∈ calls s' -> secret_name secret = sn)
      /\ (deletionTimestamp (metadata c) = None ->
          uid (metadata c) = Some u -> u ≠ "" -> generation (metadata c) = Some g ->
          ledger !! u ≠ Some g ->
          gated c (clock env 0%nat) = false ->
          default 0 (status_field st_retryAttempt c) < maxRetries RETRY_CONFIG ->
          spec c = Some sp -> truthy (spec_name sp) = true ->
          (forall i, i ≠ (2 + length (ensure c))%nat -> isDone (script env i) = true) ->
          exists secret, ApplySecret secret ∈ calls s' /\ secret_name secret = sn))
  /\ (forall (env : Env) (c : PocketIDClient) (ledger : gmap string Z)
        (sp : PocketIDClientSpec) (tmpl : SecretTemplate) (custom : string),
      let s' := (onCreatedOrUpdated env (delivered c ledger)).2 in
      let ns := namespace (metadata c) in
      is_Some (deletionTimestamp (metadata c)) ->
      spec c = Some sp -> secretTemplate sp = Some tmpl ->
      tmpl_name tmpl = Some custom -> custom ≠ "" ->
      custom ≠ name (metadata c) ++ "-credentials" ->
      status_field st_secretName c = None ->
      (isDone (script env 1%nat) = true -> isDone (script env 2%nat) = true) ->
      reconcileSecretName c = custom
      /\ DeleteSecret ns (name (metadata c) ++ "-credentials") ∈ calls s'
      /\ (DeleteSecret ns custom ∉ calls s')).
Proof.
  assert (Hnames : forall env c ledger ns' sn',
            DeleteSecret ns' sn' ∈ calls (onCreatedOrUpdated env (delivered c ledger)).2 ->
            sn' = deletionSecretName c).
  { intros env c ledger ns' sn' Hin.
    pose proof (invocation_calls env c ledger) as Hall.
    rewrite Forall_forall in Hall. specialize (Hall _ Hin).
    inversion Hall; subst; [reflexivity | discriminate]. }
  split; [| split].
  - intros env c ledger tmpl s' sn Hd.
    destruct (with_secretTemplate_frame tmpl c) as (Hm & _ & _ & Hsn).
    split.
    + intros ns' sn' Hin. rewrite (Hnames _ _ _ _ _ Hin). exact Hsn.
    + intros Hdel.
      pose proof (deletion_deletes_secret env (with_secretTemplate tmpl c) ledger)
        as H.
      rewrite Hm, Hsn in H. apply H; [exact Hd | exact Hdel].
  - intros env c ledger sp u g s' sn. split.
    + intros secret Hin.
      pose proof (invocation_calls env c ledger) as Hall.
      rewrite Forall_forall in Hall. specialize (Hall _ Hin).
      inversion Hall; subst; [assumption | discriminate].
    + intros Hd Hu Hne Hg Hnew Hgate Hmax Hspec Hname Hdone. subst s'.
      rewrite (handler_accepts env c ledger u g) by assumption.
      destruct (upsert_applies_secret env c (<[u := g]> ledger) sp)
        as [clientSecret Hin]; try assumption.
      by exists (secretOf c clientSecret).
  - intros env c ledger sp tmpl custom s' ns Hd Hsp Htmpl Hname Hne Hdiff Hstatus Hdel.
    assert (Hsn : deletionSecretName c = name (metadata c) ++ "-credentials").
    { unfold deletionSecretName. by rewrite Hstatus. }
    split; [| split].
    + unfold reconcileSecretName. rewrite Hsp. cbn. rewrite Htmpl. cbn.
      rewrite Hname. cbn. destruct (String.eqb_spec custom ""); [contradiction | done].
    + rewrite <- Hsn. by apply deletion_deletes_secret.
    + intros Hin. apply Hnames in Hin. rewrite Hsn in Hin. contradiction.
Qed.

(** The resource [deletingClient] has the custom name ["custom"] in its
    template and no [status.secretName]: when every call is answered,
    its deletion deletes ["my-app-credentials"] and not ["custom"]. The
    resource [templatedClient] has the same template name, and its
    upsert applies a secret named ["custom"]. *)
Lemma secret_name_resolution_witness :
  (reconcileSecretName deletingClient = "custom"
   /\ DeleteSecret "apps" "my-app-credentials"
      ∈ calls (onCreatedOrUpdated allDone (delivered deletingClient ∅)).2
   /\ (DeleteSecret "apps" "custom"
       ∉ calls (onCreatedOrUpdated allDone (delivered deletingClient ∅)).2))
  /\ (exists secret,
        ApplySecret secret
        ∈ calls (onCreatedOrUpdated allDone (delivered templatedClient ∅)).2
        /\ secret_name secret = "custom").
Proof.
  split.
  - apply (proj2 (proj2 secret_name_resolution) allDone deletingClient ∅
             (sampleSpec (Some {| tmpl_name := Some "custom"; tmpl_data := None |}))
             {| tmpl_name := Some "custom"; tmpl_data := None |} "custom");
      first [by eexists | reflexivity | discriminate].
  - apply (proj2 (proj1 (proj2 secret_name_resolution) allDone templatedClient ∅
                    (sampleSpec
                       (Some {| tmpl_name := Some "custom";
                                tmpl_data :=
                                  Some [("__proto__", "x"); ("id", "{{ .ClientID }}");
                                        ("secret", "{{ .ClientSecret }}")] |}))
                    "uid-1" 1));
      first [reflexivity | discriminate | by intros].
Defined.

End NamingFacts.
